(** * Zoomer Digest: the pacing and tokenization engine of [src/app/page.tsx]

  A shallow embedding of the reader's engine: the tokenizer [parseText],
  the focal splitter [getFocalIndex] / [splitWord], the pacing model
  [getPauseMultiplier] / [getWordDelay] / [calculateRemainingTime], and the
  playback controller (the React state of [Home] with its handlers and
  timer effects), and what the page derives from the state for display: the
  current unit and its parts, the word count under the text box, the
  progress in percent and the time left in minutes and seconds.

  JavaScript strings are sequences of UTF-16 code units, indexed, sliced and
  matched (by regular expressions without the [u] flag) one code unit at a
  time; they are lists of code units here.  JavaScript numbers are IEEE 754
  binary64 values; where the code computes with fractions (the delays and
  the remaining time) they are [spec_float] values with the operations of
  [SpecFloat] at precision 53, rounding to nearest even as JavaScript does,
  and where it only counts (lengths, indices, the rate) they are integers.

  The controller is the state of the component and one transition per
  handler, timer callback and effect branch; time itself is not modelled, a
  timer is an event that can happen while its condition holds. *)

From Stdlib Require Import String Ascii.
From Stdlib Require Import ZArith List Bool Lia.
From Stdlib Require Import QArith Qround.
From Stdlib Require Import Floats.SpecFloat.
From Equations Require Import Equations.
Import ListNotations.
Open Scope Z_scope.

(** ** Strings *)

Module Str.

(** A UTF-16 code unit. *)
Definition char16 := Z.

Definition jsstring := list char16.

(** An ASCII literal as a JavaScript string. *)
Definition lit (s : string) : jsstring :=
  map (fun a => Z.of_N (N_of_ascii a)) (list_ascii_of_string s).

(** [s.length] *)
Definition len {A} (s : list A) : Z := Z.of_nat (length s).

(** The class [\w] of a regular expression without flags:
    [A-Za-z0-9_]. *)
Definition isWordChar (c : char16) : bool :=
  ((48 <=? c) && (c <=? 57)) || ((65 <=? c) && (c <=? 90))
  || (c =? 95) || ((97 <=? c) && (c <=? 122)).

(** The class [\s]: the WhiteSpace and LineTerminator code points of
    ECMAScript, which are also what [trim] removes. *)
Definition isSpace (c : char16) : bool :=
  ((9 <=? c) && (c <=? 13)) || (c =? 32) || (c =? 160) || (c =? 5760)
  || ((8192 <=? c) && (c <=? 8202)) || (c =? 8232) || (c =? 8233)
  || (c =? 8239) || (c =? 8287) || (c =? 12288) || (c =? 65279).

(** The resolution of a relative index by [slice]: a negative index counts
    from the end, and the result is clamped to [0, len]. *)
Definition relIndex (n k : Z) : Z :=
  if k <? 0 then Z.max (n + k) 0 else Z.min k n.

(** [s.slice(start, stop)], for strings and arrays alike. *)
Definition slice {A} (s : list A) (start stop : Z) : list A :=
  let from := relIndex (len s) start in
  let to := relIndex (len s) stop in
  firstn (Z.to_nat (to - from)) (skipn (Z.to_nat from) s).

(** [s.slice(start)] *)
Definition sliceFrom {A} (s : list A) (start : Z) : list A :=
  slice s start (len s).

(** [s[i]]: [undefined] (here [None]) outside [0, len). *)
Definition index {A} (s : list A) (i : Z) : option A :=
  if i <? 0 then None else nth_error s (Z.to_nat i).

(** [s[i] || '']: a one-unit string is truthy, [undefined] is not. *)
Definition charOrEmpty (s : jsstring) (i : Z) : jsstring :=
  match index s i with
  | Some c => [c]
  | None => []
  end.

(** [s.replace(/[^\w]/g, '')] *)
Definition stripNonWord (s : jsstring) : jsstring := filter isWordChar s.

End Str.

Import Str.

(** ** Focal splitter *)

(** [getFocalIndex]: the rank of the focal letter from the number of word
    characters. *)
Definition getFocalIndex (word : jsstring) : Z :=
  let cleanLength := len (stripNonWord word) in
  if cleanLength <=? 2 then 1
  else if cleanLength <=? 4 then 2
  else if cleanLength <=? 6 then 3
  else if cleanLength <=? 9 then 4
  else if cleanLength <=? 13 then 5
  else 6.

Record parts := mkParts { before : jsstring; focal : jsstring; after : jsstring }.

(** The variables of the scanning loop of [splitWord]. *)
Record scan := mkScan {
  charCount : Z;
  focalPos : Z;
  letterPositions : list Z
}.

Definition scanInit : scan := mkScan 0 (-1) [].

(** One iteration of [for (let i = 0; i < word.length; i++)] on [word[i] = c]. *)
Definition scanStep (focalIndex i : Z) (c : char16) (st : scan) : scan :=
  if isWordChar c then
    let count := charCount st + 1 in
    mkScan count
           (if count =? focalIndex then i else focalPos st)
           (letterPositions st ++ [i])
  else st.

(** The loop from index [i] over the remaining units. *)
Fixpoint scanFrom (focalIndex i : Z) (rest : jsstring) (st : scan) : scan :=
  match rest with
  | [] => st
  | c :: rest' => scanFrom focalIndex (i + 1) rest' (scanStep focalIndex i c st)
  end.

(** The position the loop and its fallback settle on:
    [if (focalPos === -1) focalPos = letterPositions[0] ?? 0]. *)
Definition settledPos (st : scan) : Z :=
  if focalPos st =? -1 then
    match index (letterPositions st) 0 with
    | Some p => p
    | None => 0
    end
  else focalPos st.

Definition splitAt (word : jsstring) (pos : Z) : parts :=
  mkParts (slice word 0 pos) (charOrEmpty word pos) (sliceFrom word (pos + 1)).

(** [splitWord] *)
Definition splitWord (word : jsstring) : parts :=
  let cleanWord := stripNonWord word in
  if len cleanWord =? 0 then
    (* Math.floor(word.length / 2) of a length is the integer quotient *)
    splitAt word (len word / 2)
  else
    let focalIndex := getFocalIndex word in
    splitAt word (settledPos (scanFrom focalIndex 0 word scanInit)).

(** The place, counted from the head of [rest], of the word character that
    brings the running count to [r]. *)
Fixpoint locate (r : Z) (rest : jsstring) : option nat :=
  match rest with
  | [] => None
  | c :: rest' =>
      if isWordChar c then
        if r =? 1 then Some O else option_map S (locate (r - 1) rest')
      else option_map S (locate r rest')
  end.

(** *** The splitter as the specification words it *)

Module SplitSpec.

(** The number of word-constituent characters. *)
Definition wordCount (w : jsstring) : nat := length (filter isWordChar w).

(** The table of target ranks. *)
Definition targetRank (n : nat) : nat :=
  if (n <=? 2)%nat then 1
  else if (n <=? 4)%nat then 2
  else if (n <=? 6)%nat then 3
  else if (n <=? 9)%nat then 4
  else if (n <=? 13)%nat then 5
  else 6%nat.

(** The running count of word-constituent characters up to and including
    position [i]. *)
Definition runningCount (w : jsstring) (i : nat) : nat :=
  wordCount (firstn (S i) w).

(** The focal index: the position at which the running count reaches the
    rank. *)
Definition focalIndex (rank : nat) (w : jsstring) : option nat :=
  find (fun i => (runningCount w i =? rank)%nat) (seq 0 (length w)).

(** The character at a position, if any, as a string. *)
Definition charAt (w : jsstring) (i : nat) : jsstring :=
  match nth_error w i with
  | Some c => [c]
  | None => []
  end.

Definition cut (w : jsstring) (i : nat) : parts :=
  mkParts (firstn i w) (charAt w i) (skipn (S i) w).

(** The reference split; [None] would mean that no position carries the
    target rank. *)
Definition split (w : jsstring) : option parts :=
  match wordCount w with
  | O => Some (cut w (length w / 2)%nat)
  | n => option_map (cut w) (focalIndex (targetRank n) w)
  end.

End SplitSpec.

(** ** Tokenizer *)

Module Tok.

Fixpoint dropWhile {A} (p : A -> bool) (l : list A) : list A :=
  match l with
  | [] => []
  | x :: r => if p x then dropWhile p r else l
  end.

(** [s.trim()] *)
Definition trimStart (s : jsstring) : jsstring := dropWhile isSpace s.
Definition trimEnd (s : jsstring) : jsstring := rev (dropWhile isSpace (rev s)).
Definition trim (s : jsstring) : jsstring := trimEnd (trimStart s).

(** The character class [[\s-]]. *)
Definition isDelim (c : char16) : bool := isSpace c || (c =? 45).

(** A match of [/[\s-]+/] anchored at the head of [s]: the units left after
    the longest run of delimiters, or [None] when [s] does not start with
    one. *)
Definition matchDelims (s : jsstring) : option jsstring :=
  match s with
  | c :: r => if isDelim c then Some (dropWhile isDelim r) else None
  | [] => None
  end.

Definition inspect {A} (a : A) : {b : A | a = b} := exist _ a eq_refl.

(** The loop of [split] with a regular expression: [seg] is the part of the
    string between the end of the last match ([p]) and the position under
    test ([q]), [rest] is the string from [q] on.  Where the separator
    matches, the segment is emitted and the scan resumes after the match;
    elsewhere [q] moves one unit on.  The end of the string emits the last
    segment. *)
Equations? splitLoop (seg rest : jsstring) : list jsstring
  by wf (length rest) lt :=
  splitLoop seg [] := [seg];
  splitLoop seg (c :: r) with inspect (matchDelims (c :: r)) := {
    | exist _ (Some rest') _ => seg :: splitLoop [] rest';
    | exist _ None _ => splitLoop (seg ++ [c]) r }.
Proof.
  simpl in e. destruct (isDelim c); [|discriminate].
  injection e as <-. clear. simpl.
  induction r as [|x r IH]; simpl; [lia|].
  destruct (isDelim x); simpl; lia.
Defined.

(** [s.split(/[\s-]+/)]: the separator does not match the empty string, so
    splitting the empty string gives the array holding it. *)
Definition split (s : jsstring) : list jsstring :=
  if len s =? 0 then [s] else splitLoop [] s.

End Tok.

(** [parseText] *)
Definition parseText (text : jsstring) : list jsstring :=
  filter (fun word => len word >? 0) (Tok.split (Tok.trim text)).

(** The test of the filter of [parseText]. *)
Definition nonEmpty (word : jsstring) : bool := len word >? 0.

(** *** The tokenizer as the specification words it *)

(** A string without whitespace and hyphens. *)
Definition noDelim (word : jsstring) : Prop :=
  forallb (fun c => negb (Tok.isDelim c)) word = true.

(** A string of whitespace and hyphens only. *)
Definition allDelim (gap : jsstring) : Prop :=
  forallb Tok.isDelim gap = true.

Module TokSpec.

(** The maximal runs of units that are neither whitespace nor hyphens, in
    order; [cur] is the run being read. *)
Fixpoint runs (cur : jsstring) (s : jsstring) : list jsstring :=
  match s with
  | [] => match cur with [] => [] | _ => [cur] end
  | c :: r =>
      if Tok.isDelim c then
        match cur with [] => runs [] r | _ => cur :: runs [] r end
      else runs (cur ++ [c]) r
  end.

Definition tokenize (text : jsstring) : list jsstring := runs [] text.

(** A string of whitespace only (the empty string included). *)
Definition blank (text : jsstring) : Prop := forallb isSpace text = true.

(** The same, as a relation: the text is a gap of delimiters, then a word,
    and either ends there or goes on with a delimiter and the rest. *)
Inductive tokenized : jsstring -> list jsstring -> Prop :=
| tokenized_nil gap :
    allDelim gap -> tokenized gap []
| tokenized_last gap word :
    allDelim gap -> word <> [] -> noDelim word ->
    tokenized (gap ++ word) [word]
| tokenized_cons gap word sep rest words :
    allDelim gap -> word <> [] -> noDelim word -> Tok.isDelim sep = true ->
    tokenized rest words ->
    tokenized (gap ++ word ++ sep :: rest) (word :: words).

End TokSpec.

(** ** Numbers *)

Module Num.

(** A JavaScript number: an IEEE 754 binary64 value. *)
Definition num := spec_float.

Definition prec : Z := 53.
Definition emax : Z := 1024.

(** The number an integer literal or an integer count denotes. *)
Definition ofZ (n : Z) : num := binary_normalize prec emax n 0 false.

Definition add : num -> num -> num := SFadd prec emax.
Definition mul : num -> num -> num := SFmul prec emax.
Definition div : num -> num -> num := SFdiv prec emax.
Definition ltb : num -> num -> bool := SFltb.
Definition leb : num -> num -> bool := SFleb.

(** A decimal literal [n/d] denotes the double nearest to it, which is the
    correctly rounded quotient. *)
Definition decimal (n d : Z) : num := div (ofZ n) (ofZ d).

(** [Math.ceil] *)
Definition ceil (x : num) : num :=
  match x with
  | S754_finite s m e =>
      if 0 <=? e then x
      else
        let d := 2 ^ (- e) in
        let q := Zpos m / d in
        let r := Zpos m mod d in
        if s then binary_normalize prec emax (- q) 0 true
        else binary_normalize prec emax (if r =? 0 then q else q + 1) 0 false
  | _ => x
  end.

(** A finite number of the format above zero. *)
Definition positive (x : num) : bool :=
  match x with
  | S754_finite false m e => bounded prec emax m e
  | _ => false
  end.

End Num.

(** ** Pacing model *)

(** [/[...]$/.test(word)]: without the [m] flag, [$] is the end of the
    string, so the test is on the last unit. *)
Definition endsWith (p : char16 -> bool) (word : jsstring) : bool :=
  match rev word with
  | c :: _ => p c
  | [] => false
  end.

Definition isSentenceEnd (c : char16) : bool := (c =? 46) || (c =? 33) || (c =? 63).
Definition isClauseSep (c : char16) : bool := (c =? 59) || (c =? 58).
Definition isComma (c : char16) : bool := c =? 44.

(** [getPauseMultiplier] *)
Definition getPauseMultiplier (word : jsstring) : Num.num :=
  if endsWith isSentenceEnd word then Num.decimal 15 10
  else if endsWith isClauseSep word then Num.decimal 12 10
  else if endsWith isComma word then Num.decimal 11 10
  else Num.decimal 10 10.

(** [getWordDelay], with the [speed] it closes over as a parameter. *)
Definition getWordDelay (speed : Z) (word : jsstring) : Num.num :=
  let baseDelay := Num.mul (Num.div (Num.ofZ 60) (Num.ofZ speed)) (Num.ofZ 1000) in
  let multiplier := getPauseMultiplier word in
  Num.mul baseDelay multiplier.

(** [remainingWords.reduce((acc, word) => acc + getWordDelay(word), 0)] *)
Definition totalMs (speed : Z) (remainingWords : list jsstring) : Num.num :=
  fold_left (fun acc word => Num.add acc (getWordDelay speed word))
            remainingWords (Num.ofZ 0).

(** [calculateRemainingTime], with the state it closes over as parameters. *)
Definition calculateRemainingTime
  (words : list jsstring) (currentIndex speed : Z) : Num.num :=
  if (len words =? 0) || (currentIndex >=? len words - 1) then Num.ofZ 0
  else
    let remainingWords := sliceFrom words (currentIndex + 1) in
    Num.ceil (Num.div (totalMs speed remainingWords) (Num.ofZ 1000)).

(** ** Playback controller *)

(** The state of the component [Home]: its [useState] cells.  (The timer
    handles kept in refs only carry the pending timers, which are the events
    [WordTimer] and [CountdownTimer] below.) *)
Record state := mkState {
  inputText : jsstring;
  words : list jsstring;
  currentIndex : Z;
  isPlaying : bool;
  speed : Z;
  countdown : option Z
}.

Definition initial : state := mkState [] [] 0 false 300 None.

Definition setWords (v : list jsstring) (s : state) : state :=
  mkState (inputText s) v (currentIndex s) (isPlaying s) (speed s) (countdown s).
Definition setCurrentIndex (v : Z) (s : state) : state :=
  mkState (inputText s) (words s) v (isPlaying s) (speed s) (countdown s).
Definition setIsPlaying (v : bool) (s : state) : state :=
  mkState (inputText s) (words s) (currentIndex s) v (speed s) (countdown s).
Definition setSpeed (v : Z) (s : state) : state :=
  mkState (inputText s) (words s) (currentIndex s) (isPlaying s) v (countdown s).
Definition setCountdown (v : option Z) (s : state) : state :=
  mkState (inputText s) (words s) (currentIndex s) (isPlaying s) (speed s) v.
Definition setInputText (v : jsstring) (s : state) : state :=
  mkState v (words s) (currentIndex s) (isPlaying s) (speed s) (countdown s).

(** A string is truthy when it is not empty. *)
Definition truthy (t : jsstring) : bool := negb (len t =? 0).

(** [togglePlay] *)
Definition togglePlay (s : state) : state :=
  if len (words s) =? 0 then s
  else setIsPlaying (negb (isPlaying s)) s.

(** [adjustSpeed] *)
Definition adjustSpeed (delta : Z) (s : state) : state :=
  let newSpeed := speed s + delta in
  setSpeed (Z.max 100 (Z.min 1000 newSpeed)) s.

(** [handleStart] *)
Definition handleStart (s : state) : state :=
  if truthy (Tok.trim (inputText s)) then
    let parsedWords := parseText (inputText s) in
    setCountdown (Some 3)
      (setIsPlaying false (setCurrentIndex 0 (setWords parsedWords s)))
  else s.

(** [handleStop] *)
Definition handleStop (s : state) : state :=
  setCountdown None (setIsPlaying false s).

(** [handleReset] *)
Definition handleReset (s : state) : state :=
  setWords [] (setCurrentIndex 0 (setIsPlaying false s)).

(** The click on the countdown overlay, and the space key during the
    countdown: [setCountdown(null); setIsPlaying(true)]. *)
Definition skipCountdown (s : state) : state :=
  setIsPlaying true (setCountdown None s).

(** The space key. *)
Definition keySpace (s : state) : state :=
  match countdown s with
  | Some _ => skipCountdown s
  | None => togglePlay s
  end.

(** The button "Back to Input". *)
Definition backToInput (s : state) : state :=
  setCurrentIndex 0 (setWords [] s).

Definition sampleText : jsstring :=
  lit "Teddy the chihuahua was small enough to fit inside a hoodie pocket"
  ++ lit ", but he carried himself like a dog ten times his size. His ears s"
  ++ lit "tood straight up, radar dishes tuned to danger, snacks, and the so"
  ++ lit "und of the fridge opening. He ruled the apartment from the couch a"
  ++ lit "rmrest, watching the world with the stern confidence of someone wh"
  ++ lit "o believed everything existed for his approval."
  ++ [10]
  ++ [10]
  ++ lit "Every morning, Teddy marched on his tiny paws to inspect his domai"
  ++ lit "n. The mailman was his sworn enemy. The vacuum was a demon. Sunbea"
  ++ lit "ms on the floor were sacred resting grounds. Despite his tough ext"
  ++ lit "erior, he had one weakness: blankets. The moment a blanket appeare"
  ++ lit "d, Teddy transformed from fearless guardian into a shivering burri"
  ++ lit "to who demanded warmth and silence."
  ++ [10]
  ++ [10]
  ++ lit "At night, Teddy curled up, heart pounding fast like all chihuahuas"
  ++ lit "' hearts do, dreaming of heroic battles he definitely would have w"
  ++ lit "on. In his sleep, his legs twitched as if he were chasing somethin"
  ++ lit "g enormous and terrifying"
  ++ [8212]
  ++ lit "probably a squirrel. And though the world saw a tiny dog, Teddy kn"
  ++ lit "ew the truth: bravery isn't about size, it's about attitude, and h"
  ++ lit "e had plenty of that.".

(** The button "Try Sample Text". *)
Definition trySample (s : state) : state :=
  let parsedWords := parseText sampleText in
  setCountdown (Some 3)
    (setIsPlaying false
       (setCurrentIndex 0 (setWords parsedWords (setInputText sampleText s)))).

(** The advance effect arms its timer under this condition. *)
Definition wordTimerArmed (s : state) : bool :=
  isPlaying s && (len (words s) >? 0) && (currentIndex s <? len (words s)).

(** The callback of the per-word timer:
    [setCurrentIndex(prev => prev >= words.length - 1 ? (stop, prev) : prev + 1)]. *)
Definition wordTimerFired (s : state) : state :=
  if wordTimerArmed s then
    if currentIndex s >=? len (words s) - 1 then setIsPlaying false s
    else setCurrentIndex (currentIndex s + 1) s
  else s.

(** The callback of the one-second countdown timer, armed while the
    countdown is above zero. *)
Definition countdownTick (s : state) : state :=
  match countdown s with
  | Some n => if n >? 0 then setCountdown (Some (n - 1)) s else s
  | None => s
  end.

(** The branch [countdown === 0] of the countdown effect. *)
Definition countdownZero (s : state) : state :=
  match countdown s with
  | Some n => if n =? 0 then setIsPlaying true (setCountdown None s) else s
  | None => s
  end.

(** What can happen to the component: the user's actions and the timers. *)
Inductive event :=
| TypeText (text : jsstring)   (* the text box, and its "Clear" button *)
| ClickSample                  (* "Try Sample Text" *)
| ClickStart                   (* "Start Reading" / "Resume", and "Play" *)
| ClickStop                    (* both "Stop" buttons *)
| ClickReset                   (* "Reset" *)
| ClickBack                    (* "Back to Input" *)
| ClickDisplay                 (* a click on the reading display *)
| ClickCountdown               (* a click on the countdown overlay *)
| KeySpace
| AdjustSpeed (delta : Z)      (* the arrow keys: -50 and +50 *)
| Slider (value : Z)           (* either speed slider *)
| WordTimer
| CountdownTimer
| CountdownZero.

Definition step (e : event) (s : state) : state :=
  match e with
  | TypeText text => setInputText text s
  | ClickSample => trySample s
  | ClickStart => handleStart s
  | ClickStop => handleStop s
  | ClickReset => handleReset s
  | ClickBack => backToInput s
  | ClickDisplay => togglePlay s
  | ClickCountdown => skipCountdown s
  | KeySpace => keySpace s
  | AdjustSpeed delta => adjustSpeed delta s
  | Slider value => setSpeed value s
  | WordTimer => wordTimerFired s
  | CountdownTimer => countdownTick s
  | CountdownZero => countdownZero s
  end.

(** A value a speed slider can report: [min="100" max="1000" step="50"]. *)
Definition sliderValue (v : Z) : bool :=
  (100 <=? v) && (v <=? 1000) && ((v - 100) mod 50 =? 0).

(** The events the page can deliver. *)
Definition deliverable (e : event) : Prop :=
  match e with
  | Slider v => sliderValue v = true
  | _ => True
  end.

Definition run (es : list event) (s : state) : state :=
  fold_left (fun st e => step e st) es s.

(** The states of the component: those the events lead to from the first
    render. *)
Inductive reachable : state -> Prop :=
| reach_initial : reachable initial
| reach_step e s : reachable s -> deliverable e -> reachable (step e s).

(** The spec's Paused state: a sequence is loaded, nothing plays and no
    countdown runs. *)
Definition paused (s : state) : Prop :=
  words s <> [] /\ isPlaying s = false /\ countdown s = None.

(** The spec's Playing state. *)
Definition playing (s : state) : Prop :=
  isPlaying s = true /\ countdown s = None.

(** The position invariant of the data model. *)
Definition positionInRange (s : state) : Prop :=
  words s <> [] -> 0 <= currentIndex s < len (words s).

Definition rateInRange (s : state) : Prop := 100 <= speed s <= 1000.

(** [clamp(x, lo, hi)] of the specification. *)
Definition clamp (x lo hi : Z) : Z :=
  if x <? lo then lo else if hi <? x then hi else x.

(** A session of two units played up to the last one: the text "a b" is
    started, the countdown runs out, and the first per-word timer fires. *)
Definition atLastWord : state :=
  run [TypeText (lit "a b"); ClickStart; CountdownTimer; CountdownTimer;
       CountdownTimer; CountdownZero; WordTimer] initial.

(** [const remainingSeconds = calculateRemainingTime()] *)
Definition remainingSeconds (s : state) : Num.num :=
  calculateRemainingTime (words s) (currentIndex s) (speed s).

(** The sum of [calculateRemainingTime] from an accumulator. *)
Definition totalMsFrom (speed : Z) (acc : Num.num) (remainingWords : list jsstring) : Num.num :=
  fold_left (fun a word => Num.add a (getWordDelay speed word)) remainingWords acc.

(** A session of three units, playing its first one. *)
Definition atFirstOfThree : state :=
  run [TypeText (lit "a b c"); ClickStart; CountdownTimer; CountdownTimer;
       CountdownTimer; CountdownZero] initial.

(** The same session, paused there by a click on the display. *)
Definition pausedAtLastWord : state := step ClickDisplay atLastWord.

(** *** The pacing model as the specification words it *)

Module PaceSpec.

(** The trailing character of a unit. *)
Fixpoint trailing (unit : jsstring) : option char16 :=
  match unit with
  | [] => None
  | [c] => Some c
  | _ :: rest => trailing rest
  end.

(** The multiplier table, first match first. *)
Definition multiplier (unit : jsstring) : Num.num :=
  match trailing unit with
  | None => Num.decimal 10 10
  | Some c =>
      if existsb (Z.eqb c) (lit ".!?") then Num.decimal 15 10
      else if existsb (Z.eqb c) (lit ";:") then Num.decimal 12 10
      else if existsb (Z.eqb c) (lit ",") then Num.decimal 11 10
      else Num.decimal 10 10
  end.

(** The base delay: [(60 / rate) * 1000]. *)
Definition base (rate : Z) : Num.num :=
  Num.mul (Num.div (Num.ofZ 60) (Num.ofZ rate)) (Num.ofZ 1000).

Definition delay (unit : jsstring) (rate : Z) : Num.num :=
  Num.mul (base rate) (multiplier unit).

(** The four multipliers of the table. *)
Definition multipliers : list Num.num :=
  [Num.decimal 15 10; Num.decimal 12 10; Num.decimal 11 10; Num.decimal 10 10].

(** The rates of the interval [100, 1000]. *)
Definition rates : list Z := map Z.of_nat (seq 100 901).

(** The sum of a list of numbers, accumulated from the left. *)
Definition sum (l : list Num.num) : Num.num := fold_left Num.add l (Num.ofZ 0).

(** The units strictly after a position. *)
Definition after (sequence : list jsstring) (index : nat) : list jsstring :=
  skipn (S index) sequence.

Definition remainingTime (sequence : list jsstring) (index : nat) (rate : Z) : Num.num :=
  Num.ceil (Num.div (sum (map (fun u => delay u rate) (after sequence index)))
                    (Num.ofZ 1000)).

End PaceSpec.

(** *** The pacing model in exact arithmetic

    The specification speaks of real numbers of milliseconds; its formulas
    read in the rationals. *)

Module Exact.

(** The rational a number of the format stands for. *)
Definition value (x : Num.num) : Q :=
  match x with
  | S754_finite s m e =>
      ((if s then -1 else 1) * inject_Z (Zpos m) * Qpower 2 e)%Q
  | _ => 0%Q
  end.

Definition multiplier (unit : jsstring) : Q :=
  match PaceSpec.trailing unit with
  | None => 1%Q
  | Some c =>
      if existsb (Z.eqb c) (lit ".!?") then (15 # 10)%Q
      else if existsb (Z.eqb c) (lit ";:") then (12 # 10)%Q
      else if existsb (Z.eqb c) (lit ",") then (11 # 10)%Q
      else 1%Q
  end.

(** [(60 / rate) * 1000] times the multiplier. *)
Definition delay (unit : jsstring) (rate : Z) : Q :=
  ((60 / inject_Z rate) * 1000 * multiplier unit)%Q.

Definition sum (l : list Q) : Q := fold_right Qplus 0%Q l.

(** The ceiling of the sum of the delays after a position, divided by
    1000. *)
Definition remainingTime (sequence : list jsstring) (index : nat) (rate : Z) : Z :=
  Qceiling (sum (map (fun u => delay u rate) (PaceSpec.after sequence index)) / 1000).

(** The same over the delays [getWordDelay] returns, summed exactly. *)
Definition remainingTimeOfDelays
  (sequence : list jsstring) (index : nat) (rate : Z) : Z :=
  Qceiling (sum (map (fun u => value (getWordDelay rate u))
                     (PaceSpec.after sequence index)) / 1000).

End Exact.

(** *** More of the page *)

(** The units of a list joined by single spaces. *)
Fixpoint joinWords (ws : list jsstring) : jsstring :=
  match ws with
  | [] => []
  | [w] => w
  | w :: rest => w ++ 32 :: joinWords rest
  end.

(** A unit as [parseText] yields them: not empty, without whitespace and
    hyphens. *)
Definition isUnit (w : jsstring) : Prop := w <> [] /\ noDelim w.

(** [requiresPause]: [/[.!?;:]$/.test(word)] *)
Definition isPauseMark (c : char16) : bool :=
  (c =? 46) || (c =? 33) || (c =? 63) || (c =? 59) || (c =? 58).

Definition requiresPause (word : jsstring) : bool := endsWith isPauseMark word.

(** [const currentWord = words[currentIndex] || ''] *)
Definition currentWord (s : state) : jsstring :=
  match index (words s) (currentIndex s) with
  | Some w => if truthy w then w else []
  | None => []
  end.

(** [const wordParts = currentWord ? splitWord(currentWord)
                                   : { before: '', focal: '', after: '' }] *)
Definition wordParts (s : state) : parts :=
  if truthy (currentWord s) then splitWord (currentWord s)
  else mkParts [] [] [].

(** The events as the page's keys and widgets send them: the arrow keys
    change the rate by 50, a slider reports one of its stops. *)
Definition fromPage (e : event) : Prop :=
  match e with
  | AdjustSpeed delta => delta = -50 \/ delta = 50
  | Slider v => sliderValue v = true
  | _ => True
  end.

Inductive reachableFromPage : state -> Prop :=
| page_initial : reachableFromPage initial
| page_step e s : reachableFromPage s -> fromPage e -> reachableFromPage (step e s).

(** A session playing the second of the units "a", "b,", "c.", "d". *)
Definition atSecondOfFour : state :=
  run [TypeText (lit "a b, c. d"); ClickStart; KeySpace; WordTimer] initial.

(** A session counting down: the text "a b" has just been started. *)
Definition countingDown : state :=
  run [TypeText (lit "a b"); ClickStart] initial.

(** The first render with hyphens and spaces typed into the text box. *)
Definition hyphensTyped : state := step (TypeText (lit " - -- ")) initial.

(** The rate after some arrow keys and a move of the slider. *)
Definition rateMoved : state :=
  run [AdjustSpeed 50; AdjustSpeed 50; Slider 950; AdjustSpeed 50;
       AdjustSpeed 50; AdjustSpeed (-50)] initial.

(** [const hasStartedReading = words.length > 0] *)
Definition hasStartedReading (s : state) : bool := len (words s) >? 0.

(** The attribute [disabled={isPlaying || !inputText.trim()}] of the button
    "Start Reading". *)
Definition startDisabled (s : state) : bool :=
  isPlaying s || negb (truthy (Tok.trim (inputText s))).


(** *** The word count under the text box *)

Module Ws.

(** A match of [/\s+/] anchored at the head of [s]. *)
Definition matchSpaces (s : jsstring) : option jsstring :=
  match s with
  | c :: r => if isSpace c then Some (Tok.dropWhile isSpace r) else None
  | [] => None
  end.

(** The loop of [split] for the separator [/\s+/]. *)
Equations? spaceLoop (seg rest : jsstring) : list jsstring
  by wf (length rest) lt :=
  spaceLoop seg [] := [seg];
  spaceLoop seg (c :: r) with Tok.inspect (matchSpaces (c :: r)) := {
    | exist _ (Some rest') _ => seg :: spaceLoop [] rest';
    | exist _ None _ => spaceLoop (seg ++ [c]) r }.
Proof.
  simpl in e. destruct (isSpace c); [|discriminate].
  injection e as <-. clear. simpl.
  induction r as [|x r IH]; simpl; [lia|].
  destruct (isSpace x); simpl; lia.
Defined.

(** [s.split(/\s+/)] *)
Definition split (s : jsstring) : list jsstring :=
  if len s =? 0 then [s] else spaceLoop [] s.

End Ws.

(** [inputText.split(/\s+/).filter(w => w.length > 0)] *)
Definition countedWords (inputText : jsstring) : list jsstring :=
  filter (fun w => len w >? 0) (Ws.split inputText).

(** The count shown under the text box,
    [inputText.length > 0 && `${... .length} words`]: [None] when nothing is
    shown. *)
Definition shownWordCount (inputText : jsstring) : option Z :=
  if len inputText >? 0 then Some (len (countedWords inputText)) else None.

(** A string without a hyphen. *)
Definition noHyphen (text : jsstring) : Prop :=
  forallb (fun c => negb (c =? 45)) text = true.

(** *** The progress shown *)

(** [Math.round]: the nearest integer, a tie going up; a number of the format
    that is no integer has a negative exponent, and its rounding is the floor
    of the number plus one half. *)
Definition mathRound (x : Num.num) : Num.num :=
  match x with
  | S754_finite s m e =>
      if 0 <=? e then x
      else
        let d := 2 ^ (- e) in
        let v := if s then - Zpos m else Zpos m in
        binary_normalize Num.prec Num.emax ((2 * v + d) / (2 * d)) 0 s
  | _ => x
  end.

(** [Math.round(((currentIndex + 1) / words.length) * 100)] *)
Definition progressPercent (s : state) : Num.num :=
  mathRound (Num.mul (Num.div (Num.ofZ (currentIndex s + 1))
                              (Num.ofZ (len (words s))))
                     (Num.ofZ 100)).

(** The integer [Math.round] yields for [m * 2^e]. *)
Definition roundInt (m : positive) (e : Z) : Z :=
  if 0 <=? e then Zpos m * 2 ^ e
  else (2 * Zpos m + 2 ^ (- e)) / (2 * 2 ^ (- e)).

(** The integer a number from zero to a hundred is rounded to. *)
Definition percentInt (x : Num.num) : Z :=
  match x with
  | S754_finite false m e => roundInt m e
  | _ => 0
  end.

(** *** The time left in minutes and seconds *)

(** [Math.floor] *)
Definition mathFloor (x : Num.num) : Num.num :=
  match x with
  | S754_finite s m e =>
      if 0 <=? e then x
      else
        let d := 2 ^ (- e) in
        let q := Zpos m / d in
        let r := Zpos m mod d in
        if s then binary_normalize Num.prec Num.emax (- (if r =? 0 then q else q + 1)) 0 true
        else binary_normalize Num.prec Num.emax q 0 false
  | _ => x
  end.

(** The operator [%]: the remainder of the truncating division, exact, with
    the sign of the dividend. *)
Definition remainder (x y : Num.num) : Num.num :=
  match x, y with
  | S754_nan, _ => S754_nan
  | _, S754_nan => S754_nan
  | S754_infinity _, _ => S754_nan
  | _, S754_zero _ => S754_nan
  | S754_zero _, _ => x
  | S754_finite _ _ _, S754_infinity _ => x
  | S754_finite sx mx ex, S754_finite _ my ey =>
      let c := Z.min ex ey in
      let r := (Zpos mx * 2 ^ (ex - c)) mod (Zpos my * 2 ^ (ey - c)) in
      binary_normalize Num.prec Num.emax (if sx then - r else r) c sx
  end.

(** [const remainingMinutes = Math.floor(remainingSeconds / 60)] *)
Definition remainingMinutes (s : state) : Num.num :=
  mathFloor (Num.div (remainingSeconds s) (Num.ofZ 60)).

(** [const remainingSecs = remainingSeconds % 60] *)
Definition remainingSecs (s : state) : Num.num :=
  remainder (remainingSeconds s) (Num.ofZ 60).

(** The integer [Math.floor] yields for [m * 2^e]. *)
Definition floorInt (m : positive) (e : Z) : Z :=
  if 0 <=? e then Zpos m * 2 ^ e else Zpos m / 2 ^ (- e).

(** ** Rounding

    What [SpecFloat] computes, in terms of integer quotients: the facts behind
    the monotonicity of the sum, the quotient and the ceiling. *)

Module Round.

Definition fexp (g : Z) : Z := SpecFloat.fexp Num.prec Num.emax g.

(** Where [N/D] lies between two integers. *)
Definition locOf (N D : Z) : location :=
  if N mod D =? 0 then loc_Exact else loc_Inexact (2 * (N mod D) ?= D).

Definition recOf (N D : Z) : shr_record := shr_record_of_loc (N / D) (locOf N D).

(** [N/D] rounded to the nearest integer, ties to even. *)
Definition rne (N D : Z) : Z :=
  match 2 * (N mod D) ?= D with
  | Lt => N / D
  | Eq => if Z.even (N / D) then N / D else N / D + 1
  | Gt => N / D + 1
  end.

(** The end of [binary_round_aux]: from the rounded mantissa to the number. *)
Definition out (q e : Z) : spec_float :=
  let '(mrs, e') := shr_fexp Num.prec Num.emax q e loc_Exact in
  match shr_m mrs with
  | Z0 => S754_zero false
  | Zpos m => if e' <=? Num.emax - Num.prec then S754_finite false m e' else S754_infinity false
  | Zneg _ => S754_nan
  end.

(** The rounding of [N/D * 2^e]. *)
Definition G (N D e : Z) : spec_float :=
  binary_round_aux Num.prec Num.emax false (N / D) e (locOf N D).

(** The numbers the sums of delays range over: zero, the finite numbers
    of the format above zero, and infinity. *)
Definition good (x : spec_float) : Prop :=
  match x with
  | S754_zero s => s = false
  | S754_infinity s => s = false
  | S754_finite s m e => s = false /\ bounded Num.prec Num.emax m e = true
  | S754_nan => False
  end.

(** The exponent [G] rounds at. *)
Definition expOf (N D e : Z) : Z := fexp (Zdigits2 (N / D) + e).

(** [G] shifts right by [expOf - e] places; it is exact about [N/D] when
    that is not negative. *)
Definition pre (N D e : Z) : Prop := 0 <= N /\ 0 < D /\ e <= expOf N D e.

(** The least integer not below [m * 2^e]. *)
Definition ceilInt (m : positive) (e : Z) : Z :=
  if 0 <=? e then Zpos m * 2 ^ e
  else if Zpos m mod 2 ^ (- e) =? 0 then Zpos m / 2 ^ (- e)
       else Zpos m / 2 ^ (- e) + 1.

End Round.

Import Round.

(** * Properties *)

(** ** Slicing *)

Section Slicing.

Context {A : Type}.
Implicit Types (s : list A) (pos : Z).

Lemma len_nonneg s : 0 <= len s.
Proof. unfold len. lia. Qed.

Lemma slice_prefix s pos :
  0 <= pos -> slice s 0 pos = firstn (Z.to_nat pos) s.
Proof.
  intros Hpos. unfold slice, relIndex.
  pose proof (len_nonneg s) as Hlen.
  replace (0 <? 0) with false by reflexivity.
  destruct (pos <? 0) eqn:Hneg; [lia|].
  rewrite (Z.min_l 0 (len s)) by lia. simpl skipn.
  rewrite Z.sub_0_r.
  destruct (Z.le_ge_cases pos (len s)) as [Hle|Hge].
  - rewrite Z.min_l by lia. reflexivity.
  - rewrite Z.min_r by lia.
    unfold len in *. rewrite Nat2Z.id.
    rewrite firstn_all. symmetry. apply firstn_all2. lia.
Qed.

Lemma sliceFrom_suffix s pos :
  0 <= pos -> sliceFrom s pos = skipn (Z.to_nat pos) s.
Proof.
  intros Hpos. unfold sliceFrom, slice, relIndex.
  pose proof (len_nonneg s) as Hlen.
  destruct (pos <? 0) eqn:Hneg; [lia|].
  destruct (len s <? 0) eqn:Hneg'; [lia|].
  rewrite (Z.min_id (len s)).
  destruct (Z.le_ge_cases pos (len s)) as [Hle|Hge].
  - rewrite Z.min_l by lia.
    apply firstn_all2. rewrite length_skipn. unfold len in *. lia.
  - rewrite Z.min_r by lia.
    unfold len in *. rewrite Nat2Z.id.
    rewrite skipn_all. rewrite skipn_all2 by lia. apply firstn_nil.
Qed.

Lemma index_nth s pos :
  0 <= pos -> index s pos = nth_error s (Z.to_nat pos).
Proof.
  intros Hpos. unfold index. destruct (pos <? 0) eqn:Hneg; [lia|reflexivity].
Qed.

End Slicing.

(** A split at a position that is not negative is the cut of the
    specification. *)
Lemma splitAt_cut (w : jsstring) (pos : Z) :
  0 <= pos -> splitAt w pos = SplitSpec.cut w (Z.to_nat pos).
Proof.
  intros Hpos. unfold splitAt, SplitSpec.cut, charOrEmpty, SplitSpec.charAt.
  rewrite slice_prefix, sliceFrom_suffix, index_nth by lia.
  replace (Z.to_nat (pos + 1)) with (S (Z.to_nat pos)) by lia.
  reflexivity.
Qed.

Lemma cut_concat (w : jsstring) (i : nat) :
  firstn i w ++ SplitSpec.charAt w i ++ skipn (S i) w = w.
Proof.
  revert i. induction w as [|c w IH]; intros [|i]; try reflexivity.
  unfold SplitSpec.charAt in *. simpl. f_equal. apply IH.
Qed.

(** ** The scanning loop *)

Lemma scanFrom_focalPos (fi : Z) (rest : jsstring) :
  forall i st,
    focalPos (scanFrom fi i rest st) =
      match locate (fi - charCount st) rest with
      | Some j => i + Z.of_nat j
      | None => focalPos st
      end.
Proof.
  induction rest as [|c rest IH]; intros i st; simpl; [reflexivity|].
  rewrite IH. unfold scanStep.
  destruct (isWordChar c) eqn:Hc; simpl.
  - replace (fi - (charCount st + 1)) with (fi - charCount st - 1) by lia.
    destruct (fi - charCount st =? 1) eqn:Hr.
    + apply Z.eqb_eq in Hr.
      replace (charCount st + 1 =? fi) with true by (symmetry; apply Z.eqb_eq; lia).
      replace (fi - charCount st - 1) with 0 by lia.
      assert (Hnone : forall l, locate 0 l = None).
      { clear. intros l. assert (H : forall r, r <= 0 -> locate r l = None).
        { induction l as [|x l IHl]; intros r Hr; simpl; [reflexivity|].
          destruct (isWordChar x).
          - destruct (r =? 1) eqn:E; [apply Z.eqb_eq in E; lia|].
            rewrite IHl by lia. reflexivity.
          - rewrite IHl by lia. reflexivity. }
        apply H. lia. }
      rewrite Hnone. simpl. lia.
    + apply Z.eqb_neq in Hr.
      replace (charCount st + 1 =? fi) with false by (symmetry; apply Z.eqb_neq; lia).
      destruct (locate (fi - charCount st - 1) rest); simpl; [lia|reflexivity].
  - destruct (locate (fi - charCount st) rest); simpl; [lia|reflexivity].
Qed.

(** The place [locate] gives is inside the string and holds a word
    character. *)
Lemma locate_some (rest : jsstring) :
  forall r, 1 <= r <= Z.of_nat (SplitSpec.wordCount rest) ->
    exists j c, locate r rest = Some j /\ nth_error rest j = Some c
                /\ isWordChar c = true /\ (j < length rest)%nat.
Proof.
  unfold SplitSpec.wordCount.
  induction rest as [|x rest IH]; intros r Hr; simpl in *; [lia|].
  destruct (isWordChar x) eqn:Hx; simpl in *.
  - destruct (r =? 1) eqn:E.
    + exists O, x. repeat split; auto. lia.
    + apply Z.eqb_neq in E.
      destruct (IH (r - 1)) as (j & c & Hl & Hn & Hc & Hj); [lia|].
      exists (S j), c. rewrite Hl. repeat split; auto. lia.
  - destruct (IH r) as (j & c & Hl & Hn & Hc & Hj); [lia|].
    exists (S j), c. rewrite Hl. repeat split; auto. lia.
Qed.




(** ** The focal splitter *)

Lemma targetRank_bounds (n : nat) :
  (1 <= n)%nat -> (1 <= SplitSpec.targetRank n <= n)%nat.
Proof.
  intros Hn. unfold SplitSpec.targetRank.
  repeat match goal with
         | |- context [(?a <=? ?b)%nat] => destruct (Nat.leb_spec a b)
         end; lia.
Qed.

Lemma getFocalIndex_rank (w : jsstring) :
  getFocalIndex w = Z.of_nat (SplitSpec.targetRank (SplitSpec.wordCount w)).
Proof.
  unfold getFocalIndex, SplitSpec.targetRank, stripNonWord, len.
  fold (SplitSpec.wordCount w).
  repeat match goal with
         | |- context [(?a <=? ?b)%nat] => destruct (Nat.leb_spec a b)
         end;
  repeat match goal with
         | |- context [?a <=? ?b] => destruct (Z.leb_spec a b)
         end; lia.
Qed.

(** What [splitWord] does, by the two branches of its test. *)
Lemma splitWord_shape (w : jsstring) :
  (SplitSpec.wordCount w = O /\ splitWord w = SplitSpec.cut w (length w / 2))
  \/
  ((1 <= SplitSpec.wordCount w)%nat /\
   exists p c,
     locate (getFocalIndex w) w = Some p /\
     focalPos (scanFrom (getFocalIndex w) 0 w scanInit) = Z.of_nat p /\
     splitWord w = SplitSpec.cut w p /\
     nth_error w p = Some c /\ isWordChar c = true /\ (p < length w)%nat).
Proof.
  unfold splitWord.
  destruct (len (stripNonWord w) =? 0) eqn:E.
  - left. apply Z.eqb_eq in E. unfold len, stripNonWord in E.
    split; [unfold SplitSpec.wordCount; lia|].
    rewrite splitAt_cut by (apply Z.div_pos; unfold len; lia).
    f_equal. unfold len.
    rewrite <- (Nat2Z.id (length w / 2)), Nat2Z.inj_div. reflexivity.
  - right. apply Z.eqb_neq in E. unfold len, stripNonWord in E.
    assert (Hn : (1 <= SplitSpec.wordCount w)%nat)
      by (unfold SplitSpec.wordCount; lia).
    split; [exact Hn|].
    pose proof (targetRank_bounds _ Hn) as Hr.
    destruct (locate_some w (getFocalIndex w)) as (p & c & Hl & Hnth & Hc & Hp).
    { rewrite getFocalIndex_rank. lia. }
    assert (Hpos : focalPos (scanFrom (getFocalIndex w) 0 w scanInit) = Z.of_nat p).
    { rewrite scanFrom_focalPos. simpl charCount. rewrite Z.sub_0_r, Hl. lia. }
    exists p, c. repeat split; auto.
    unfold settledPos. rewrite Hpos.
    destruct (Z.of_nat p =? -1) eqn:E'; [apply Z.eqb_eq in E'; lia|].
    rewrite splitAt_cut by lia. rewrite Nat2Z.id. reflexivity.
Qed.

Example splitWord_rabbit :
  splitWord (lit "rabbit") = mkParts (lit "ra") (lit "b") (lit "bit").
Proof. reflexivity. Qed.

Example splitWord_Hi_comma :
  splitWord (lit "Hi,") = mkParts [] (lit "H") (lit "i,").
Proof. reflexivity. Qed.

Example splitWord_dots :
  splitWord (lit "...") = mkParts (lit ".") (lit ".") (lit ".").
Proof. reflexivity. Qed.

Example focal_ranks :
  map (fun n => getFocalIndex (repeat 97 n)) [1; 2; 3; 5; 7; 10; 14]%nat
  = [1; 1; 2; 3; 4; 5; 6].
Proof. reflexivity. Qed.


(** C3: for every string w, the three parts [splitWord] returns concatenate
    to w: before + focal + after = w, unit for unit. *)
Theorem splitWord_roundtrip (w : jsstring) :
  before (splitWord w) ++ focal (splitWord w) ++ after (splitWord w) = w.
Proof.
  destruct (splitWord_shape w) as [[_ Hs]|[_ (p & c & _ & _ & Hs & _)]];
    rewrite Hs; apply cut_concat.
Qed.

(** C10: for every unit with at least one word character, the rank of the
    table is between 1 and the number of word characters, so the scan sets
    [focalPos] (it is not -1 when the loop ends and the fallback to the first
    letter does not run), the position is inside the unit, and the unit read
    there is a word character, which is the focal part. *)
Theorem splitWord_scan_finds_focal (w : jsstring) :
  (1 <= SplitSpec.wordCount w)%nat ->
  let st := scanFrom (getFocalIndex w) 0 w scanInit in
  1 <= getFocalIndex w <= len (stripNonWord w)
  /\ focalPos st <> -1
  /\ settledPos st = focalPos st
  /\ 0 <= focalPos st < len w
  /\ exists c, index w (focalPos st) = Some c /\ isWordChar c = true
               /\ focal (splitWord w) = [c].
Proof.
  intros Hn st. subst st.
  destruct (splitWord_shape w) as [[Hz _]|[_ (p & c & Hl & Hpos & Hs & Hnth & Hc & Hp)]];
    [lia|].
  pose proof (targetRank_bounds _ Hn) as Hr.
  split.
  { rewrite getFocalIndex_rank. unfold len, stripNonWord.
    fold (SplitSpec.wordCount w). lia. }
  rewrite Hpos. split; [lia|]. split.
  { unfold settledPos. rewrite Hpos.
    destruct (Z.of_nat p =? -1) eqn:E; [apply Z.eqb_eq in E; lia|reflexivity]. }
  split; [unfold len; lia|].
  exists c. rewrite index_nth by lia. rewrite Nat2Z.id.
  repeat split; auto.
  rewrite Hs. unfold SplitSpec.cut, SplitSpec.charAt. simpl. rewrite Hnth. reflexivity.
Qed.

Lemma splitWord_scan_finds_focal_witness :
  (1 <= SplitSpec.wordCount (lit "rabbit,"))%nat
  /\ (let st := scanFrom (getFocalIndex (lit "rabbit,")) 0 (lit "rabbit,") scanInit in
      1 <= getFocalIndex (lit "rabbit,") <= len (stripNonWord (lit "rabbit,"))
      /\ focalPos st <> -1
      /\ settledPos st = focalPos st
      /\ 0 <= focalPos st < len (lit "rabbit,")
      /\ exists c, index (lit "rabbit,") (focalPos st) = Some c
                   /\ isWordChar c = true
                   /\ focal (splitWord (lit "rabbit,")) = [c]).
Proof.
  split; [vm_compute; lia|].
  apply (splitWord_scan_finds_focal (lit "rabbit,")). vm_compute. lia.
Defined.

(** ** The tokenizer *)

Lemma splitLoop_nil (seg : jsstring) : Tok.splitLoop seg [] = [seg].
Proof. simp splitLoop. reflexivity. Qed.

Lemma splitLoop_cons (seg : jsstring) (c : char16) (r : jsstring) :
  Tok.splitLoop seg (c :: r) =
    if Tok.isDelim c then seg :: Tok.splitLoop [] (Tok.dropWhile Tok.isDelim r)
    else Tok.splitLoop (seg ++ [c]) r.
Proof.
  simp splitLoop.
  destruct (Tok.inspect (Tok.matchDelims (c :: r))) as [[rest'|] e];
    simpl; simpl in e; destruct (Tok.isDelim c); try discriminate.
  - injection e as <-. reflexivity.
  - reflexivity.
Qed.

Lemma nonEmpty_cases (w : jsstring) :
  filter nonEmpty [w] = match w with [] => [] | _ => [w] end.
Proof. destruct w; reflexivity. Qed.

Lemma runs_skip_delims (s : jsstring) :
  TokSpec.runs [] (Tok.dropWhile Tok.isDelim s) = TokSpec.runs [] s.
Proof.
  induction s as [|c s IH]; simpl; [reflexivity|].
  destruct (Tok.isDelim c) eqn:Hc; [exact IH|].
  simpl. rewrite Hc. reflexivity.
Qed.

Lemma isSpace_isDelim (c : char16) : isSpace c = true -> Tok.isDelim c = true.
Proof. intros H. unfold Tok.isDelim. rewrite H. reflexivity. Qed.

Lemma runs_skip_spaces (s : jsstring) :
  TokSpec.runs [] (Tok.dropWhile isSpace s) = TokSpec.runs [] s.
Proof.
  induction s as [|c s IH]; simpl; [reflexivity|].
  destruct (isSpace c) eqn:Hc; [|reflexivity].
  rewrite (isSpace_isDelim c Hc). exact IH.
Qed.

Lemma runs_app_delim (s : jsstring) (c : char16) :
  Tok.isDelim c = true ->
  forall cur, TokSpec.runs cur (s ++ [c]) = TokSpec.runs cur s.
Proof.
  intros Hc. induction s as [|x s IH]; intros cur; simpl.
  - rewrite Hc. destruct cur; reflexivity.
  - destruct (Tok.isDelim x); [destruct cur|]; rewrite IH; reflexivity.
Qed.

Lemma runs_trimEnd (s cur : jsstring) :
  TokSpec.runs cur (Tok.trimEnd s) = TokSpec.runs cur s.
Proof.
  unfold Tok.trimEnd. rewrite <- (rev_involutive s) at 2.
  induction (rev s) as [|c t IH]; simpl; [reflexivity|].
  destruct (isSpace c) eqn:Hc.
  - rewrite IH. symmetry. apply runs_app_delim, isSpace_isDelim, Hc.
  - reflexivity.
Qed.

(** The loop of [split], once the empty strings are filtered out, yields the
    runs of the string. *)
Lemma splitLoop_runs (n : nat) :
  forall s seg, (length s <= n)%nat ->
    filter nonEmpty (Tok.splitLoop seg s) = TokSpec.runs seg s.
Proof.
  induction n as [|n IH]; intros [|c r] seg Hlen; simpl in Hlen; try lia.
  - rewrite splitLoop_nil. apply nonEmpty_cases.
  - rewrite splitLoop_nil. apply nonEmpty_cases.
  - rewrite splitLoop_cons. cbn [TokSpec.runs].
    destruct (Tok.isDelim c).
    + change (seg :: ?l) with ([seg] ++ l). rewrite filter_app, nonEmpty_cases.
      rewrite IH.
      * rewrite runs_skip_delims. destruct seg; reflexivity.
      * clear - Hlen. induction r as [|x r IHr]; simpl in *; [lia|].
        destruct (Tok.isDelim x); simpl; lia.
    + apply IH. lia.
Qed.

Lemma parseText_runs (text : jsstring) :
  parseText text = TokSpec.tokenize text.
Proof.
  unfold parseText, TokSpec.tokenize, Tok.split. fold nonEmpty.
  transitivity (TokSpec.runs [] (Tok.trim text)).
  - destruct (len (Tok.trim text) =? 0) eqn:E.
    + apply Z.eqb_eq in E. destruct (Tok.trim text); [reflexivity|].
      unfold len in E. simpl in E. lia.
    + apply (splitLoop_runs (length (Tok.trim text))). lia.
  - unfold Tok.trim, Tok.trimStart. rewrite runs_trimEnd. apply runs_skip_spaces.
Qed.

Lemma noDelim_snoc (cur : jsstring) (c : char16) :
  noDelim cur -> Tok.isDelim c = false -> noDelim (cur ++ [c]).
Proof.
  unfold noDelim. intros H Hc. rewrite forallb_app, H. simpl. rewrite Hc. reflexivity.
Qed.

(** The runs hold every unit that is not a delimiter, in order. *)
Lemma runs_concat (s : jsstring) :
  forall cur, noDelim cur ->
    concat (TokSpec.runs cur s) = cur ++ filter (fun c => negb (Tok.isDelim c)) s.
Proof.
  induction s as [|c s IH]; intros cur Hcur; simpl.
  - destruct cur; simpl; rewrite ?app_nil_r; reflexivity.
  - destruct (Tok.isDelim c) eqn:Hc; simpl.
    + destruct cur; simpl; rewrite IH by reflexivity; reflexivity.
    + rewrite IH by (apply noDelim_snoc; assumption).
      rewrite <- app_assoc. reflexivity.
Qed.

(** Each run is not empty and holds no delimiter. *)
Lemma runs_words (s : jsstring) :
  forall cur, noDelim cur ->
    Forall (fun w => w <> [] /\ noDelim w) (TokSpec.runs cur s).
Proof.
  induction s as [|c s IH]; intros cur Hcur; simpl.
  - destruct cur; constructor; [split; [discriminate|exact Hcur]|constructor].
  - destruct (Tok.isDelim c) eqn:Hc.
    + destruct cur; [apply IH; reflexivity|].
      constructor; [split; [discriminate|exact Hcur]|apply IH; reflexivity].
    + apply IH, noDelim_snoc; assumption.
Qed.

Lemma runs_blank (s : jsstring) : TokSpec.blank s -> TokSpec.runs [] s = [].
Proof.
  unfold TokSpec.blank. induction s as [|c s IH]; simpl; [reflexivity|].
  intros H. apply andb_prop in H as [Hc Hs].
  rewrite (isSpace_isDelim c Hc). apply IH, Hs.
Qed.

Lemma tokenized_delim (c : char16) (s : jsstring) (ws : list jsstring) :
  Tok.isDelim c = true -> TokSpec.tokenized s ws -> TokSpec.tokenized (c :: s) ws.
Proof.
  intros Hc H.
  assert (Hgap : forall gap, allDelim gap -> allDelim (c :: gap)).
  { intros gap Hg. unfold allDelim in *. simpl. rewrite Hc, Hg. reflexivity. }
  destruct H as [gap Hg|gap word Hg Hne Hw|gap word sep rest words Hg Hne Hw Hs Hr].
  - apply TokSpec.tokenized_nil. auto.
  - apply (TokSpec.tokenized_last (c :: gap)); auto.
  - apply (TokSpec.tokenized_cons (c :: gap)); auto.
Qed.

Lemma runs_tokenized (s : jsstring) :
  forall cur, noDelim cur -> TokSpec.tokenized (cur ++ s) (TokSpec.runs cur s).
Proof.
  induction s as [|c s IH]; intros cur Hcur; simpl.
  - rewrite app_nil_r. destruct cur as [|x cur].
    + apply TokSpec.tokenized_nil. reflexivity.
    + apply (TokSpec.tokenized_last [] (x :: cur)); [reflexivity|discriminate|exact Hcur].
  - destruct (Tok.isDelim c) eqn:Hc.
    + destruct cur as [|x cur].
      * apply tokenized_delim; [exact Hc|]. apply (IH []). reflexivity.
      * apply (TokSpec.tokenized_cons [] (x :: cur) c s);
          [reflexivity|discriminate|exact Hcur|exact Hc|].
        apply (IH []). reflexivity.
    + replace (cur ++ c :: s) with ((cur ++ [c]) ++ s)
        by (rewrite <- app_assoc; reflexivity).
      apply IH, noDelim_snoc; assumption.
Qed.

Lemma runs_gap (gap s : jsstring) :
  allDelim gap -> TokSpec.runs [] (gap ++ s) = TokSpec.runs [] s.
Proof.
  unfold allDelim. induction gap as [|c gap IH]; simpl; [reflexivity|].
  intros H. apply andb_prop in H as [Hc Hg]. rewrite Hc. apply IH, Hg.
Qed.

Lemma runs_word (word s : jsstring) :
  noDelim word -> forall cur, TokSpec.runs cur (word ++ s) = TokSpec.runs (cur ++ word) s.
Proof.
  unfold noDelim. induction word as [|c word IH]; simpl; intros H cur.
  - rewrite app_nil_r. reflexivity.
  - apply andb_prop in H as [Hc Hw]. apply negb_true_iff in Hc. rewrite Hc.
    rewrite IH by exact Hw. rewrite <- app_assoc. reflexivity.
Qed.

(** The relation holds of the runs and of nothing else. *)
Lemma tokenized_runs (s : jsstring) (ws : list jsstring) :
  TokSpec.tokenized s ws <-> ws = TokSpec.runs [] s.
Proof.
  split.
  - induction 1 as [gap Hg|gap word Hg Hne Hw|gap word sep rest words Hg Hne Hw Hs Hr IH].
    + rewrite <- (app_nil_r gap), runs_gap by exact Hg. reflexivity.
    + rewrite runs_gap by exact Hg.
      rewrite <- (app_nil_r word) at 2. rewrite runs_word by exact Hw.
      simpl. destruct word; [contradiction|reflexivity].
    + rewrite runs_gap by exact Hg. rewrite runs_word by exact Hw.
      simpl. rewrite Hs, <- IH. destruct word; [contradiction|reflexivity].
  - intros ->. apply (runs_tokenized s []). reflexivity.
Qed.

Lemma parseText_blank (text : jsstring) :
  TokSpec.blank text -> parseText text = [].
Proof. intros H. rewrite parseText_runs. apply runs_blank, H. Qed.

(** C4: for every input string, [parseText] (trim, split on [/[\s-]+/],
    drop the empty strings) yields the maximal runs of units that are neither
    whitespace nor hyphens, the one sequence that cuts the text at its runs
    of whitespace and hyphens; so the tokens are not empty and hold no whitespace
    and no hyphen, together they hold every other unit of the input in order
    (no other punctuation is removed), a blank string gives the empty
    sequence, and "a-b  c" gives "a", "b", "c". *)
Theorem parseText_tokenizes (text : jsstring) :
  parseText text = TokSpec.tokenize text
  /\ (forall ws, TokSpec.tokenized text ws <-> ws = parseText text)
  /\ Forall (fun w => w <> [] /\ noDelim w) (parseText text)
  /\ concat (parseText text) = filter (fun c => negb (Tok.isDelim c)) text
  /\ parseText (filter isSpace text) = []
  /\ parseText (lit "a-b  c") = [lit "a"; lit "b"; lit "c"]
  /\ parseText (lit "  ") = [].
Proof.
  rewrite !parseText_runs. unfold TokSpec.tokenize.
  split; [reflexivity|]. split; [intros ws; apply tokenized_runs|].
  split; [apply runs_words; reflexivity|].
  split; [apply (runs_concat text []); reflexivity|].
  split; [|split; reflexivity].
  apply runs_blank. unfold TokSpec.blank.
  apply forallb_forall. intros c Hc. apply filter_In in Hc. tauto.
Qed.

(** ** The pacing model *)

Lemma trailing_rev (w : jsstring) : PaceSpec.trailing w = hd_error (rev w).
Proof.
  induction w as [|c w IH]; [reflexivity|].
  cbn [rev PaceSpec.trailing]. destruct w as [|x w]; [reflexivity|].
  rewrite IH. cbn [rev]. destruct (rev w); reflexivity.
Qed.

Lemma endsWith_trailing (p : char16 -> bool) (w : jsstring) :
  endsWith p w = match PaceSpec.trailing w with Some c => p c | None => false end.
Proof.
  rewrite trailing_rev. unfold endsWith. destruct (rev w); reflexivity.
Qed.

(** The three tests of [getPauseMultiplier] pick the multiplier of the
    table. *)
Lemma getPauseMultiplier_table (w : jsstring) :
  getPauseMultiplier w = PaceSpec.multiplier w.
Proof.
  unfold getPauseMultiplier, PaceSpec.multiplier.
  rewrite !endsWith_trailing.
  destruct (PaceSpec.trailing w) as [c|]; [|reflexivity].
  unfold isSentenceEnd, isClauseSep, isComma. cbn [existsb lit map list_ascii_of_string].
  change (Z.of_N (N_of_ascii "."%char)) with 46.
  change (Z.of_N (N_of_ascii "!"%char)) with 33.
  change (Z.of_N (N_of_ascii "?"%char)) with 63.
  change (Z.of_N (N_of_ascii ";"%char)) with 59.
  change (Z.of_N (N_of_ascii ":"%char)) with 58.
  change (Z.of_N (N_of_ascii ","%char)) with 44.
  destruct (c =? 46), (c =? 33), (c =? 63), (c =? 59), (c =? 58), (c =? 44);
    reflexivity.
Qed.

Lemma getWordDelay_delay (rate : Z) (w : jsstring) :
  getWordDelay rate w = PaceSpec.delay w rate.
Proof.
  unfold getWordDelay, PaceSpec.delay, PaceSpec.base.
  rewrite getPauseMultiplier_table. reflexivity.
Qed.

Lemma multiplier_in_table (w : jsstring) :
  In (PaceSpec.multiplier w) PaceSpec.multipliers.
Proof.
  unfold PaceSpec.multiplier, PaceSpec.multipliers.
  destruct (PaceSpec.trailing w) as [c|]; [|simpl; tauto].
  destruct (existsb _ _); [simpl; tauto|].
  destruct (existsb _ _); [simpl; tauto|].
  destruct (existsb _ _); simpl; tauto.
Qed.

Lemma rate_in_rates (rate : Z) : 100 <= rate <= 1000 -> In rate PaceSpec.rates.
Proof.
  intros H. unfold PaceSpec.rates.
  rewrite <- (Z2Nat.id rate) by lia. apply in_map, in_seq. lia.
Qed.

(** Every delay of the table of rates and multipliers is a finite number
    above zero: by evaluation of the 901 x 4 products. *)
Lemma delays_positive_table :
  forallb (fun rate =>
    forallb (fun m => Num.positive (Num.mul (PaceSpec.base rate) m))
            PaceSpec.multipliers) PaceSpec.rates = true.
Proof. vm_compute. reflexivity. Qed.

Lemma delay_positive (rate : Z) (w : jsstring) :
  100 <= rate <= 1000 -> Num.positive (getWordDelay rate w) = true.
Proof.
  intros Hr. rewrite getWordDelay_delay. unfold PaceSpec.delay.
  pose proof delays_positive_table as H.
  rewrite forallb_forall in H. specialize (H rate (rate_in_rates rate Hr)).
  rewrite forallb_forall in H. apply H, multiplier_in_table.
Qed.

(** C2, as the code computes it: for every unit and every rate of
    [100, 1000], [getWordDelay] is the double product of the base delay
    (60 / rate) * 1000 and the multiplier of the trailing character (one of
    . ! ? gives 1.5, else ; or : gives 1.2, else , gives 1.1, else 1.0), each
    operation rounded to the nearest double, and it is a finite number above
    zero; at rate 300 the delay of "end." is 300 and that of "word" is 200,
    and the delay of "word," is the double next above 220
    (220.00000000000003). *)
Theorem getWordDelay_formula (unit : jsstring) (rate : Z) :
  100 <= rate <= 1000 ->
  getWordDelay rate unit = Num.mul (PaceSpec.base rate) (PaceSpec.multiplier unit)
  /\ Num.positive (getWordDelay rate unit) = true
  /\ getWordDelay 300 (lit "end.") = Num.ofZ 300
  /\ getWordDelay 300 (lit "word") = Num.ofZ 200
  /\ getWordDelay 300 (lit "word,") = SFsucc Num.prec Num.emax (Num.ofZ 220)
  /\ getWordDelay 300 (lit "word,") = Num.decimal 22000000000000003 100000000000000.
Proof.
  intros Hr. split; [apply getWordDelay_delay|].
  split; [apply delay_positive, Hr|].
  repeat split; vm_compute; reflexivity.
Qed.

Lemma getWordDelay_formula_witness :
  100 <= 300 <= 1000
  /\ (getWordDelay 300 (lit "end.")
       = Num.mul (PaceSpec.base 300) (PaceSpec.multiplier (lit "end."))
      /\ Num.positive (getWordDelay 300 (lit "end.")) = true
      /\ getWordDelay 300 (lit "end.") = Num.ofZ 300
      /\ getWordDelay 300 (lit "word") = Num.ofZ 200
      /\ getWordDelay 300 (lit "word,") = SFsucc Num.prec Num.emax (Num.ofZ 220)
      /\ getWordDelay 300 (lit "word,")
         = Num.decimal 22000000000000003 100000000000000).
Proof.
  split; [lia|].
  apply (getWordDelay_formula (lit "end.") 300). lia.
Defined.

(** C2, as the specification states it, fails on the delay of "word," at
    rate 300: the code's product 200 * 1.1 is not 220 but the next double
    above it, so it is not (60 / 300) * 1000 * 1.1 either. *)
Lemma getWordDelay_word_comma_not_220 :
  getWordDelay 300 (lit "word,") <> Num.ofZ 220
  /\ Num.ltb (Num.ofZ 220) (getWordDelay 300 (lit "word,")) = true
  /\ (Exact.delay (lit "word,") 300 == 220)%Q
  /\ ~ (Exact.value (getWordDelay 300 (lit "word,")) == Exact.delay (lit "word,") 300)%Q.
Proof.
  split; [vm_compute; discriminate|]. split; [vm_compute; reflexivity|].
  split; [reflexivity|]. vm_compute. discriminate.
Qed.

(** ** Remaining time *)

Lemma fold_delays (rate : Z) (l : list jsstring) :
  forall acc,
    fold_left (fun a w => Num.add a (getWordDelay rate w)) l acc
    = fold_left Num.add (map (fun u => PaceSpec.delay u rate) l) acc.
Proof.
  induction l as [|w l IH]; intros acc; simpl; [reflexivity|].
  rewrite IH, getWordDelay_delay. reflexivity.
Qed.

Lemma totalMs_sum (rate : Z) (l : list jsstring) :
  totalMs rate l = PaceSpec.sum (map (fun u => PaceSpec.delay u rate) l).
Proof. apply fold_delays. Qed.

(** Nothing to sum gives zero seconds. *)
Lemma remainingTime_nothing_left (words : list jsstring) (i : nat) (rate : Z) :
  (length words <= S i)%nat -> PaceSpec.remainingTime words i rate = Num.ofZ 0.
Proof.
  intros H. unfold PaceSpec.remainingTime, PaceSpec.after.
  rewrite skipn_all2 by exact H. reflexivity.
Qed.

(** C5, as the code computes it: for every sequence, every index that is
    not negative and every rate, [calculateRemainingTime] is the ceiling of
    the sum of the delays of the units strictly after the index, divided by
    1000, with the sum accumulated from the left and the quotient taken in
    double arithmetic, each operation rounded to the nearest double; and it
    is 0 when the sequence is empty or the index is at or after the last
    unit. *)
Theorem calculateRemainingTime_formula
  (words : list jsstring) (index rate : Z) :
  0 <= index ->
  calculateRemainingTime words index rate
    = PaceSpec.remainingTime words (Z.to_nat index) rate
  /\ (words = [] \/ len words - 1 <= index ->
      calculateRemainingTime words index rate = Num.ofZ 0).
Proof.
  intros Hi. unfold calculateRemainingTime.
  destruct ((len words =? 0) || (index >=? len words - 1)) eqn:G.
  - split; [|reflexivity].
    symmetry. apply remainingTime_nothing_left.
    apply orb_prop in G as [G|G]; unfold len in *; lia.
  - apply orb_false_elim in G as [G1 G2]. split.
    + rewrite sliceFrom_suffix by lia. rewrite totalMs_sum.
      replace (Z.to_nat (index + 1)) with (S (Z.to_nat index)) by lia.
      reflexivity.
    + intros [->|H]; [discriminate G1|lia].
Qed.

Lemma calculateRemainingTime_formula_witness :
  0 <= 1
  /\ (calculateRemainingTime [lit "a"; lit "b,"; lit "c."; lit "d"] 1 300
       = PaceSpec.remainingTime [lit "a"; lit "b,"; lit "c."; lit "d"] (Z.to_nat 1) 300
      /\ ([lit "a"; lit "b,"; lit "c."; lit "d"] = []
          \/ len [lit "a"; lit "b,"; lit "c."; lit "d"] - 1 <= 1 ->
          calculateRemainingTime [lit "a"; lit "b,"; lit "c."; lit "d"] 1 300
          = Num.ofZ 0)).
Proof.
  split; [lia|].
  apply (calculateRemainingTime_formula [lit "a"; lit "b,"; lit "c."; lit "d"] 1 300).
  lia.
Defined.

(** C5, as the specification states it, fails, for the sum and the quotient
    are rounded: at rate 350 the 35 units after the first of 36 plain units
    take 35 * 60000 / 350 = 6000 ms, 6 seconds, and no more when the delays
    [getWordDelay] returns are summed exactly; [calculateRemainingTime]
    returns 7. *)
Lemma remaining_time_rounds_up :
  calculateRemainingTime (repeat (lit "a") 36) 0 350 = Num.ofZ 7
  /\ Exact.remainingTime (repeat (lit "a") 36) 0 350 = 6
  /\ Exact.remainingTimeOfDelays (repeat (lit "a") 36) 0 350 = 6
  /\ calculateRemainingTime (repeat (lit "a") 36) 0 350
     <> Num.ofZ (Exact.remainingTime (repeat (lit "a") 36) 0 350).
Proof.
  repeat split; try (vm_compute; reflexivity). vm_compute. discriminate.
Qed.

(** The rounding of the delays shows in whole seconds too: fifty units
    ending in a comma take 50 * 220 ms = 11 s on paper, and 12 s by
    [calculateRemainingTime]. *)
Example fifty_commas :
  calculateRemainingTime (repeat (lit "a,") 51) 0 300 = Num.ofZ 12
  /\ Exact.remainingTime (repeat (lit "a,") 51) 0 300 = 11.
Proof. split; vm_compute; reflexivity. Qed.

(** *** Advancing the position *)

Lemma add_zero_positive (d : Num.num) :
  Num.positive d = true -> Num.add (Num.ofZ 0) d = d.
Proof. destruct d as [| | |[|] m e]; simpl; try discriminate. reflexivity. Qed.

Lemma sliceFrom_next (words : list jsstring) (i : Z) (next : jsstring) :
  0 <= i -> index words i = Some next ->
  sliceFrom words i = next :: sliceFrom words (i + 1).
Proof.
  intros Hi Hn. rewrite index_nth in Hn by lia.
  rewrite !sliceFrom_suffix by lia.
  replace (Z.to_nat (i + 1)) with (S (Z.to_nat i)) by lia.
  revert Hn. generalize (Z.to_nat i). clear.
  induction words as [|w words IH]; intros [|n] Hn; simpl in *; try discriminate.
  - injection Hn as ->. reflexivity.
  - apply IH, Hn.
Qed.

Lemma calculateRemainingTime_total (words : list jsstring) (i rate : Z) :
  0 <= i ->
  calculateRemainingTime words i rate
  = Num.ceil (Num.div (totalMs rate (sliceFrom words (i + 1))) (Num.ofZ 1000)).
Proof.
  intros Hi. unfold calculateRemainingTime.
  destruct ((len words =? 0) || (i >=? len words - 1)) eqn:G; [|reflexivity].
  rewrite sliceFrom_suffix by lia. rewrite skipn_all2; [reflexivity|].
  apply orb_prop in G as [G|G]; unfold len in *; lia.
Qed.

(** ** The playback controller *)

Lemma reachable_run (es : list event) :
  Forall deliverable es -> forall s, reachable s -> reachable (run es s).
Proof.
  unfold run. induction 1 as [|e es He _ IH]; intros s Hs; simpl; [exact Hs|].
  apply IH, reach_step; assumption.
Qed.

(** An invariant of every event is an invariant of the component. *)
Lemma reachable_invariant (P : state -> Prop) :
  P initial ->
  (forall e s, deliverable e -> P s -> P (step e s)) ->
  forall s, reachable s -> P s.
Proof. intros H0 Hstep s Hs. induction Hs; auto. Qed.

Ltac unfold_handlers :=
  unfold step, keySpace, trySample, handleStart, handleStop, handleReset,
    backToInput, togglePlay, skipCountdown, adjustSpeed, wordTimerFired,
    countdownTick, countdownZero, setWords, setCurrentIndex, setIsPlaying,
    setSpeed, setCountdown, setInputText in *.

Ltac split_tests :=
  repeat match goal with
         | |- context [if ?b then _ else _] => destruct b eqn:?
         | |- context [match countdown ?s with _ => _ end] =>
             destruct (countdown s) eqn:?
         end.

Lemma step_positionInRange (e : event) (s : state) :
  positionInRange s -> positionInRange (step e s).
Proof.
  unfold positionInRange. intros Inv.
  assert (Hzero : forall ws : list jsstring, ws <> [] -> 0 <= 0 < len ws).
  { intros [|w ws] H; [contradiction|]. unfold len. simpl. lia. }
  destruct e; unfold_handlers; split_tests; cbn [words currentIndex];
    auto; try congruence.
  (* the timer moves on only below the last index *)
  intros Hne. specialize (Inv Hne). unfold wordTimerArmed in *. lia.
Qed.

Lemma reachable_positionInRange (s : state) : reachable s -> positionInRange s.
Proof.
  apply reachable_invariant.
  - intros H. contradiction H. reflexivity.
  - intros e s' _. apply step_positionInRange.
Qed.

Lemma sliderValue_range (v : Z) : sliderValue v = true -> 100 <= v <= 1000.
Proof.
  unfold sliderValue. intros H.
  apply andb_prop in H as [H _]. apply andb_prop in H as [H1 H2]. lia.
Qed.

Lemma step_rateInRange (e : event) (s : state) :
  deliverable e -> rateInRange s -> rateInRange (step e s).
Proof.
  unfold rateInRange. intros He Inv.
  destruct e; unfold_handlers; split_tests; cbn [speed]; try exact Inv.
  - lia.
  - apply sliderValue_range, He.
Qed.

Lemma reachable_rateInRange (s : state) : reachable s -> rateInRange s.
Proof.
  apply reachable_invariant.
  - unfold rateInRange. simpl. lia.
  - intros e s'. apply step_rateInRange.
Qed.

(** A session from start to reset: it ends with no sequence, not playing
    and without a countdown. *)
Example session_ends_idle :
  run [TypeText (lit "a b"); ClickStart; CountdownTimer; CountdownTimer;
       CountdownTimer; CountdownZero; ClickDisplay; ClickDisplay; ClickReset]
      initial
  = mkState (lit "a b") [] 0 false 300 None.
Proof. reflexivity. Qed.

Lemma reachable_atLastWord : reachable atLastWord.
Proof.
  apply reachable_run; [|apply reach_initial].
  repeat constructor.
Qed.

Lemma reachable_pausedAtLastWord : reachable pausedAtLastWord.
Proof. apply reach_step; [apply reachable_atLastWord|exact I]. Qed.

(** C8: in every state of the component with a sequence that is not empty,
    0 <= currentIndex < words.length, and every command and timer event keeps
    it so; when the per-word timer fires while playing at the last index, the
    component stops playing and leaves the index (and the sequence) as it
    is. *)
Theorem position_stays_in_range (s : state) :
  reachable s ->
  positionInRange s
  /\ (forall e, deliverable e -> positionInRange (step e s))
  /\ (words s <> [] -> isPlaying s = true ->
      currentIndex s = len (words s) - 1 ->
      isPlaying (step WordTimer s) = false
      /\ currentIndex (step WordTimer s) = currentIndex s
      /\ words (step WordTimer s) = words s).
Proof.
  intros Hs. pose proof (reachable_positionInRange s Hs) as Inv.
  split; [exact Inv|]. split.
  - intros e _. apply step_positionInRange, Inv.
  - intros Hne Hplay Hlast. specialize (Inv Hne).
    unfold step, wordTimerFired, wordTimerArmed. rewrite Hplay.
    replace (len (words s) >? 0) with true by (symmetry; lia).
    replace (currentIndex s <? len (words s)) with true by (symmetry; lia).
    replace (currentIndex s >=? len (words s) - 1) with true by (symmetry; lia).
    repeat split.
Qed.

Lemma position_stays_in_range_witness :
  reachable atLastWord
  /\ positionInRange atLastWord
  /\ (forall e, deliverable e -> positionInRange (step e atLastWord))
  /\ (words atLastWord <> [] -> isPlaying atLastWord = true ->
      currentIndex atLastWord = len (words atLastWord) - 1 ->
      isPlaying (step WordTimer atLastWord) = false
      /\ currentIndex (step WordTimer atLastWord) = currentIndex atLastWord
      /\ words (step WordTimer atLastWord) = words atLastWord).
Proof.
  split; [exact reachable_atLastWord|].
  exact (position_stays_in_range atLastWord reachable_atLastWord).
Defined.

Lemma clamp_max_min (x : Z) : Z.max 100 (Z.min 1000 x) = clamp x 100 1000.
Proof.
  unfold clamp. destruct (Z.ltb_spec x 100), (Z.ltb_spec 1000 x); lia.
Qed.

(** C9, as the code has it: in every state of the component the rate is in
    [100, 1000] and every event keeps it there; [adjustSpeed(delta)] sets it
    to clamp(rate + delta, 100, 1000); a speed slider sets it to the value the
    slider reports (one of its stops between 100 and 1000); no other event
    changes it. *)
Theorem rate_stays_in_range (s : state) :
  reachable s ->
  rateInRange s
  /\ (forall e, deliverable e -> rateInRange (step e s))
  /\ (forall delta,
        speed (step (AdjustSpeed delta) s) = clamp (speed s + delta) 100 1000)
  /\ (forall v, speed (step (Slider v) s) = v)
  /\ (forall e, (forall delta, e <> AdjustSpeed delta) ->
                (forall v, e <> Slider v) ->
                speed (step e s) = speed s).
Proof.
  intros Hs. pose proof (reachable_rateInRange s Hs) as Inv.
  split; [exact Inv|]. split; [|split; [|split]].
  - intros e He. apply step_rateInRange; assumption.
  - intros delta. simpl. apply clamp_max_min.
  - reflexivity.
  - intros e Hadj Hsl.
    destruct e; unfold_handlers; split_tests; cbn [speed]; try reflexivity.
    + contradiction (Hadj delta). reflexivity.
    + contradiction (Hsl value). reflexivity.
Qed.

Lemma rate_stays_in_range_witness :
  reachable pausedAtLastWord
  /\ (rateInRange pausedAtLastWord
      /\ (forall e, deliverable e -> rateInRange (step e pausedAtLastWord))
      /\ (forall delta,
            speed (step (AdjustSpeed delta) pausedAtLastWord)
            = clamp (speed pausedAtLastWord + delta) 100 1000)
      /\ (forall v, speed (step (Slider v) pausedAtLastWord) = v)
      /\ (forall e, (forall delta, e <> AdjustSpeed delta) ->
                    (forall v, e <> Slider v) ->
                    speed (step e pausedAtLastWord) = speed pausedAtLastWord)).
Proof.
  split; [exact reachable_pausedAtLastWord|].
  exact (rate_stays_in_range pausedAtLastWord reachable_pausedAtLastWord).
Defined.

(** C9, as the specification states it, fails on "no other command changes
    the rate": a speed slider sets the rate without going through
    [adjustSpeed]. *)
Lemma slider_changes_rate :
  ~ (forall e s, deliverable e -> reachable s ->
       (forall delta, e <> AdjustSpeed delta) -> speed (step e s) = speed s).
Proof.
  intros H.
  specialize (H (Slider 500) initial eq_refl reach_initial).
  simpl in H. assert (E : 500 = 300) by (apply H; intros delta; discriminate).
  discriminate E.
Qed.

(** Resuming by the toggle: from a paused state the play/pause toggle (a
    click on the display, or the space key) starts playing and leaves the
    sequence, the position and the countdown as they are. *)
Lemma toggle_resumes (s : state) (e : event) :
  paused s -> e = ClickDisplay \/ e = KeySpace ->
  playing (step e s)
  /\ words (step e s) = words s
  /\ currentIndex (step e s) = currentIndex s.
Proof.
  intros (Hne & Hplay & Hcd) [-> | ->]; unfold playing, step, keySpace, togglePlay;
    rewrite ?Hcd;
    (destruct (len (words s) =? 0) eqn:E;
     [apply Z.eqb_eq in E; destruct (words s); [contradiction|];
      unfold len in E; simpl in E; lia|]);
    simpl; rewrite Hplay, Hcd; repeat split.
Qed.

(** The handler of the "Play" and "Resume" buttons starts a session over
    whenever the text box holds text. *)
Lemma handleStart_restarts (s : state) :
  truthy (Tok.trim (inputText s)) = true ->
  words (step ClickStart s) = parseText (inputText s)
  /\ currentIndex (step ClickStart s) = 0
  /\ isPlaying (step ClickStart s) = false
  /\ countdown (step ClickStart s) = Some 3.
Proof.
  intros H. unfold step, handleStart. rewrite H. repeat split.
Qed.

(** C6, on the paused session [pausedAtLastWord] (sequence "a", "b",
    position 1): the toggle resumes there, but the "Play" button runs
    [handleStart], which does not start playing: it puts the position back to
    0 and sets the countdown to 3. *)
Theorem play_button_restarts_session :
  paused pausedAtLastWord
  /\ currentIndex pausedAtLastWord = 1
  /\ (playing (step ClickDisplay pausedAtLastWord)
      /\ currentIndex (step ClickDisplay pausedAtLastWord) = 1
      /\ words (step ClickDisplay pausedAtLastWord) = words pausedAtLastWord)
  /\ (isPlaying (step ClickStart pausedAtLastWord) = false
      /\ currentIndex (step ClickStart pausedAtLastWord) = 0
      /\ countdown (step ClickStart pausedAtLastWord) = Some 3
      /\ words (step ClickStart pausedAtLastWord) = words pausedAtLastWord).
Proof.
  assert (Hp : paused pausedAtLastWord).
  { repeat split. vm_compute. discriminate. }
  split; [exact Hp|]. split; [reflexivity|]. split.
  - destruct (toggle_resumes pausedAtLastWord ClickDisplay Hp (or_introl eq_refl))
      as (H1 & H2 & H3).
    repeat split; try apply H1; assumption.
  - vm_compute. repeat split.
Qed.

(** ** Rounding is monotone *)

Lemma fexp_eq (g : Z) : fexp g = Z.max (g - 53) (-1074).
Proof. reflexivity. Qed.

Lemma loc_of_record (m : Z) (l : location) :
  loc_of_shr_record (shr_record_of_loc m l) = l.
Proof. destruct l as [|[| |]]; reflexivity. Qed.

Lemma shr_m_record (m : Z) (l : location) : shr_m (shr_record_of_loc m l) = m.
Proof. destruct l as [|[| |]]; reflexivity. Qed.

Lemma shr_1_recOf (N D : Z) :
  0 <= N -> 0 < D -> shr_1 (recOf N D) = recOf N (2 * D).
Proof.
  intros HN HD. unfold recOf, locOf.
  assert (Hq : N / (2 * D) = N / D / 2)
    by (rewrite (Z.mul_comm 2 D), Z.div_div by lia; reflexivity).
  assert (Hr : N mod (2 * D) = N mod D + D * ((N / D) mod 2))
    by (rewrite (Z.mul_comm 2 D); apply Z.rem_mul_r; lia).
  pose proof (Z.mod_pos_bound N D HD) as Hb.
  pose proof (Z.div_pos N D HN HD) as Hq0.
  rewrite Hq, Hr.
  pose proof (Z.div_mod (N / D) 2 ltac:(lia)) as Hdm.
  pose proof (Z.mod_pos_bound (N / D) 2 ltac:(lia)) as Hb2.
  destruct (N / D) as [|[p|p|]|] eqn:Equo; try lia.
  - (* quotient 0 *)
    change (0 mod 2) with 0. change (0 / 2) with 0. rewrite Z.mul_0_r, Z.add_0_r.
    destruct (N mod D =? 0) eqn:E0.
    + reflexivity.
    + apply Z.eqb_neq in E0.
      replace (2 * (N mod D) ?= 2 * D) with Lt by (symmetry; apply Z.compare_lt_iff; lia).
      destruct (2 * (N mod D) ?= D); reflexivity.
  - (* odd quotient 2p+1 *)
    assert (H2 : Z.pos p~1 mod 2 = 1) by (rewrite Pos2Z.inj_xI in *; lia).
    assert (H3 : Z.pos p~1 / 2 = Z.pos p) by (rewrite Pos2Z.inj_xI in *; lia).
    rewrite H2, H3, Z.mul_1_r.
    replace (N mod D + D =? 0) with false by (symmetry; apply Z.eqb_neq; lia).
    destruct (N mod D =? 0) eqn:E0.
    + apply Z.eqb_eq in E0. rewrite E0.
      replace (2 * (0 + D) ?= 2 * D) with Eq by (symmetry; apply Z.compare_eq_iff; lia).
      reflexivity.
    + apply Z.eqb_neq in E0.
      replace (2 * (N mod D + D) ?= 2 * D) with Gt by (symmetry; apply Z.compare_gt_iff; lia).
      destruct (2 * (N mod D) ?= D); reflexivity.
  - (* even quotient 2p *)
    assert (H2 : Z.pos p~0 mod 2 = 0) by (rewrite Pos2Z.inj_xO in *; lia).
    assert (H3 : Z.pos p~0 / 2 = Z.pos p) by (rewrite Pos2Z.inj_xO in *; lia).
    rewrite H2, H3, Z.mul_0_r, Z.add_0_r.
    destruct (N mod D =? 0) eqn:E0.
    + reflexivity.
    + apply Z.eqb_neq in E0.
      replace (2 * (N mod D) ?= 2 * D) with Lt by (symmetry; apply Z.compare_lt_iff; lia).
      destruct (2 * (N mod D) ?= D); reflexivity.
  - (* quotient 1 *)
    change (1 mod 2) with 1. change (1 / 2) with 0. rewrite Z.mul_1_r.
    replace (N mod D + D =? 0) with false by (symmetry; apply Z.eqb_neq; lia).
    destruct (N mod D =? 0) eqn:E0.
    + apply Z.eqb_eq in E0. rewrite E0.
      replace (2 * (0 + D) ?= 2 * D) with Eq by (symmetry; apply Z.compare_eq_iff; lia).
      reflexivity.
    + apply Z.eqb_neq in E0.
      replace (2 * (N mod D + D) ?= 2 * D) with Gt by (symmetry; apply Z.compare_gt_iff; lia).
      destruct (2 * (N mod D) ?= D); reflexivity.
Qed.

Lemma pow2_xO (p : positive) : 2 ^ Zpos p~0 = 2 ^ Zpos p * 2 ^ Zpos p.
Proof.
  rewrite (Pos2Z.inj_xO p). replace (2 * Z.pos p) with (Z.pos p + Z.pos p) by lia.
  apply Z.pow_add_r; lia.
Qed.

Lemma pow2_xI (p : positive) : 2 ^ Zpos p~1 = 2 * (2 ^ Zpos p * 2 ^ Zpos p).
Proof.
  rewrite (Pos2Z.inj_xI p). replace (2 * Z.pos p + 1) with (1 + (Z.pos p + Z.pos p)) by lia.
  rewrite !Z.pow_add_r by lia. rewrite Z.pow_1_r. reflexivity.
Qed.

Lemma iter_shr_1 (N : Z) (p : positive) :
  0 <= N -> forall D, 0 < D ->
  iter_pos shr_1 p (recOf N D) = recOf N (D * 2 ^ Zpos p).
Proof.
  intros HN. induction p as [p IH|p IH|]; intros D HD; cbn [iter_pos].
  - pose proof (Z.pow_pos_nonneg 2 (Z.pos p) ltac:(lia) ltac:(lia)) as Hp.
    rewrite shr_1_recOf by lia.
    rewrite IH by lia. rewrite IH by (apply Z.mul_pos_pos; lia).
    f_equal. rewrite pow2_xI. ring.
  - pose proof (Z.pow_pos_nonneg 2 (Z.pos p) ltac:(lia) ltac:(lia)) as Hp.
    rewrite IH by lia. rewrite IH by (apply Z.mul_pos_pos; lia).
    f_equal. rewrite pow2_xO. ring.
  - rewrite shr_1_recOf by lia. f_equal. rewrite Z.pow_1_r. ring.
Qed.

(** Shifting the record of [N/D] right by [n] gives the record of
    [N/(D 2^n)]. *)
Lemma shr_recOf (N D e n : Z) :
  0 <= N -> 0 < D -> 0 <= n ->
  shr (recOf N D) e n = (recOf N (D * 2 ^ n), e + n).
Proof.
  intros HN HD Hn. unfold shr. destruct n as [|p|p]; try lia.
  - rewrite Z.pow_0_r, Z.mul_1_r, Z.add_0_r. reflexivity.
  - rewrite iter_shr_1 by lia. reflexivity.
Qed.

Lemma rne_recOf (N D : Z) :
  0 < D ->
  round_nearest_even (shr_m (recOf N D)) (loc_of_shr_record (recOf N D)) = rne N D.
Proof.
  intros HD. unfold recOf. rewrite shr_m_record, loc_of_record.
  unfold locOf, rne.
  destruct (N mod D =? 0) eqn:E0.
  - apply Z.eqb_eq in E0. rewrite E0.
    replace (2 * 0 ?= D) with Lt by (symmetry; apply Z.compare_lt_iff; lia).
    reflexivity.
  - destruct (2 * (N mod D) ?= D); reflexivity.
Qed.

Lemma rne_bounds (N D : Z) : 0 < D -> N / D <= rne N D <= N / D + 1.
Proof.
  intros HD. unfold rne.
  destruct (2 * (N mod D) ?= D); [destruct (Z.even (N / D))| |]; lia.
Qed.

Lemma rne_mono (N N' D : Z) : 0 < D -> N <= N' -> rne N D <= rne N' D.
Proof.
  intros HD HN.
  pose proof (Z.div_le_mono N N' D HD HN) as Hq.
  pose proof (rne_bounds N D HD) as B. pose proof (rne_bounds N' D HD) as B'.
  destruct (Z.eq_dec (N / D) (N' / D)) as [E|E]; [|lia].
  pose proof (Z.div_mod N D ltac:(lia)) as H1.
  pose proof (Z.div_mod N' D ltac:(lia)) as H2.
  assert (Hr : N mod D <= N' mod D) by (rewrite E in H1; lia).
  unfold rne. rewrite <- E.
  destruct (Z.compare_spec (2 * (N mod D)) D), (Z.compare_spec (2 * (N' mod D)) D);
    try destruct (Z.even (N / D)); lia.
Qed.

Lemma compare_scale (k a b : Z) : 0 < k -> (k * a ?= k * b) = (a ?= b).
Proof.
  intros Hk. destruct (Z.compare_spec a b) as [->|H|H].
  - apply Z.compare_refl.
  - apply Z.compare_lt_iff. nia.
  - apply Z.compare_gt_iff. nia.
Qed.

Lemma rne_scale (N D k : Z) : 0 < D -> 0 < k -> rne (k * N) (k * D) = rne N D.
Proof.
  intros HD Hk. unfold rne.
  rewrite Z.div_mul_cancel_l by lia.
  rewrite Z.mul_mod_distr_l by lia.
  replace (2 * (k * (N mod D))) with (k * (2 * (N mod D))) by ring.
  rewrite compare_scale by lia. reflexivity.
Qed.

(** *** Digits *)

Lemma digits2_bounds (p : positive) :
  2 ^ (Zpos (digits2_pos p) - 1) <= Zpos p < 2 ^ Zpos (digits2_pos p).
Proof.
  induction p as [p IH|p IH|]; cbn [digits2_pos].
  - rewrite Pos2Z.inj_succ, (Pos2Z.inj_xI p).
    replace (Z.succ (Z.pos (digits2_pos p)) - 1) with (Z.succ (Z.pos (digits2_pos p) - 1)) by lia.
    rewrite !Z.pow_succ_r by lia. lia.
  - rewrite Pos2Z.inj_succ, (Pos2Z.inj_xO p).
    replace (Z.succ (Z.pos (digits2_pos p)) - 1) with (Z.succ (Z.pos (digits2_pos p) - 1)) by lia.
    rewrite !Z.pow_succ_r by lia. lia.
  - simpl. lia.
Qed.

Lemma Zdigits2_bounds (q : Z) :
  0 < q -> 2 ^ (Zdigits2 q - 1) <= q < 2 ^ Zdigits2 q.
Proof. destruct q; try lia. intros _. apply digits2_bounds. Qed.

Lemma Zdigits2_nonneg (q : Z) : 0 <= Zdigits2 q.
Proof. destruct q; simpl; lia. Qed.

Lemma Zdigits2_pos (q : Z) : 0 < q -> 0 < Zdigits2 q.
Proof. destruct q; simpl; lia. Qed.

Lemma Zdigits2_unique (q d : Z) :
  2 ^ (d - 1) <= q < 2 ^ d -> 0 < d -> Zdigits2 q = d.
Proof.
  intros [H1 H2] Hd.
  assert (Hq : 0 < q) by (pose proof (Z.pow_pos_nonneg 2 (d - 1)); lia).
  pose proof (Zdigits2_bounds q Hq) as [B1 B2].
  pose proof (Zdigits2_pos q Hq) as Hp.
  assert (d - 1 < Zdigits2 q) by (apply (Z.pow_lt_mono_r_iff 2); lia).
  assert (Zdigits2 q - 1 < d) by (apply (Z.pow_lt_mono_r_iff 2); lia).
  lia.
Qed.

Lemma Zdigits2_mono (q q' : Z) : 0 <= q <= q' -> Zdigits2 q <= Zdigits2 q'.
Proof.
  intros [H0 H].
  destruct (Z.eq_dec q 0) as [->|Hq]; [apply Zdigits2_nonneg|].
  pose proof (Zdigits2_bounds q ltac:(lia)) as [B1 _].
  pose proof (Zdigits2_bounds q' ltac:(lia)) as [_ B2].
  pose proof (Zdigits2_pos q' ltac:(lia)).
  assert (Zdigits2 q - 1 < Zdigits2 q') by (apply (Z.pow_lt_mono_r_iff 2); lia).
  lia.
Qed.

Lemma Zdigits2_le (q d : Z) : 0 <= q -> 0 <= d -> q < 2 ^ d -> Zdigits2 q <= d.
Proof.
  intros H0 Hd H.
  destruct (Z.eq_dec q 0) as [->|Hq]; [simpl; lia|].
  pose proof (Zdigits2_bounds q ltac:(lia)) as [B1 _].
  assert (Zdigits2 q - 1 < d) by (apply (Z.pow_lt_mono_r_iff 2); lia).
  lia.
Qed.

(** *** The order of the numbers *)

Lemma leb_finite (m m' : positive) (e e' : Z) :
  SFleb (S754_finite false m e) (S754_finite false m' e') = true
  <-> e < e' \/ (e = e' /\ (m <= m')%positive).
Proof.
  unfold SFleb, SFcompare.
  destruct (Z.compare_spec e e') as [->|H|H].
  - fold (Pos.compare m m').
    destruct (Pos.compare_spec m m') as [->|H|H]; split; intros H'; try lia; try reflexivity;
      discriminate.
  - split; [lia|reflexivity].
  - split; [discriminate|lia].
Qed.

Lemma out_small (q E : Z) :
  0 <= q < 2 ^ 53 -> -1074 <= E ->
  out q E = match q with
            | Z0 => S754_zero false
            | Zpos m => if E <=? 971 then S754_finite false m E else S754_infinity false
            | Zneg _ => S754_nan
            end.
Proof.
  intros Hq HE. unfold out, shr_fexp.
  assert (Hd : Zdigits2 q <= 53) by (apply Zdigits2_le; lia).
  assert (Hn : SpecFloat.fexp Num.prec Num.emax (Zdigits2 q + E) - E <= 0).
  { change (SpecFloat.fexp Num.prec Num.emax) with fexp. rewrite fexp_eq. lia. }
  unfold shr.
  destruct (SpecFloat.fexp Num.prec Num.emax (Zdigits2 q + E) - E) as [|p|p]; try lia;
    cbn [shr_record_of_loc shr_m]; reflexivity.
Qed.

Lemma out_top (E : Z) :
  -1074 <= E ->
  out (2 ^ 53) E
  = if E + 1 <=? 971 then S754_finite false (Z.to_pos (2 ^ 52)) (E + 1)
    else S754_infinity false.
Proof.
  intros HE. unfold out, shr_fexp.
  change (Zdigits2 (2 ^ 53)) with 54.
  change (SpecFloat.fexp Num.prec Num.emax) with fexp. rewrite fexp_eq.
  replace (Z.max (54 + E - 53) (-1074) - E) with 1 by lia.
  reflexivity.
Qed.

Lemma bounded_iff (m : positive) (e : Z) :
  bounded Num.prec Num.emax m e = true
  <-> fexp (Zpos (digits2_pos m) + e) = e /\ e <= 971.
Proof.
  unfold bounded, canonical_mantissa. rewrite andb_true_iff, Z.eqb_eq, Z.leb_le.
  reflexivity.
Qed.

Lemma out_good (q E : Z) :
  0 <= q <= 2 ^ 53 -> -1074 <= E -> (-1074 < E -> 2 ^ 52 <= q) -> good (out q E).
Proof.
  intros Hq HE Hlow.
  destruct (Z.eq_dec q (2 ^ 53)) as [->|Hne].
  - rewrite out_top by lia. destruct (E + 1 <=? 971) eqn:L; [|reflexivity].
    split; [reflexivity|]. apply bounded_iff. split; [|lia].
    change (Z.pos (digits2_pos (Z.to_pos (2 ^ 52)))) with 53. rewrite fexp_eq. lia.
  - rewrite out_small by lia. destruct q as [|m|m]; try lia; [reflexivity|].
    destruct (E <=? 971) eqn:L; [|reflexivity].
    split; [reflexivity|]. apply bounded_iff. split; [|lia].
    assert (Hd : Zdigits2 (Z.pos m) <= 53) by (apply Zdigits2_le; lia).
    simpl in Hd. rewrite fexp_eq.
    destruct (Z.eq_dec E (-1074)) as [->|HE']; [lia|].
    assert (Hd' : 53 <= Zdigits2 (Z.pos m)).
    { pose proof (Zdigits2_bounds (Z.pos m) ltac:(lia)) as [_ B].
      specialize (Hlow ltac:(lia)).
      assert (52 < Zdigits2 (Z.pos m));
        [apply (Z.pow_lt_mono_r_iff 2); [lia|apply Zdigits2_nonneg|lia]|lia]. }
    simpl in Hd'. lia.
Qed.

Lemma leb_zero_good (x : spec_float) : good x -> SFleb (S754_zero false) x = true.
Proof. destruct x as [[|]|[|]| |[|] m e]; simpl; intros H; try reflexivity; try easy. Qed.

Lemma leb_good_inf (x : spec_float) : good x -> SFleb x (S754_infinity false) = true.
Proof. destruct x as [[|]|[|]| |[|] m e]; simpl; intros H; try reflexivity; try easy. Qed.

Lemma leb_refl_good (x : spec_float) : good x -> SFleb x x = true.
Proof.
  destruct x as [[|]|[|]| |[|] m e]; simpl; intros H; try reflexivity; try easy.
  apply leb_finite. right. split; [reflexivity|lia].
Qed.

Lemma out_mono (a b E : Z) :
  0 <= a <= b -> b <= 2 ^ 53 -> -1074 <= E -> SFleb (out a E) (out b E) = true.
Proof.
  intros Hab Hb HE.
  destruct (Z.eq_dec b (2 ^ 53)) as [->|Hb'].
  - destruct (Z.eq_dec a (2 ^ 53)) as [->|Ha'].
    + rewrite out_top by lia. destruct (E + 1 <=? 971); [|reflexivity].
      apply leb_finite. right. split; [reflexivity|lia].
    + rewrite out_top, out_small by lia.
      destruct a as [|m|m]; try lia.
      * destruct (E + 1 <=? 971); reflexivity.
      * destruct (E <=? 971) eqn:L1, (E + 1 <=? 971) eqn:L2; try reflexivity; try lia.
        apply leb_finite. left. lia.
  - rewrite !out_small by lia.
    destruct a as [|m|m], b as [|m'|m']; try lia; try reflexivity.
    + destruct (E <=? 971); reflexivity.
    + destruct (E <=? 971); [|reflexivity].
      apply leb_finite. right. split; [reflexivity|lia].
Qed.

Lemma out_cross (a b E E' : Z) :
  0 <= a <= 2 ^ 53 -> 2 ^ 52 <= b <= 2 ^ 53 -> -1074 <= E < E' ->
  SFleb (out a E) (out b E') = true.
Proof.
  intros Ha Hb HE.
  assert (Hgb : good (out b E')) by (apply out_good; lia).
  assert (P52 : 2 ^ 52 = 4503599627370496) by reflexivity.
  assert (P53 : 2 ^ 53 = 9007199254740992) by reflexivity.
  destruct (Z.eq_dec a (2 ^ 53)) as [->|Ha'].
  - rewrite out_top by lia. destruct (E + 1 <=? 971) eqn:L1; [|].
    + destruct (Z.eq_dec b (2 ^ 53)) as [->|Hb'].
      * rewrite out_top by lia. destruct (E' + 1 <=? 971); [|reflexivity].
        apply leb_finite. left. lia.
      * rewrite out_small by lia. destruct b as [|m'|m']; try lia.
        destruct (E' <=? 971); [|reflexivity].
        apply leb_finite.
        destruct (Z.eq_dec (E + 1) E'); [right|left; lia].
        split; [assumption|]. change (Z.to_pos (2 ^ 52)) with 4503599627370496%positive. lia.
    + destruct (Z.eq_dec b (2 ^ 53)) as [->|Hb'].
      * rewrite out_top by lia.
        replace (E' + 1 <=? 971) with false by (symmetry; lia). reflexivity.
      * rewrite out_small by lia. destruct b as [|m'|m']; try lia.
        replace (E' <=? 971) with false by (symmetry; lia). reflexivity.
  - rewrite (out_small a) by lia. destruct a as [|m|m]; try lia.
    + apply leb_zero_good, Hgb.
    + destruct (E <=? 971) eqn:L1.
      * destruct (Z.eq_dec b (2 ^ 53)) as [->|Hb'].
        -- rewrite out_top by lia. destruct (E' + 1 <=? 971); [|reflexivity].
           apply leb_finite. left. lia.
        -- rewrite out_small by lia. destruct b as [|m'|m']; try lia.
           destruct (E' <=? 971); [|reflexivity].
           apply leb_finite. left. lia.
      * destruct (Z.eq_dec b (2 ^ 53)) as [->|Hb'].
        -- rewrite out_top by lia.
           replace (E' + 1 <=? 971) with false by (symmetry; lia). reflexivity.
        -- rewrite out_small by lia. destruct b as [|m'|m']; try lia.
           replace (E' <=? 971) with false by (symmetry; lia). reflexivity.
Qed.

(** *** The rounding [G] *)

Lemma expOf_min (N D e : Z) : -1074 <= expOf N D e.
Proof. unfold expOf. rewrite fexp_eq. lia. Qed.

Lemma G_char (N D e : Z) :
  pre N D e ->
  G N D e = out (rne N (D * 2 ^ (expOf N D e - e))) (expOf N D e).
Proof.
  intros (HN & HD & He).
  unfold G, binary_round_aux, shr_fexp.
  change (shr_record_of_loc (N / D) (locOf N D)) with (recOf N D).
  change (SpecFloat.fexp Num.prec Num.emax (Zdigits2 (N / D) + e)) with (expOf N D e).
  rewrite shr_recOf by lia.
  assert (HD' : 0 < D * 2 ^ (expOf N D e - e))
    by (apply Z.mul_pos_pos; [lia|apply Z.pow_pos_nonneg; lia]).
  rewrite rne_recOf by exact HD'.
  replace (e + (expOf N D e - e)) with (expOf N D e) by lia.
  reflexivity.
Qed.

(** The rounded mantissa has at most 53 digits, or is 2^53. *)
Lemma G_mantissa_upper (N D e : Z) :
  pre N D e -> 0 <= rne N (D * 2 ^ (expOf N D e - e)) <= 2 ^ 53.
Proof.
  intros (HN & HD & He).
  set (n := expOf N D e - e). assert (Hn : 0 <= n) by (unfold n; lia).
  pose proof (Z.pow_pos_nonneg 2 n ltac:(lia) Hn) as Hp.
  assert (HD' : 0 < D * 2 ^ n) by (apply Z.mul_pos_pos; lia).
  pose proof (rne_bounds N (D * 2 ^ n) HD') as [B1 B2].
  assert (Hq0 : 0 <= N / (D * 2 ^ n)) by (apply Z.div_pos; lia).
  split; [lia|].
  assert (Hlt : N / (D * 2 ^ n) < 2 ^ 53); [|lia].
  rewrite <- Z.div_div by lia.
  apply Z.div_lt_upper_bound; [lia|].
  pose proof (Z.div_pos N D HN HD) as Hq.
  destruct (Z.eq_dec (N / D) 0) as [->|Hne]; [lia|].
  pose proof (Zdigits2_bounds (N / D) ltac:(lia)) as [_ B].
  assert (Hd : Zdigits2 (N / D) <= n + 53).
  { unfold n, expOf. rewrite fexp_eq. lia. }
  pose proof (Zdigits2_nonneg (N / D)).
  assert (2 ^ Zdigits2 (N / D) <= 2 ^ (n + 53)) by (apply Z.pow_le_mono_r; lia).
  rewrite Z.pow_add_r in * by lia. lia.
Qed.

(** Above the least exponent the rounded mantissa has its 53 digits. *)
Lemma G_mantissa_lower (N D e : Z) :
  pre N D e -> -1074 < expOf N D e ->
  2 ^ 52 <= rne N (D * 2 ^ (expOf N D e - e)).
Proof.
  intros (HN & HD & He) HE.
  set (n := expOf N D e - e) in *. assert (Hn : 0 <= n) by (unfold n; lia).
  pose proof (Z.pow_pos_nonneg 2 n ltac:(lia) Hn) as Hp.
  assert (HD' : 0 < D * 2 ^ n) by (apply Z.mul_pos_pos; lia).
  pose proof (rne_bounds N (D * 2 ^ n) HD') as [B1 B2].
  assert (Hge : 2 ^ 52 <= N / (D * 2 ^ n)); [|lia].
  rewrite <- Z.div_div by lia.
  apply Z.div_le_lower_bound; [lia|].
  assert (Hd : Zdigits2 (N / D) = n + 53).
  { unfold n, expOf in *. rewrite fexp_eq in *. lia. }
  assert (Hq : 0 < N / D).
  { pose proof (Z.div_pos N D HN HD).
    destruct (Z.eq_dec (N / D) 0) as [E0|E0]; [|lia].
    rewrite E0 in Hd. change (Zdigits2 0) with 0 in Hd. lia. }
  pose proof (Zdigits2_bounds (N / D) Hq) as [B _].
  rewrite Hd in B. replace (n + 53 - 1) with (n + 52) in B by lia.
  rewrite Z.pow_add_r in B by lia. lia.
Qed.

Lemma G_good (N D e : Z) : pre N D e -> good (G N D e).
Proof.
  intros H. rewrite G_char by exact H.
  apply out_good.
  - apply G_mantissa_upper, H.
  - apply expOf_min.
  - apply G_mantissa_lower, H.
Qed.

(** [G] is monotone in the numerator. *)
Lemma G_mono (N N' D e : Z) :
  pre N D e -> pre N' D e -> N <= N' -> SFleb (G N D e) (G N' D e) = true.
Proof.
  intros H H' Hle. rewrite !G_char by assumption.
  pose proof (G_mantissa_upper N D e H) as U.
  pose proof (G_mantissa_upper N' D e H') as U'.
  pose proof (G_mantissa_lower N' D e H') as L'.
  pose proof (expOf_min N D e) as Emin.
  destruct H as (HN & HD & He), H' as (HN' & _ & He').
  assert (HE : expOf N D e <= expOf N' D e).
  { unfold expOf. rewrite !fexp_eq.
    pose proof (Zdigits2_mono (N / D) (N' / D)
                  (conj (Z.div_pos N D HN HD) (Z.div_le_mono N N' D HD Hle))).
    lia. }
  destruct (Z.eq_dec (expOf N D e) (expOf N' D e)) as [E|E].
  - rewrite <- E in *. apply out_mono; try lia.
    split; [lia|]. apply rne_mono; [|exact Hle].
    apply Z.mul_pos_pos; [lia|apply Z.pow_pos_nonneg; lia].
  - apply out_cross; lia.
Qed.

(** [G] depends on the value [N/D * 2^e] only. *)
Lemma G_scale (N D e : Z) :
  pre N D e -> pre (2 * N) D (e - 1) /\ G (2 * N) D (e - 1) = G N D e.
Proof.
  intros H. pose proof H as (HN & HD & He).
  assert (HE : expOf (2 * N) D (e - 1) = expOf N D e).
  { unfold expOf in *. rewrite fexp_eq in *.
    pose proof (Z.div_pos N D HN HD) as Hq.
    pose proof (Z.div_mod N D ltac:(lia)) as Hdm.
    pose proof (Z.mod_pos_bound N D HD) as Hb.
    destruct (Z.eq_dec (N / D) 0) as [E0|E0].
    - rewrite E0 in *. change (Zdigits2 0) with 0 in *.
      assert (H2 : 0 <= 2 * N / D <= 1).
      { split; [apply Z.div_pos; lia|].
        apply Z.lt_succ_r. apply Z.div_lt_upper_bound; lia. }
      assert (Hd2 : 0 <= Zdigits2 (2 * N / D) <= 1).
      { split; [apply Zdigits2_nonneg|]. apply Zdigits2_le; lia. }
      rewrite ?fexp_eq. lia.
    - assert (Hd2 : Zdigits2 (2 * N / D) = Zdigits2 (N / D) + 1).
      { pose proof (Zdigits2_bounds (N / D) ltac:(lia)) as [B1 B2].
        pose proof (Zdigits2_pos (N / D) ltac:(lia)) as Hp.
        apply Zdigits2_unique; [|lia].
        replace (Zdigits2 (N / D) + 1 - 1) with (Z.succ (Zdigits2 (N / D) - 1)) by lia.
        replace (Zdigits2 (N / D) + 1) with (Z.succ (Zdigits2 (N / D))) by lia.
        rewrite !Z.pow_succ_r by lia.
        split.
        + apply Z.div_le_lower_bound; [lia|]. nia.
        + apply Z.div_lt_upper_bound; [lia|]. nia. }
      rewrite Hd2, ?fexp_eq. lia. }
  assert (Hpre : pre (2 * N) D (e - 1)) by (unfold pre; rewrite HE; lia).
  split; [exact Hpre|].
  rewrite !G_char by assumption. rewrite HE. f_equal.
  replace (expOf N D e - (e - 1)) with (Z.succ (expOf N D e - e)) by lia.
  rewrite Z.pow_succ_r by lia.
  replace (D * (2 * 2 ^ (expOf N D e - e))) with (2 * (D * 2 ^ (expOf N D e - e))) by ring.
  apply rne_scale; [|lia].
  apply Z.mul_pos_pos; [lia|apply Z.pow_pos_nonneg; lia].
Qed.

Lemma G_scale_pow (N D e j : Z) :
  0 <= j -> pre N D e ->
  pre (2 ^ j * N) D (e - j) /\ G (2 ^ j * N) D (e - j) = G N D e.
Proof.
  intros Hj H. revert j Hj.
  apply natlike_ind.
  - rewrite Z.pow_0_r, Z.mul_1_l, Z.sub_0_r. split; [exact H|reflexivity].
  - intros j Hj [IHp IHe].
    destruct (G_scale _ _ _ IHp) as [Hp He].
    rewrite Z.pow_succ_r by lia.
    replace (2 * 2 ^ j * N) with (2 * (2 ^ j * N)) by ring.
    replace (e - Z.succ j) with (e - j - 1) by lia.
    split; [exact Hp|]. rewrite He. exact IHe.
Qed.

(** *** Numbers as roundings at a common exponent *)

Lemma iter_xO (m d : positive) : Zpos (Pos.iter xO m d) = Zpos m * 2 ^ Zpos d.
Proof.
  induction d as [|d IH] using Pos.peano_ind.
  - cbn [Pos.iter]. rewrite Z.pow_1_r, (Pos2Z.inj_xO m). lia.
  - rewrite Pos.iter_succ, Pos2Z.inj_succ, Z.pow_succ_r by lia.
    rewrite (Pos2Z.inj_xO (Pos.iter xO m d)), IH. ring.
Qed.

Lemma shl_align_spec (m : positive) (e e' : Z) :
  Zpos (fst (shl_align m e e')) = Zpos m * 2 ^ (e - Z.min e e')
  /\ snd (shl_align m e e') = Z.min e e'.
Proof.
  unfold shl_align. destruct (e' - e) as [|d|d] eqn:Hd; cbn [fst snd].
  - rewrite Z.min_l by lia. rewrite Z.sub_diag, Z.pow_0_r. lia.
  - rewrite Z.min_l by lia. rewrite Z.sub_diag, Z.pow_0_r. lia.
  - rewrite Z.min_r by lia. rewrite iter_xO.
    replace (e - e') with (Z.pos d) by lia. split; reflexivity.
Qed.

Lemma Zdigits2_shift (q k : Z) : 0 < q -> 0 <= k -> Zdigits2 (q * 2 ^ k) = Zdigits2 q + k.
Proof.
  intros Hq Hk.
  pose proof (Zdigits2_bounds q Hq) as [B1 B2].
  pose proof (Zdigits2_pos q Hq) as Hp.
  pose proof (Z.pow_pos_nonneg 2 k ltac:(lia) Hk) as Hk2.
  apply Zdigits2_unique; [|lia].
  replace (Zdigits2 q + k - 1) with (Zdigits2 q - 1 + k) by lia.
  rewrite !Z.pow_add_r by lia. nia.
Qed.

Lemma G_of_integer (m : positive) (e : Z) :
  binary_round_aux Num.prec Num.emax false (Zpos m) e loc_Exact = G (Zpos m) 1 e.
Proof. unfold G, locOf. rewrite Z.div_1_r, Z.mod_1_r. reflexivity. Qed.

(** The rounding of the integer [m] at exponent [e], from any exponent [c]
    low enough. *)
Lemma round_at (m : positive) (e c : Z) :
  c <= e -> c <= -1074 ->
  binary_round Num.prec Num.emax false m e = G (Zpos m * 2 ^ (e - c)) 1 c
  /\ pre (Zpos m * 2 ^ (e - c)) 1 c.
Proof.
  intros Hce Hc. unfold binary_round.
  set (f0 := SpecFloat.fexp Num.prec Num.emax (Z.pos (digits2_pos m) + e)).
  pose proof (shl_align_spec m e f0) as [Hm He].
  destruct (shl_align m e f0) as [mz ez]. cbn [fst snd] in Hm, He.
  rewrite G_of_integer.
  assert (Hf0 : f0 = fexp (Zdigits2 (Zpos m) + e)) by reflexivity.
  assert (Hpre : pre (Zpos mz) 1 ez).
  { unfold pre, expOf. rewrite Z.div_1_r, Hm.
    rewrite Zdigits2_shift by lia.
    replace (Zdigits2 (Z.pos m) + (e - Z.min e f0) + ez) with (Zdigits2 (Zpos m) + e) by lia.
    rewrite <- Hf0. lia. }
  assert (Hf0min : -1074 <= f0) by (rewrite Hf0, fexp_eq; lia).
  destruct (G_scale_pow (Zpos mz) 1 ez (ez - c) ltac:(lia) Hpre) as [Hp Hg].
  replace (ez - (ez - c)) with c in * by lia.
  assert (Hval : 2 ^ (ez - c) * Z.pos mz = Z.pos m * 2 ^ (e - c)).
  { rewrite Hm. replace (e - c) with ((e - Z.min e f0) + (ez - c)) by lia.
    rewrite Z.pow_add_r by lia. ring. }
  rewrite Hval in *. split; [symmetry; exact Hg|exact Hp].
Qed.

(** A number of the format is the rounding of its own value. *)
Lemma finite_G (m : positive) (e c : Z) :
  bounded Num.prec Num.emax m e = true -> c <= e -> c <= -1074 ->
  S754_finite false m e = G (Zpos m * 2 ^ (e - c)) 1 c
  /\ pre (Zpos m * 2 ^ (e - c)) 1 c.
Proof.
  intros Hb Hce Hc. apply bounded_iff in Hb as [Hcan Hmax].
  destruct (round_at m e c Hce Hc) as [Hr Hp]. split; [|exact Hp].
  rewrite <- Hr. unfold binary_round.
  change (SpecFloat.fexp Num.prec Num.emax (Z.pos (digits2_pos m) + e))
    with (fexp (Z.pos (digits2_pos m) + e)).
  rewrite Hcan. unfold shl_align. rewrite Z.sub_diag.
  rewrite G_of_integer.
  assert (Hpre : pre (Zpos m) 1 e).
  { unfold pre, expOf. rewrite Z.div_1_r. simpl Zdigits2. rewrite Hcan. lia. }
  rewrite G_char by exact Hpre.
  unfold expOf. rewrite Z.div_1_r. simpl Zdigits2. rewrite Hcan.
  rewrite Z.sub_diag, Z.pow_0_r, Z.mul_1_r.
  assert (Hrne : rne (Zpos m) 1 = Zpos m).
  { unfold rne. rewrite Z.mod_1_r, Z.div_1_r. reflexivity. }
  rewrite Hrne.
  assert (Hd : Z.pos (digits2_pos m) <= 53) by (rewrite fexp_eq in Hcan; lia).
  pose proof (digits2_bounds m) as [_ B].
  assert (2 ^ Z.pos (digits2_pos m) <= 2 ^ 53) by (apply Z.pow_le_mono_r; lia).
  rewrite out_small by (rewrite fexp_eq in Hcan; lia).
  replace (e <=? 971) with true by (symmetry; lia). reflexivity.
Qed.

(** The order of two numbers of the format is the order of their values. *)
Lemma leb_value (m m' : positive) (e e' c : Z) :
  bounded Num.prec Num.emax m e = true ->
  bounded Num.prec Num.emax m' e' = true ->
  c <= e -> c <= e' ->
  SFleb (S754_finite false m e) (S754_finite false m' e') = true ->
  Zpos m * 2 ^ (e - c) <= Zpos m' * 2 ^ (e' - c).
Proof.
  intros Hb Hb' Hc Hc' Hle.
  apply bounded_iff in Hb as [Hcan _]. apply bounded_iff in Hb' as [Hcan' _].
  rewrite fexp_eq in *.
  apply leb_finite in Hle as [Hlt|[-> Hm]].
  - (* a lower exponent: the second number has its 53 digits *)
    pose proof (digits2_bounds m) as [_ B]. pose proof (digits2_bounds m') as [B' _].
    assert (Hd : Z.pos (digits2_pos m) <= 53) by lia.
    assert (Hd' : Z.pos (digits2_pos m') = 53) by lia.
    rewrite Hd' in B'. change (2 ^ (53 - 1)) with (2 ^ 52) in B'.
    assert (H53 : 2 ^ Z.pos (digits2_pos m) <= 2 ^ 53) by (apply Z.pow_le_mono_r; lia).
    replace (e' - c) with ((e - c) + (e' - e)) by lia.
    rewrite Z.pow_add_r by lia.
    pose proof (Z.pow_pos_nonneg 2 (e - c) ltac:(lia) ltac:(lia)) as P1.
    assert (P2 : 2 <= 2 ^ (e' - e)).
    { change 2 with (2 ^ 1) at 1. apply Z.pow_le_mono_r; lia. }
    change (2 ^ 53) with (2 * 2 ^ 52) in H53.
    assert (Zpos m < Zpos m' * 2 ^ (e' - e)) by nia.
    nia.
  - apply Z.mul_le_mono_nonneg_r; [apply Z.pow_nonneg; lia|lia].
Qed.

(** The sum of two numbers above zero. *)
Lemma add_G (mx my : positive) (ex ey c : Z) :
  c <= ex -> c <= ey -> c <= -1074 ->
  Num.add (S754_finite false mx ex) (S754_finite false my ey)
  = G (Zpos mx * 2 ^ (ex - c) + Zpos my * 2 ^ (ey - c)) 1 c
  /\ pre (Zpos mx * 2 ^ (ex - c) + Zpos my * 2 ^ (ey - c)) 1 c.
Proof.
  intros Hx Hy Hc. unfold Num.add, SFadd. cbn [cond_Zopp].
  pose proof (shl_align_spec mx ex (Z.min ex ey)) as [Hmx _].
  pose proof (shl_align_spec my ey (Z.min ex ey)) as [Hmy _].
  rewrite Pos2Z.add_pos_pos. cbn [binary_normalize].
  destruct (round_at (fst (shl_align mx ex (Z.min ex ey)) +
                      fst (shl_align my ey (Z.min ex ey))) (Z.min ex ey) c
              ltac:(lia) Hc) as [Hr Hp].
  rewrite Pos2Z.inj_add, Hmx, Hmy in Hr, Hp.
  assert (Hval : (Z.pos mx * 2 ^ (ex - Z.min ex (Z.min ex ey)) +
                  Z.pos my * 2 ^ (ey - Z.min ey (Z.min ex ey))) * 2 ^ (Z.min ex ey - c)
                 = Zpos mx * 2 ^ (ex - c) + Zpos my * 2 ^ (ey - c)).
  { rewrite Z.mul_add_distr_r, <- !Z.mul_assoc, <- !Z.pow_add_r by lia.
    f_equal; f_equal; f_equal; lia. }
  rewrite Hval in Hr, Hp. split; assumption.
Qed.

(** *** Sums *)

Lemma add_good (x y : spec_float) : good x -> good y -> good (Num.add x y).
Proof.
  destruct x as [[|]|[|]| |[|] mx ex], y as [[|]|[|]| |[|] my ey];
    cbn [good]; intros Hx Hy; try easy.
  destruct (add_G mx my ex ey (Z.min ex (Z.min ey (-1074)))) as [-> Hp]; try lia.
  apply G_good, Hp.
Qed.

Lemma add_mono (x x' y : spec_float) :
  good x -> good x' -> good y ->
  SFleb x x' = true -> SFleb (Num.add x y) (Num.add x' y) = true.
Proof.
  intros Hx Hx' Hy Hle.
  pose proof (add_good x y Hx Hy) as Gxy.
  pose proof (add_good x' y Hx' Hy) as Gxy'.
  destruct y as [[|]|[|]| |[|] my ey]; cbn [good] in Hy; try easy.
  - (* y = 0 *)
    destruct x as [[|]|[|]| |[|] mx ex], x' as [[|]|[|]| |[|] mx' ex'];
      cbn [good] in Hx, Hx'; try easy.
  - (* y = infinity *)
    destruct x as [[|]|[|]| |[|] mx ex], x' as [[|]|[|]| |[|] mx' ex'];
      cbn [good] in Hx, Hx'; try easy.
  - destruct Hy as [_ Hy].
    destruct x as [[|]|[|]| |[|] mx ex]; cbn [good] in Hx; try easy.
    + (* x = 0 *)
      destruct x' as [[|]|[|]| |[|] mx' ex']; cbn [good] in Hx'; try easy.
      * apply leb_refl_good. split; [reflexivity|exact Hy].
      * destruct Hx' as [_ Hx'].
        set (c := Z.min ex' (Z.min ey (-1074))).
        destruct (add_G mx' my ex' ey c) as [He Hp]; try (unfold c; lia).
        destruct (finite_G my ey c Hy) as [He' Hp']; try (unfold c; lia).
        change (Num.add (S754_zero false) (S754_finite false my ey))
          with (S754_finite false my ey).
        rewrite He, He'. apply G_mono; try assumption.
        pose proof (Z.pow_nonneg 2 (ex' - c) ltac:(lia)). nia.
    + (* x = infinity *)
      destruct x' as [[|]|[|]| |[|] mx' ex']; cbn [good] in Hx'; try easy.
    + destruct Hx as [_ Hx].
      destruct x' as [[|]|[|]| |[|] mx' ex']; cbn [good] in Hx'; try easy.
      * apply leb_good_inf. exact Gxy.
      * destruct Hx' as [_ Hx'].
        set (c := Z.min ex (Z.min ex' (Z.min ey (-1074)))).
        destruct (add_G mx my ex ey c) as [He Hp]; try (unfold c; lia).
        destruct (add_G mx' my ex' ey c) as [He' Hp']; try (unfold c; lia).
        rewrite He, He'. apply G_mono; try assumption.
        pose proof (leb_value mx mx' ex ex' c Hx Hx' ltac:(unfold c; lia)
                      ltac:(unfold c; lia) Hle).
        lia.
Qed.

(** *** Quotients *)

Lemma new_location_locOf (N D : Z) :
  0 < D -> new_location D (N mod D) = locOf N D.
Proof.
  intros HD. unfold new_location, new_location_even, new_location_odd, locOf.
  destruct (Z.even D) eqn:Ev; [reflexivity|].
  destruct (N mod D =? 0); [reflexivity|]. f_equal.
  assert (Hodd : Z.odd D = true) by (rewrite <- Z.negb_even, Ev; reflexivity).
  apply Z.odd_spec in Hodd as [j Hj].
  destruct (Z.compare_spec (2 * (N mod D) + 1) D);
    symmetry; [apply Z.compare_lt_iff|apply Z.compare_lt_iff|apply Z.compare_gt_iff]; lia.
Qed.

Lemma shift_cases (m s : Z) :
  0 <= s ->
  match s with
  | 0 => m
  | Z.pos _ => Z.shiftl m s
  | Z.neg _ => 0
  end = m * 2 ^ s.
Proof.
  intros Hs. destruct s as [|p|p]; try lia.
  apply Z.shiftl_mul_pow2. lia.
Qed.

(** The quotient of a number above zero by the number [mk * 2^ek]. *)
Lemma div_G (mx mk : positive) (ex ek c : Z) :
  c <= ex - ek -> c <= -1074 ->
  Num.div (S754_finite false mx ex) (S754_finite false mk ek)
  = G (Zpos mx * 2 ^ (ex - ek - c)) (Zpos mk) c
  /\ pre (Zpos mx * 2 ^ (ex - ek - c)) (Zpos mk) c.
Proof.
  intros Hce Hc. unfold Num.div, SFdiv, SFdiv_core_binary. cbn [xorb].
  change (SpecFloat.fexp Num.prec Num.emax) with fexp.
  set (t := Zdigits2 (Z.pos mx) + ex - (Zdigits2 (Z.pos mk) + ek)).
  set (e' := Z.min (fexp t) (ex - ek)).
  set (s := ex - ek - e').
  assert (Hs : 0 <= s) by (unfold s, e'; lia).
  rewrite (shift_cases (Zpos mx) s Hs).
  set (N := Zpos mx * 2 ^ s).
  assert (HN : 0 < N) by (apply Z.mul_pos_pos; [lia|apply Z.pow_pos_nonneg; lia]).
  assert (Hde : Z.div_eucl N (Z.pos mk) = (N / Z.pos mk, N mod Z.pos mk)).
  { unfold Z.div, Z.modulo. destruct (Z.div_eucl N (Z.pos mk)); reflexivity. }
  rewrite Hde, new_location_locOf by lia.
  change (binary_round_aux Num.prec Num.emax false (N / Z.pos mk) e' (locOf N (Z.pos mk)))
    with (G N (Zpos mk) e').
  assert (Hpre : pre N (Zpos mk) e').
  { unfold pre. split; [lia|]. split; [lia|].
    unfold expOf. rewrite fexp_eq.
    destruct (Z_le_gt_dec e' (-1074)) as [Hlow|Hhigh]; [lia|].
    (* above the least exponent the quotient has at least 53 digits *)
    assert (Ht : e' <= t - 53) by (unfold e' in *; rewrite fexp_eq in *; lia).
    pose proof (Zdigits2_bounds (Zpos mx) ltac:(lia)) as [B1 _].
    pose proof (Zdigits2_bounds (Zpos mk) ltac:(lia)) as [_ B2].
    pose proof (Zdigits2_pos (Zpos mx) ltac:(lia)) as P1.
    pose proof (Zdigits2_pos (Zpos mk) ltac:(lia)) as P2.
    assert (Hq : 2 ^ 52 <= N / Zpos mk).
    { apply Z.div_le_lower_bound; [lia|].
      assert (Hs' : 52 + Zdigits2 (Zpos mk) <= Zdigits2 (Zpos mx) - 1 + s)
        by (unfold s, t in *; lia).
      assert (Hp : 2 ^ (52 + Zdigits2 (Zpos mk)) <= 2 ^ (Zdigits2 (Zpos mx) - 1 + s))
        by (apply Z.pow_le_mono_r; lia).
      rewrite !Z.pow_add_r in Hp by lia.
      unfold N.
      pose proof (Z.pow_pos_nonneg 2 s ltac:(lia) Hs).
      pose proof (Z.pow_pos_nonneg 2 52 ltac:(lia) ltac:(lia)).
      nia. }
    assert (Hd : 53 <= Zdigits2 (N / Zpos mk)).
    { pose proof (Zdigits2_bounds (N / Zpos mk) ltac:(lia)) as [_ B].
      assert (52 < Zdigits2 (N / Zpos mk));
        [apply (Z.pow_lt_mono_r_iff 2); [lia|apply Zdigits2_nonneg|lia]|lia]. }
    lia. }
  assert (He'c : c <= e').
  { unfold e'. rewrite fexp_eq. lia. }
  destruct (G_scale_pow N (Zpos mk) e' (e' - c) ltac:(lia) Hpre) as [Hp Hg].
  replace (e' - (e' - c)) with c in * by lia.
  assert (Hval : 2 ^ (e' - c) * N = Z.pos mx * 2 ^ (ex - ek - c)).
  { unfold N. replace (ex - ek - c) with (s + (e' - c)) by (unfold s; lia).
    rewrite Z.pow_add_r by lia. ring. }
  rewrite Hval in *. split; [symmetry; exact Hg|exact Hp].
Qed.

Lemma div_good (x : spec_float) (mk : positive) (ek : Z) :
  good x -> good (Num.div x (S754_finite false mk ek)).
Proof.
  destruct x as [[|]|[|]| |[|] mx ex]; cbn [good]; intros Hx; try easy.
  destruct (div_G mx mk ex ek (Z.min (ex - ek) (-1074))) as [-> Hp]; try lia.
  apply G_good, Hp.
Qed.

Lemma div_mono (x x' : spec_float) (mk : positive) (ek : Z) :
  good x -> good x' -> SFleb x x' = true ->
  SFleb (Num.div x (S754_finite false mk ek)) (Num.div x' (S754_finite false mk ek)) = true.
Proof.
  intros Hx Hx' Hle.
  pose proof (div_good x mk ek Hx) as Gx. pose proof (div_good x' mk ek Hx') as Gx'.
  destruct x as [[|]|[|]| |[|] mx ex]; cbn [good] in Hx; try easy.
  - apply leb_zero_good, Gx'.
  - destruct x' as [[|]|[|]| |[|] mx' ex']; cbn [good] in Hx'; try easy.
  - destruct x' as [[|]|[|]| |[|] mx' ex']; cbn [good] in Hx'; try easy.
    + apply leb_good_inf, Gx.
    + destruct Hx as [_ Hx], Hx' as [_ Hx'].
    set (c := Z.min (ex - ek) (Z.min (ex' - ek) (-1074))).
    destruct (div_G mx mk ex ek c) as [He Hp]; try (unfold c; lia).
    destruct (div_G mx' mk ex' ek c) as [He' Hp']; try (unfold c; lia).
    rewrite He, He'. apply G_mono; try assumption.
    pose proof (leb_value mx mx' ex ex' (c + ek) Hx Hx' ltac:(unfold c; lia)
                  ltac:(unfold c; lia) Hle) as Hv.
    replace (ex - (c + ek)) with (ex - ek - c) in Hv by lia.
    replace (ex' - (c + ek)) with (ex' - ek - c) in Hv by lia.
    exact Hv.
Qed.

(** *** Ceilings *)

Lemma ceilInt_pos (m : positive) (e : Z) : 0 < ceilInt m e.
Proof.
  unfold ceilInt. destruct (Z.leb_spec 0 e) as [He|He].
  - apply Z.mul_pos_pos; [lia|apply Z.pow_pos_nonneg; lia].
  - pose proof (Z.pow_pos_nonneg 2 (- e) ltac:(lia) ltac:(lia)) as Hp.
    pose proof (Z.div_mod (Zpos m) (2 ^ (- e)) ltac:(lia)) as Hdm.
    pose proof (Z.div_pos (Zpos m) (2 ^ (- e)) ltac:(lia) Hp) as Hq.
    destruct (Z.eqb_spec (Z.pos m mod 2 ^ (- e)) 0) as [E|E]; [|lia].
    rewrite E in Hdm. nia.
Qed.

Lemma ceilInt_upper (m : positive) (e c : Z) :
  c <= e -> c <= 0 -> Zpos m * 2 ^ (e - c) <= ceilInt m e * 2 ^ (- c).
Proof.
  intros Hce Hc. unfold ceilInt. destruct (Z.leb_spec 0 e) as [He|He].
  - replace (e - c) with (e + - c) by lia. rewrite Z.pow_add_r by lia. lia.
  - pose proof (Z.pow_pos_nonneg 2 (- e) ltac:(lia) ltac:(lia)) as Hp.
    pose proof (Z.pow_pos_nonneg 2 (e - c) ltac:(lia) ltac:(lia)) as Hp'.
    pose proof (Z.div_mod (Zpos m) (2 ^ (- e)) ltac:(lia)) as Hdm.
    pose proof (Z.mod_pos_bound (Zpos m) (2 ^ (- e)) Hp) as Hb.
    replace (- c) with (- e + (e - c)) by lia. rewrite Z.pow_add_r by lia.
    destruct (Z.eqb_spec (Z.pos m mod 2 ^ (- e)) 0) as [E|E]; nia.
Qed.

Lemma ceilInt_least (m : positive) (e c z : Z) :
  c <= e -> c <= 0 -> Zpos m * 2 ^ (e - c) <= z * 2 ^ (- c) -> ceilInt m e <= z.
Proof.
  intros Hce Hc H. unfold ceilInt. destruct (Z.leb_spec 0 e) as [He|He].
  - replace (e - c) with (e + - c) in H by lia. rewrite Z.pow_add_r in H by lia.
    pose proof (Z.pow_pos_nonneg 2 (- c) ltac:(lia) ltac:(lia)) as Hp. nia.
  - pose proof (Z.pow_pos_nonneg 2 (- e) ltac:(lia) ltac:(lia)) as Hp.
    pose proof (Z.pow_pos_nonneg 2 (e - c) ltac:(lia) ltac:(lia)) as Hp'.
    pose proof (Z.div_mod (Zpos m) (2 ^ (- e)) ltac:(lia)) as Hdm.
    pose proof (Z.mod_pos_bound (Zpos m) (2 ^ (- e)) Hp) as Hb.
    replace (- c) with (- e + (e - c)) in H by lia. rewrite Z.pow_add_r in H by lia.
    assert (Hm : Zpos m <= z * 2 ^ (- e)) by nia.
    destruct (Z.eqb_spec (Z.pos m mod 2 ^ (- e)) 0) as [E|E]; nia.
Qed.

Lemma ceil_G (m : positive) (e c : Z) :
  bounded Num.prec Num.emax m e = true -> c <= e -> c <= -1074 ->
  Num.ceil (S754_finite false m e) = G (ceilInt m e * 2 ^ (- c)) 1 c
  /\ pre (ceilInt m e * 2 ^ (- c)) 1 c.
Proof.
  intros Hb Hce Hc. pose proof (ceilInt_pos m e) as Hpos.
  unfold Num.ceil, ceilInt in *. destruct (Z.leb_spec 0 e) as [He|He].
  - replace (Z.pos m * 2 ^ e * 2 ^ (- c)) with (Zpos m * 2 ^ (e - c)).
    + apply finite_G; assumption.
    + replace (e - c) with (e + - c) by lia. rewrite Z.pow_add_r by lia. ring.
  - set (z := if Z.pos m mod 2 ^ (- e) =? 0 then Z.pos m / 2 ^ (- e)
              else Z.pos m / 2 ^ (- e) + 1) in *.
    destruct z as [|pz|pz] eqn:Ez; try lia.
    cbn [binary_normalize].
    destruct (round_at pz 0 c ltac:(lia) Hc) as [Hr Hp].
    rewrite Z.sub_0_l in Hr, Hp. split; assumption.
Qed.

Lemma ceil_good (x : spec_float) : good x -> good (Num.ceil x).
Proof.
  destruct x as [[|]|[|]| |[|] m e]; cbn [good]; intros Hx; try easy.
  destruct Hx as [_ Hx].
  destruct (ceil_G m e (Z.min e (-1074)) Hx) as [-> Hp]; try lia.
  apply G_good, Hp.
Qed.

Lemma ceil_mono (x x' : spec_float) :
  good x -> good x' -> SFleb x x' = true -> SFleb (Num.ceil x) (Num.ceil x') = true.
Proof.
  intros Hx Hx' Hle.
  pose proof (ceil_good x Hx) as Gx. pose proof (ceil_good x' Hx') as Gx'.
  destruct x as [[|]|[|]| |[|] m e]; cbn [good] in Hx; try easy.
  - apply leb_zero_good, Gx'.
  - destruct x' as [[|]|[|]| |[|] m' e']; cbn [good] in Hx'; try easy.
  - destruct x' as [[|]|[|]| |[|] m' e']; cbn [good] in Hx'; try easy.
    + apply leb_good_inf, Gx.
    + destruct Hx as [_ Hx], Hx' as [_ Hx'].
      set (c := Z.min e (Z.min e' (-1074))).
      destruct (ceil_G m e c Hx) as [He Hp]; try (unfold c; lia).
      destruct (ceil_G m' e' c Hx') as [He' Hp']; try (unfold c; lia).
      rewrite He, He'. apply G_mono; try assumption.
      apply Z.mul_le_mono_nonneg_r; [apply Z.pow_nonneg; lia|].
      apply (ceilInt_least m e c); try (unfold c; lia).
      pose proof (leb_value m m' e e' c Hx Hx' ltac:(unfold c; lia)
                    ltac:(unfold c; lia) Hle).
      pose proof (ceilInt_upper m' e' c ltac:(unfold c; lia) ltac:(unfold c; lia)).
      lia.
Qed.

(** *** The remaining time does not grow *)

Lemma positive_good (x : spec_float) : Num.positive x = true -> good x.
Proof.
  destruct x as [| | |[|] m e]; simpl; intros H; try discriminate.
  split; [reflexivity|exact H].
Qed.

Lemma totals_mono (ds : list spec_float) :
  Forall good ds ->
  forall a a', good a -> good a' -> SFleb a a' = true ->
    good (fold_left Num.add ds a) /\ good (fold_left Num.add ds a')
    /\ SFleb (fold_left Num.add ds a) (fold_left Num.add ds a') = true.
Proof.
  induction 1 as [|d ds Hd _ IH]; intros a a' Ha Ha' Hle; cbn [fold_left].
  - auto.
  - apply IH; [apply add_good|apply add_good|apply add_mono]; assumption.
Qed.

Lemma delay_good (rate : Z) (w : jsstring) :
  100 <= rate <= 1000 -> good (getWordDelay rate w).
Proof. intros H. apply positive_good, delay_positive, H. Qed.

(** With one more delay in the sum, its ceiling in seconds is not less. *)
Lemma remaining_mono (rate : Z) (next : jsstring) (later : list jsstring) :
  100 <= rate <= 1000 ->
  Num.leb (Num.ceil (Num.div (totalMs rate later) (Num.ofZ 1000)))
          (Num.ceil (Num.div (totalMs rate (next :: later)) (Num.ofZ 1000)))
  = true.
Proof.
  intros Hr. unfold totalMs. cbn [fold_left].
  rewrite add_zero_positive by (apply delay_positive, Hr).
  rewrite !fold_delays.
  assert (Hds : Forall good (map (fun u => PaceSpec.delay u rate) later)).
  { apply Forall_forall. intros d Hd. apply in_map_iff in Hd as (u & <- & _).
    rewrite <- getWordDelay_delay. apply delay_good, Hr. }
  destruct (totals_mono _ Hds (Num.ofZ 0) (getWordDelay rate next))
    as (G0 & G1 & Hle).
  { reflexivity. }
  { apply delay_good, Hr. }
  { apply leb_zero_good, delay_good, Hr. }
  change (Num.ofZ 1000) with (S754_finite false 8796093022208000 (-43)).
  apply ceil_mono; [apply div_good, G0|apply div_good, G1|].
  apply div_mono; assumption.
Qed.

(** ** Advancing through the sequence *)

Lemma reachable_atFirstOfThree : reachable atFirstOfThree.
Proof.
  apply reachable_run; [|apply reach_initial].
  repeat constructor.
Qed.

(** C7, as the specification states it, fails: with the units "a", "b", "c"
    at rate 300, the timer moves the position from 0 to 1, the delay of the
    next unit "b" is 200 ms, and the remaining time is 1 second before and 1
    second after; it has gone down neither by 200 nor by 0.2. *)
Lemma remaining_time_not_less_by_delay :
  let s := atFirstOfThree in
  let s' := step WordTimer s in
  isPlaying s = true
  /\ currentIndex s = 0 /\ currentIndex s' = 1
  /\ index (words s) (currentIndex s') = Some (lit "b")
  /\ getWordDelay (speed s) (lit "b") = Num.ofZ 200
  /\ remainingSeconds s = Num.ofZ 1
  /\ remainingSeconds s' = Num.ofZ 1
  /\ Num.add (remainingSeconds s') (getWordDelay (speed s) (lit "b"))
     <> remainingSeconds s
  /\ Num.add (remainingSeconds s')
             (Num.div (getWordDelay (speed s) (lit "b")) (Num.ofZ 1000))
     <> remainingSeconds s.
Proof.
  repeat split; try (vm_compute; reflexivity); vm_compute; discriminate.
Qed.

(** C7, as the code has it: when the per-word timer moves the position on
    to the next unit, sequence and rate stay and the remaining time does not
    grow.  It is, before and after, the ceiling of a millisecond total divided
    by 1000, whole seconds, and the delay of the next unit leaves that total:
    the units summed before are the next unit followed by the units summed
    after, so the total before is the left-to-right sum of the same later
    delays started from the delay of the next unit instead of from 0. *)
Theorem advance_drops_next_delay (s : state) (next : jsstring) :
  reachable s ->
  wordTimerArmed s = true ->
  index (words s) (currentIndex s + 1) = Some next ->
  let s' := step WordTimer s in
  let later := sliceFrom (words s) (currentIndex s' + 1) in
  currentIndex s' = currentIndex s + 1
  /\ words s' = words s /\ speed s' = speed s
  /\ Num.leb (remainingSeconds s') (remainingSeconds s) = true
  /\ sliceFrom (words s) (currentIndex s + 1) = next :: later
  /\ totalMs (speed s) (next :: later)
     = totalMsFrom (speed s) (getWordDelay (speed s) next) later
  /\ totalMs (speed s) later = totalMsFrom (speed s) (Num.ofZ 0) later
  /\ remainingSeconds s
     = Num.ceil (Num.div (totalMs (speed s) (next :: later)) (Num.ofZ 1000))
  /\ remainingSeconds s'
     = Num.ceil (Num.div (totalMs (speed s) later) (Num.ofZ 1000)).
Proof.
  intros Hs Harmed Hnext s' later.
  pose proof (reachable_rateInRange s Hs) as Hrate.
  pose proof (reachable_positionInRange s Hs) as Hpos.
  assert (Hne : words s <> []).
  { intros E. rewrite E in Hnext. unfold index in Hnext.
    destruct (currentIndex s + 1 <? 0); [discriminate|].
    destruct (Z.to_nat (currentIndex s + 1)); discriminate. }
  specialize (Hpos Hne).
  assert (Hlt : currentIndex s + 1 < len (words s)).
  { rewrite index_nth in Hnext by lia.
    assert (H : (Z.to_nat (currentIndex s + 1) < length (words s))%nat)
      by (apply nth_error_Some; congruence).
    unfold len. lia. }
  assert (Hstep : s' = setCurrentIndex (currentIndex s + 1) s).
  { subst s'. unfold step, wordTimerFired. rewrite Harmed.
    replace (currentIndex s >=? len (words s) - 1) with false by (symmetry; lia).
    reflexivity. }
  assert (Hidx : currentIndex s' = currentIndex s + 1) by (rewrite Hstep; reflexivity).
  assert (Hslice : sliceFrom (words s) (currentIndex s + 1) = next :: later).
  { subst later. rewrite Hidx. apply sliceFrom_next; [lia|exact Hnext]. }
  assert (Hbefore : remainingSeconds s
     = Num.ceil (Num.div (totalMs (speed s) (next :: later)) (Num.ofZ 1000))).
  { unfold remainingSeconds. rewrite calculateRemainingTime_total by lia.
    rewrite Hslice. reflexivity. }
  assert (Hafter : remainingSeconds s'
     = Num.ceil (Num.div (totalMs (speed s) later) (Num.ofZ 1000))).
  { unfold remainingSeconds. rewrite calculateRemainingTime_total by lia.
    subst later. rewrite Hstep. reflexivity. }
  split; [exact Hidx|]. split; [rewrite Hstep; reflexivity|].
  split; [rewrite Hstep; reflexivity|].
  split; [rewrite Hbefore, Hafter; apply remaining_mono, Hrate|].
  split; [exact Hslice|]. split.
  { unfold totalMs, totalMsFrom. cbn [fold_left].
    rewrite add_zero_positive by (apply delay_positive, Hrate). reflexivity. }
  split; [reflexivity|]. split; assumption.
Qed.

Lemma advance_drops_next_delay_witness :
  reachable atFirstOfThree
  /\ wordTimerArmed atFirstOfThree = true
  /\ index (words atFirstOfThree) (currentIndex atFirstOfThree + 1) = Some (lit "b")
  /\ (let s' := step WordTimer atFirstOfThree in
      let later := sliceFrom (words atFirstOfThree) (currentIndex s' + 1) in
      currentIndex s' = currentIndex atFirstOfThree + 1
      /\ words s' = words atFirstOfThree /\ speed s' = speed atFirstOfThree
      /\ Num.leb (remainingSeconds s') (remainingSeconds atFirstOfThree) = true
      /\ sliceFrom (words atFirstOfThree) (currentIndex atFirstOfThree + 1)
         = lit "b" :: later
      /\ totalMs (speed atFirstOfThree) (lit "b" :: later)
         = totalMsFrom (speed atFirstOfThree)
             (getWordDelay (speed atFirstOfThree) (lit "b")) later
      /\ totalMs (speed atFirstOfThree) later
         = totalMsFrom (speed atFirstOfThree) (Num.ofZ 0) later
      /\ remainingSeconds atFirstOfThree
         = Num.ceil (Num.div (totalMs (speed atFirstOfThree) (lit "b" :: later))
                             (Num.ofZ 1000))
      /\ remainingSeconds s'
         = Num.ceil (Num.div (totalMs (speed atFirstOfThree) later) (Num.ofZ 1000))).
Proof.
  split; [exact reachable_atFirstOfThree|].
  split; [reflexivity|]. split; [reflexivity|].
  exact (advance_drops_next_delay atFirstOfThree (lit "b")
           reachable_atFirstOfThree eq_refl eq_refl).
Defined.

(** * More properties *)

(** ** Texts and their units *)

Lemma runs_split (t1 t2 : jsstring) (c : char16) :
  Tok.isDelim c = true ->
  forall cur, TokSpec.runs cur (t1 ++ c :: t2) = TokSpec.runs cur t1 ++ TokSpec.runs [] t2.
Proof.
  intros Hc. induction t1 as [|x t1 IH]; intros cur; simpl.
  - rewrite Hc. destruct cur; reflexivity.
  - destruct (Tok.isDelim x); [destruct cur|]; rewrite IH; reflexivity.
Qed.

(** X1: a delimiter (whitespace or a hyphen) between two texts separates
    their units: the units of the whole are the units of the first text
    followed by those of the second. *)
Theorem parseText_separated (t1 t2 : jsstring) (c : char16) :
  Tok.isDelim c = true ->
  parseText (t1 ++ c :: t2) = parseText t1 ++ parseText t2.
Proof.
  intros Hc. rewrite !parseText_runs. apply runs_split, Hc.
Qed.

Lemma parseText_separated_witness :
  Tok.isDelim 45 = true
  /\ parseText (lit "well" ++ 45 :: lit "known fact")
     = parseText (lit "well") ++ parseText (lit "known fact").
Proof.
  split; [reflexivity|].
  apply (parseText_separated (lit "well") (lit "known fact") 45). reflexivity.
Defined.

Lemma runs_unit (w : jsstring) : isUnit w -> TokSpec.runs [] w = [w].
Proof.
  intros [Hne Hw]. rewrite <- (app_nil_r w) at 1.
  rewrite runs_word by exact Hw. simpl. destruct w; [contradiction|reflexivity].
Qed.

Lemma runs_joinWords (ws : list jsstring) :
  Forall isUnit ws -> TokSpec.runs [] (joinWords ws) = ws.
Proof.
  induction 1 as [|w ws Hw Hws IH]; [reflexivity|].
  destruct ws as [|w' ws'].
  - apply runs_unit, Hw.
  - change (joinWords (w :: w' :: ws')) with (w ++ 32 :: joinWords (w' :: ws')).
    rewrite runs_split by reflexivity.
    rewrite runs_unit by exact Hw. rewrite IH. reflexivity.
Qed.

(** X2: tokenizing is a left inverse of joining: a list of units (strings
    that are not empty and hold neither whitespace nor hyphens) joined by
    single spaces is read back as the same list. *)
Theorem parseText_joinWords (ws : list jsstring) :
  Forall isUnit ws -> parseText (joinWords ws) = ws.
Proof. intros H. rewrite parseText_runs. apply runs_joinWords, H. Qed.

Lemma parseText_joinWords_witness :
  Forall isUnit [lit "Hi,"; lit "there."]
  /\ parseText (joinWords [lit "Hi,"; lit "there."]) = [lit "Hi,"; lit "there."].
Proof.
  assert (H : Forall isUnit [lit "Hi,"; lit "there."]).
  { repeat constructor; discriminate. }
  split; [exact H|].
  apply (parseText_joinWords [lit "Hi,"; lit "there."] H).
Defined.

Lemma runs_nil_iff (s : jsstring) :
  forall cur, TokSpec.runs cur s = [] <-> cur = [] /\ allDelim s.
Proof.
  unfold allDelim. induction s as [|c s IH]; intros cur; simpl.
  - destruct cur; split; intros H; try tauto; try discriminate.
    destruct H as [H _]. discriminate.
  - destruct (Tok.isDelim c) eqn:Hc; simpl.
    + destruct cur as [|x cur].
      * rewrite IH. tauto.
      * split; [discriminate|]. intros [H _]. discriminate.
    + rewrite IH. split; [intros [H _]|intros [_ H]; discriminate].
      destruct cur; discriminate.
Qed.

(** X3: a text yields no unit exactly when it holds nothing but whitespace
    and hyphens. *)
Theorem parseText_nil_iff (text : jsstring) :
  parseText text = [] <-> allDelim text.
Proof.
  rewrite parseText_runs. unfold TokSpec.tokenize. rewrite runs_nil_iff. tauto.
Qed.

(** ** The word count under the text box *)

Lemma spaceLoop_nil (seg : jsstring) : Ws.spaceLoop seg [] = [seg].
Proof. simp spaceLoop. reflexivity. Qed.

Lemma spaceLoop_cons (seg : jsstring) (c : char16) (r : jsstring) :
  Ws.spaceLoop seg (c :: r) =
    if isSpace c then seg :: Ws.spaceLoop [] (Tok.dropWhile isSpace r)
    else Ws.spaceLoop (seg ++ [c]) r.
Proof.
  simp spaceLoop.
  destruct (Tok.inspect (Ws.matchSpaces (c :: r))) as [[rest'|] e];
    simpl; simpl in e; destruct (isSpace c); try discriminate.
  - injection e as <-. reflexivity.
  - reflexivity.
Qed.

Lemma dropWhile_length {A} (p : A -> bool) (l : list A) :
  (length (Tok.dropWhile p l) <= length l)%nat.
Proof.
  induction l as [|x l IH]; simpl; [lia|]. destruct (p x); simpl; lia.
Qed.

Lemma counted_nonEmpty (w : jsstring) :
  filter (fun w => len w >? 0) [w] = match w with [] => [] | _ => [w] end.
Proof. destruct w; reflexivity. Qed.

Lemma spaceLoop_units (n : nat) :
  forall s seg, (length s <= n)%nat ->
    flat_map (TokSpec.runs []) (filter (fun w => len w >? 0) (Ws.spaceLoop seg s))
    = TokSpec.runs [] (seg ++ s).
Proof.
  induction n as [|n IH]; intros [|c r] seg Hlen; simpl in Hlen; try lia.
  - rewrite spaceLoop_nil, counted_nonEmpty, app_nil_r.
    destruct seg; [reflexivity|]. cbn [flat_map]. apply app_nil_r.
  - rewrite spaceLoop_nil, counted_nonEmpty, app_nil_r.
    destruct seg; [reflexivity|]. cbn [flat_map]. apply app_nil_r.
  - rewrite spaceLoop_cons. destruct (isSpace c) eqn:Hc.
    + change (seg :: ?l) with ([seg] ++ l).
      rewrite filter_app, flat_map_app, counted_nonEmpty.
      rewrite IH by (pose proof (dropWhile_length isSpace r); lia).
      cbn [app]. rewrite runs_skip_spaces.
      rewrite (runs_split seg r c (isSpace_isDelim c Hc)).
      destruct seg; [reflexivity|]. cbn [flat_map]. rewrite app_nil_r. reflexivity.
    + rewrite IH by lia. rewrite <- app_assoc. reflexivity.
Qed.

(** X4: the reader's units refine the words counted under the text box:
    tokenizing each counted word and putting the results together gives the
    units of the whole text. *)
Theorem parseText_of_counted_words (text : jsstring) :
  parseText text = flat_map parseText (countedWords text).
Proof.
  rewrite (flat_map_ext parseText (TokSpec.runs []))
    by (intros w; apply parseText_runs).
  rewrite parseText_runs. unfold TokSpec.tokenize, countedWords, Ws.split.
  destruct (len text =? 0) eqn:E.
  - apply Z.eqb_eq in E. destruct text; [reflexivity|].
    unfold len in E. simpl in E. lia.
  - symmetry. apply (spaceLoop_units (length text) text []). lia.
Qed.

Lemma noHyphen_delim (c : char16) : (c =? 45) = false -> Tok.isDelim c = isSpace c.
Proof. intros H. unfold Tok.isDelim. rewrite H. apply orb_false_r. Qed.

Lemma noHyphen_dropWhile (s : jsstring) :
  noHyphen s -> noHyphen (Tok.dropWhile isSpace s).
Proof.
  unfold noHyphen. induction s as [|c s IH]; simpl; [trivial|].
  intros H. destruct (isSpace c); [|exact H].
  apply andb_prop in H as [_ H]. apply IH, H.
Qed.

Lemma spaceLoop_runs (n : nat) :
  forall s seg, (length s <= n)%nat -> noHyphen s ->
    filter (fun w => len w >? 0) (Ws.spaceLoop seg s) = TokSpec.runs seg s.
Proof.
  induction n as [|n IH]; intros [|c r] seg Hlen Hs; simpl in Hlen; try lia.
  - rewrite spaceLoop_nil. apply counted_nonEmpty.
  - rewrite spaceLoop_nil. apply counted_nonEmpty.
  - unfold noHyphen in Hs. simpl in Hs. apply andb_prop in Hs as [Hc Hr].
    apply negb_true_iff in Hc.
    rewrite spaceLoop_cons. cbn [TokSpec.runs]. rewrite (noHyphen_delim c Hc).
    destruct (isSpace c).
    + change (seg :: ?l) with ([seg] ++ l). rewrite filter_app, counted_nonEmpty.
      rewrite IH.
      * rewrite runs_skip_spaces. destruct seg; reflexivity.
      * pose proof (dropWhile_length isSpace r). lia.
      * apply noHyphen_dropWhile, Hr.
    + apply IH; [lia|exact Hr].
Qed.

(** X5: for a text without a hyphen, the words counted under the text box
    are the units the reader will show, so the count shown is the number of
    units. *)
Theorem shownWordCount_units (text : jsstring) :
  noHyphen text ->
  countedWords text = parseText text
  /\ (text <> [] -> shownWordCount text = Some (len (parseText text))).
Proof.
  intros Hn.
  assert (E : countedWords text = parseText text).
  { rewrite parseText_runs. unfold TokSpec.tokenize, countedWords, Ws.split.
    destruct (len text =? 0) eqn:E.
    - apply Z.eqb_eq in E. destruct text; [reflexivity|].
      unfold len in E. simpl in E. lia.
    - apply (spaceLoop_runs (length text)); [lia|exact Hn]. }
  split; [exact E|].
  intros Hne. unfold shownWordCount. rewrite E.
  destruct text; [contradiction|reflexivity].
Qed.

Lemma shownWordCount_units_witness :
  noHyphen (lit " The quick,  brown fox. ")
  /\ countedWords (lit " The quick,  brown fox. ") = parseText (lit " The quick,  brown fox. ")
  /\ (lit " The quick,  brown fox. " <> [] ->
      shownWordCount (lit " The quick,  brown fox. ")
      = Some (len (parseText (lit " The quick,  brown fox. ")))).
Proof.
  assert (H : noHyphen (lit " The quick,  brown fox. ")) by reflexivity.
  split; [exact H|]. apply (shownWordCount_units _ H).
Defined.

(** With hyphens the count shown and the number of units differ, in either
    direction. *)
Example shownWordCount_with_hyphens :
  shownWordCount (lit "a well-known fact") = Some 3
  /\ len (parseText (lit "a well-known fact")) = 4
  /\ shownWordCount (lit "yes - no") = Some 3
  /\ len (parseText (lit "yes - no")) = 2.
Proof. repeat split; vm_compute; reflexivity. Qed.

(** ** The focal letter *)

(** The word characters before and after the place [locate] finds. *)
Lemma locate_counts (rest : jsstring) :
  forall r p, locate r rest = Some p ->
    Z.of_nat (SplitSpec.wordCount (firstn p rest)) = r - 1
    /\ Z.of_nat (SplitSpec.wordCount (skipn (S p) rest))
       = Z.of_nat (SplitSpec.wordCount rest) - r.
Proof.
  unfold SplitSpec.wordCount.
  induction rest as [|c rest IH]; intros r p H; simpl in H; [discriminate|].
  destruct (isWordChar c) eqn:Hc.
  - destruct (r =? 1) eqn:E.
    + apply Z.eqb_eq in E. injection H as <-.
      cbn [firstn skipn filter]. rewrite Hc. cbn [length]. lia.
    + destruct (locate (r - 1) rest) as [q|] eqn:Hq; [|discriminate].
      injection H as <-. destruct (IH _ _ Hq) as [H1 H2].
      cbn [firstn skipn filter]. rewrite Hc. cbn [length]. cbn [skipn] in H2. lia.
  - destruct (locate r rest) as [q|] eqn:Hq; [|discriminate].
    injection H as <-. destruct (IH _ _ Hq) as [H1 H2].
    cbn [firstn skipn filter]. rewrite Hc. cbn [skipn] in H2. lia.
Qed.

Lemma targetRank_middle (n : nat) :
  (SplitSpec.targetRank n <= 6)%nat
  /\ ((1 <= n)%nat -> (2 * SplitSpec.targetRank n <= n + 1)%nat).
Proof.
  unfold SplitSpec.targetRank.
  repeat match goal with
         | |- context [(?a <=? ?b)%nat] => destruct (Nat.leb_spec a b)
         end; lia.
Qed.

(** X6: the focal letter is an early letter: with n letters (word
    characters) in the unit, the part before the focal letter holds
    rank(n) - 1 of them, at most five, and the part after it holds the other
    n - rank(n), which are never fewer; the focal letter is at or left of the
    middle letter. *)
Theorem splitWord_letters_around_focal (w : jsstring) :
  (1 <= SplitSpec.wordCount w)%nat ->
  let n := SplitSpec.wordCount w in
  let p := splitWord w in
  (SplitSpec.wordCount (before p) = SplitSpec.targetRank n - 1)%nat
  /\ (SplitSpec.wordCount (after p) = n - SplitSpec.targetRank n)%nat
  /\ (SplitSpec.wordCount (before p) <= 5)%nat
  /\ (SplitSpec.wordCount (before p) <= SplitSpec.wordCount (after p))%nat.
Proof.
  intros Hn n p. subst n p.
  destruct (splitWord_shape w) as [[Hz _]|[_ (q & c & Hl & _ & Hs & _)]]; [lia|].
  destruct (locate_counts w _ _ Hl) as [H1 H2].
  rewrite getFocalIndex_rank in H1, H2.
  pose proof (targetRank_bounds _ Hn) as Hr.
  destruct (targetRank_middle (SplitSpec.wordCount w)) as [H6 Hmid].
  specialize (Hmid Hn).
  rewrite Hs. cbn [before after SplitSpec.cut]. lia.
Qed.

Lemma splitWord_letters_around_focal_witness :
  (1 <= SplitSpec.wordCount (lit "(rabbit),"))%nat
  /\ (let n := SplitSpec.wordCount (lit "(rabbit),") in
      let p := splitWord (lit "(rabbit),") in
      (SplitSpec.wordCount (before p) = SplitSpec.targetRank n - 1)%nat
      /\ (SplitSpec.wordCount (after p) = n - SplitSpec.targetRank n)%nat
      /\ (SplitSpec.wordCount (before p) <= 5)%nat
      /\ (SplitSpec.wordCount (before p) <= SplitSpec.wordCount (after p))%nat).
Proof.
  split; [vm_compute; lia|].
  apply (splitWord_letters_around_focal (lit "(rabbit),")). vm_compute. lia.
Defined.


(** ** Pauses and delays *)

(** X7: [requiresPause] holds exactly of the units whose multiplier is 1.5
    or 1.2: those ending in one of . ! ? ; : .  A trailing comma lengthens
    the delay (multiplier 1.1) without counting as a pause. *)
Theorem requiresPause_multiplier (word : jsstring) :
  (requiresPause word = true
   <-> getPauseMultiplier word = Num.decimal 15 10
       \/ getPauseMultiplier word = Num.decimal 12 10)
  /\ (endsWith isComma word = true ->
      requiresPause word = false
      /\ getPauseMultiplier word = Num.decimal 11 10).
Proof.
  unfold requiresPause, getPauseMultiplier, endsWith.
  destruct (rev word) as [|c _].
  - split; [|discriminate]. split; [discriminate|].
    intros [H|H]; vm_compute in H; discriminate H.
  - unfold isPauseMark, isSentenceEnd, isClauseSep, isComma.
    destruct (Z.eqb_spec c 46), (Z.eqb_spec c 33), (Z.eqb_spec c 63),
      (Z.eqb_spec c 59), (Z.eqb_spec c 58), (Z.eqb_spec c 44);
      subst; try discriminate; cbn [orb];
      (split; [split; [intros H; try discriminate H; auto
                      |intros [H|H]; solve [reflexivity | vm_compute in H; discriminate H]]
              |intros H; try discriminate H; split; reflexivity]).
Qed.

Lemma leb_trans_good (x y z : spec_float) :
  good x -> good y -> good z ->
  SFleb x y = true -> SFleb y z = true -> SFleb x z = true.
Proof.
  intros Hx Hy Hz Hxy Hyz.
  destruct x as [[|]|[|]| |[|] mx ex]; cbn [good] in Hx; try easy;
    destruct z as [[|]|[|]| |[|] mz ez]; cbn [good] in Hz; try easy;
    destruct y as [[|]|[|]| |[|] my ey]; cbn [good] in Hy; try easy.
  apply leb_finite in Hxy, Hyz. apply leb_finite. lia.
Qed.

(** Adding a number that is not negative does not make a sum smaller. *)
Lemma add_ge_l (x y : spec_float) :
  good x -> good y -> SFleb x (Num.add x y) = true.
Proof.
  intros Hx Hy. pose proof (add_good x y Hx Hy) as Gxy.
  destruct x as [[|]|[|]| |[|] mx ex]; cbn [good] in Hx; try easy.
  - apply leb_zero_good, Gxy.
  - destruct y as [[|]|[|]| |[|] my ey]; cbn [good] in Hy; try easy.
  - destruct Hx as [_ Hx].
    destruct y as [[|]|[|]| |[|] my ey]; cbn [good] in Hy; try easy.
    + apply leb_refl_good. split; [reflexivity|exact Hx].
    + set (c := Z.min ex (Z.min ey (-1074))).
      destruct (add_G mx my ex ey c) as [He Hp]; try (unfold c; lia).
      destruct (finite_G mx ex c Hx) as [He' Hp']; try (unfold c; lia).
      rewrite He. rewrite He' at 1. apply G_mono; try assumption.
      pose proof (Z.pow_nonneg 2 (ey - c) ltac:(lia)). nia.
Qed.

(** A sum is not below the number it starts from. *)
Lemma total_ge_start (ds : list spec_float) :
  Forall good ds ->
  forall a, good a ->
    good (fold_left Num.add ds a) /\ SFleb a (fold_left Num.add ds a) = true.
Proof.
  induction 1 as [|d ds Hd _ IH]; intros a Ha; cbn [fold_left].
  - split; [exact Ha|apply leb_refl_good, Ha].
  - destruct (IH (Num.add a d) (add_good a d Ha Hd)) as [G1 L1].
    split; [exact G1|].
    apply (leb_trans_good a (Num.add a d)); auto using add_good, add_ge_l.
Qed.

(** The table of delays, each between 60 and 900 milliseconds and each a
    part of a second that [Math.ceil] rounds up to 1, and the four delays of
    a rate in the order of their multipliers. *)
Lemma delays_bounds_table :
  forallb (fun rate =>
    let d m := Num.mul (PaceSpec.base rate) m in
    forallb (fun m =>
               Num.leb (Num.ofZ 60) (d m) && Num.leb (d m) (Num.ofZ 900)
               && SFeqb (Num.ceil (Num.div (d m) (Num.ofZ 1000))) (Num.ofZ 1))
            PaceSpec.multipliers
    && Num.leb (d (Num.decimal 10 10)) (d (Num.decimal 11 10))
    && Num.leb (d (Num.decimal 11 10)) (d (Num.decimal 12 10))
    && Num.leb (d (Num.decimal 12 10)) (d (Num.decimal 15 10)))
    PaceSpec.rates = true.
Proof. vm_compute. reflexivity. Qed.

Lemma eqb_finite_eq (x : spec_float) (m : positive) (e : Z) :
  SFeqb x (S754_finite false m e) = true -> x = S754_finite false m e.
Proof.
  unfold SFeqb, SFcompare.
  destruct x as [[|]|[|]| |[|] mx ex]; try discriminate.
  destruct (Z.compare_spec ex e) as [->|H|H]; try discriminate.
  fold (Pos.compare mx m).
  destruct (Pos.compare_spec mx m) as [->|H|H]; try discriminate. reflexivity.
Qed.

Lemma delay_table_entry (rate : Z) (w : jsstring) :
  100 <= rate <= 1000 ->
  let d m := Num.mul (PaceSpec.base rate) m in
  (Num.leb (Num.ofZ 60) (getWordDelay rate w) = true
   /\ Num.leb (getWordDelay rate w) (Num.ofZ 900) = true
   /\ Num.ceil (Num.div (getWordDelay rate w) (Num.ofZ 1000)) = Num.ofZ 1)
  /\ Num.leb (d (Num.decimal 10 10)) (d (Num.decimal 11 10)) = true
  /\ Num.leb (d (Num.decimal 11 10)) (d (Num.decimal 12 10)) = true
  /\ Num.leb (d (Num.decimal 12 10)) (d (Num.decimal 15 10)) = true.
Proof.
  intros Hr d. pose proof delays_bounds_table as H.
  rewrite forallb_forall in H. specialize (H rate (rate_in_rates rate Hr)).
  cbv zeta in H. fold d in H.
  apply andb_prop in H as [H H4]. apply andb_prop in H as [H H3].
  apply andb_prop in H as [H H2].
  rewrite forallb_forall in H.
  specialize (H _ (multiplier_in_table w)).
  apply andb_prop in H as [H Hc]. apply andb_prop in H as [Hlo Hhi].
  rewrite getWordDelay_delay. unfold PaceSpec.delay. fold (d (PaceSpec.multiplier w)).
  repeat split; try assumption.
  apply eqb_finite_eq in Hc. exact Hc.
Qed.

(** X8: at every rate of [100, 1000] the delay of a unit lies between 60 and
    900 milliseconds; punctuation never shortens it: it is at least the delay
    of a plain unit and at most that of a unit ending a sentence. *)
Theorem getWordDelay_bounds (rate : Z) (w : jsstring) :
  100 <= rate <= 1000 ->
  Num.leb (Num.ofZ 60) (getWordDelay rate w) = true
  /\ Num.leb (getWordDelay rate w) (Num.ofZ 900) = true
  /\ Num.leb (getWordDelay rate (lit "plain")) (getWordDelay rate w) = true
  /\ Num.leb (getWordDelay rate w) (getWordDelay rate (lit "end.")) = true.
Proof.
  intros Hr.
  destruct (delay_table_entry rate w Hr) as ((Hlo & Hhi & _) & H1 & H2 & H3).
  split; [exact Hlo|]. split; [exact Hhi|].
  set (d m := Num.mul (PaceSpec.base rate) m) in *.
  assert (Hg : forall m, In m PaceSpec.multipliers -> good (d m)).
  { intros m Hm. apply positive_good.
    pose proof delays_positive_table as H.
    rewrite forallb_forall in H. specialize (H rate (rate_in_rates rate Hr)).
    rewrite forallb_forall in H. apply H, Hm. }
  assert (G10 : good (d (Num.decimal 10 10))) by (apply Hg; simpl; tauto).
  assert (G11 : good (d (Num.decimal 11 10))) by (apply Hg; simpl; tauto).
  assert (G12 : good (d (Num.decimal 12 10))) by (apply Hg; simpl; tauto).
  assert (G15 : good (d (Num.decimal 15 10))) by (apply Hg; simpl; tauto).
  assert (H13 : SFleb (d (Num.decimal 10 10)) (d (Num.decimal 12 10)) = true)
    by (apply (leb_trans_good _ (d (Num.decimal 11 10))); assumption).
  assert (H14 : SFleb (d (Num.decimal 10 10)) (d (Num.decimal 15 10)) = true)
    by (apply (leb_trans_good _ (d (Num.decimal 12 10))); assumption).
  assert (H24 : SFleb (d (Num.decimal 11 10)) (d (Num.decimal 15 10)) = true)
    by (apply (leb_trans_good _ (d (Num.decimal 12 10))); assumption).
  change (getWordDelay rate (lit "plain")) with (d (Num.decimal 10 10)).
  change (getWordDelay rate (lit "end.")) with (d (Num.decimal 15 10)).
  rewrite getWordDelay_delay. unfold PaceSpec.delay. fold (d (PaceSpec.multiplier w)).
  pose proof (multiplier_in_table w) as Hin.
  unfold PaceSpec.multipliers in Hin. simpl in Hin.
  destruct Hin as [<-|[<-|[<-|[<-|[]]]]]; split;
    try assumption; apply leb_refl_good; assumption.
Qed.

Lemma getWordDelay_bounds_witness :
  100 <= 450 <= 1000
  /\ (Num.leb (Num.ofZ 60) (getWordDelay 450 (lit "so;")) = true
      /\ Num.leb (getWordDelay 450 (lit "so;")) (Num.ofZ 900) = true
      /\ Num.leb (getWordDelay 450 (lit "plain")) (getWordDelay 450 (lit "so;")) = true
      /\ Num.leb (getWordDelay 450 (lit "so;")) (getWordDelay 450 (lit "end.")) = true).
Proof.
  split; [lia|]. apply (getWordDelay_bounds 450 (lit "so;")). lia.
Defined.

(** The delays of one rate are not below those of the next rate. *)
Lemma delays_next_rate_table :
  forallb (fun rate =>
    forallb (fun m => Num.leb (Num.mul (PaceSpec.base (rate + 1)) m)
                              (Num.mul (PaceSpec.base rate) m))
            PaceSpec.multipliers)
    (map Z.of_nat (seq 100 900)) = true.
Proof. vm_compute. reflexivity. Qed.

(** X9: a higher rate never gives a longer delay: for two rates of
    [100, 1000] the delay of a unit at the higher rate is at most its delay at
    the lower one. *)
Theorem getWordDelay_antitone (rate rate' : Z) (w : jsstring) :
  100 <= rate -> rate <= rate' -> rate' <= 1000 ->
  Num.leb (getWordDelay rate' w) (getWordDelay rate w) = true.
Proof.
  intros Hlo Hle Hhi.
  replace rate' with (rate + Z.of_nat (Z.to_nat (rate' - rate))) in * by lia.
  induction (Z.to_nat (rate' - rate)) as [|k IH].
  - rewrite Z.add_0_r. apply leb_refl_good, delay_good. lia.
  - assert (Hk : 100 <= rate + Z.of_nat k <= 999) by lia.
    apply (leb_trans_good _ (getWordDelay (rate + Z.of_nat k) w));
      try (apply delay_good; lia); [|apply IH; lia].
    replace (rate + Z.of_nat (S k)) with (rate + Z.of_nat k + 1) by lia.
    rewrite !getWordDelay_delay. unfold PaceSpec.delay.
    pose proof delays_next_rate_table as H.
    rewrite forallb_forall in H.
    assert (Hin : In (rate + Z.of_nat k) (map Z.of_nat (seq 100 900))).
    { rewrite <- (Z2Nat.id (rate + Z.of_nat k)) by lia. apply in_map, in_seq. lia. }
    specialize (H _ Hin). rewrite forallb_forall in H.
    apply H, multiplier_in_table.
Qed.

Lemma getWordDelay_antitone_witness :
  100 <= 250 /\ 250 <= 300 /\ 300 <= 1000
  /\ Num.leb (getWordDelay 300 (lit "word,")) (getWordDelay 250 (lit "word,")) = true.
Proof.
  split; [lia|]. split; [lia|]. split; [lia|].
  apply (getWordDelay_antitone 250 300 (lit "word,")); lia.
Defined.

(** With a unit left, the seconds left are at least one. *)
Lemma remaining_at_least_one (rate : Z) (next : jsstring) (later : list jsstring) :
  100 <= rate <= 1000 ->
  Num.leb (Num.ofZ 1)
          (Num.ceil (Num.div (totalMs rate (next :: later)) (Num.ofZ 1000)))
  = true.
Proof.
  intros Hr. unfold totalMs. cbn [fold_left].
  rewrite add_zero_positive by (apply delay_positive, Hr).
  rewrite fold_delays.
  assert (Hds : Forall good (map (fun u => PaceSpec.delay u rate) later)).
  { apply Forall_forall. intros d Hd. apply in_map_iff in Hd as (u & <- & _).
    rewrite <- getWordDelay_delay. apply delay_good, Hr. }
  destruct (total_ge_start _ Hds (getWordDelay rate next) (delay_good rate next Hr))
    as [Gt Hle].
  destruct (delay_table_entry rate next Hr) as ((_ & _ & Hone) & _).
  rewrite <- Hone.
  change (Num.ofZ 1000) with (S754_finite false 8796093022208000 (-43)).
  apply ceil_mono; [apply div_good, delay_good, Hr|apply div_good, Gt|].
  apply div_mono; [apply delay_good, Hr|exact Gt|exact Hle].
Qed.

(** ** The controller at work *)

Lemma reachable_atSecondOfFour : reachable atSecondOfFour.
Proof. apply reachable_run; [repeat constructor|apply reach_initial]. Qed.

Lemma leb_one_positive (r : spec_float) :
  Num.leb (Num.ofZ 1) r = true -> Num.ltb (Num.ofZ 0) r = true.
Proof. destruct r as [[|]|[|]| |[|] m e]; simpl; intros H; try discriminate; reflexivity. Qed.

Lemma no_words_position (s : state) :
  reachable s -> words s = [] -> currentIndex s = 0.
Proof.
  revert s.
  apply (reachable_invariant (fun s => words s = [] -> currentIndex s = 0));
    [reflexivity|].
  intros e s _ Inv.
  destruct e; unfold_handlers; split_tests; cbn [words currentIndex];
    auto; try congruence.
  intros E. unfold wordTimerArmed in *. rewrite E in *.
  unfold len in *. simpl in *. rewrite andb_false_r in *. discriminate.
Qed.

(** X10: the page shows the time left under the test
    [remainingSeconds > 0]; the test holds exactly while units remain after
    the current one, and the time left is then at least one second.  So a time
    left is shown on every unit but the last. *)
Theorem time_left_iff_units_left (s : state) :
  reachable s ->
  (Num.ltb (Num.ofZ 0) (remainingSeconds s) = true
   <-> currentIndex s + 1 < len (words s))
  /\ (currentIndex s + 1 < len (words s) ->
      Num.leb (Num.ofZ 1) (remainingSeconds s) = true).
Proof.
  intros Hs.
  pose proof (reachable_rateInRange s Hs) as Hrate.
  pose proof (reachable_positionInRange s Hs) as Hpos.
  assert (Hone : currentIndex s + 1 < len (words s) ->
                 Num.leb (Num.ofZ 1) (remainingSeconds s) = true).
  { intros Hlt.
    assert (Hne : words s <> []).
    { intros E. rewrite (no_words_position s Hs E), E in Hlt.
      unfold len in Hlt. simpl in Hlt. lia. }
    specialize (Hpos Hne).
    unfold remainingSeconds. rewrite calculateRemainingTime_total by lia.
    destruct (index (words s) (currentIndex s + 1)) as [next|] eqn:Hn.
    - rewrite (sliceFrom_next _ _ next) by (try lia; exact Hn).
      apply remaining_at_least_one, Hrate.
    - rewrite index_nth in Hn by lia. apply nth_error_None in Hn.
      unfold len in Hlt. lia. }
  split; [|exact Hone]. split.
  - intros Hpos0.
    destruct (Z.lt_ge_cases (currentIndex s + 1) (len (words s))) as [Hlt|Hge];
      [exact Hlt|].
    unfold remainingSeconds, calculateRemainingTime in Hpos0.
    replace (currentIndex s >=? len (words s) - 1) with true in Hpos0
      by (symmetry; apply Z.geb_le; lia).
    rewrite orb_true_r in Hpos0. discriminate Hpos0.
  - intros Hlt. apply leb_one_positive, Hone, Hlt.
Qed.

Lemma time_left_iff_units_left_witness :
  reachable atSecondOfFour
  /\ (Num.ltb (Num.ofZ 0) (remainingSeconds atSecondOfFour) = true
      <-> currentIndex atSecondOfFour + 1 < len (words atSecondOfFour))
  /\ (currentIndex atSecondOfFour + 1 < len (words atSecondOfFour) ->
      Num.leb (Num.ofZ 1) (remainingSeconds atSecondOfFour) = true).
Proof.
  split; [exact reachable_atSecondOfFour|].
  apply (time_left_iff_units_left atSecondOfFour reachable_atSecondOfFour).
Defined.

Lemma run_cons (e : event) (es : list event) (s : state) :
  run (e :: es) s = run es (step e s).
Proof. reflexivity. Qed.

(** X11: a countdown that is running shows 3, 2, 1 or 0. *)
Theorem countdown_in_range (s : state) :
  reachable s ->
  match countdown s with
  | Some n => 0 <= n <= 3
  | None => True
  end.
Proof.
  revert s. apply reachable_invariant; [exact I|].
  intros e [text ws i playing rate cd] _ Inv. cbn [countdown] in Inv.
  destruct e; unfold_handlers;
    cbn [countdown inputText words currentIndex isPlaying speed];
    repeat match goal with
           | |- context [if ?b then _ else _] => destruct b eqn:?
           | |- context [match cd with _ => _ end] => destruct cd as [n|]
           end;
    cbn [countdown]; try exact I; try exact Inv; lia.
Qed.

Lemma reachable_countingDown : reachable countingDown.
Proof. apply reachable_run; [repeat constructor|apply reach_initial]. Qed.

Lemma countdown_in_range_witness :
  reachable countingDown
  /\ match countdown countingDown with
     | Some n => 0 <= n <= 3
     | None => True
     end.
Proof.
  split; [exact reachable_countingDown|].
  apply (countdown_in_range countingDown reachable_countingDown).
Defined.

(** X12: waiting out a countdown (its timer firing once per remaining second,
    then the branch at zero) leaves the component in the state that skipping it,
    by a click on the overlay or the space key, gives at once. *)
Theorem countdown_wait_is_skip (s : state) (n : Z) :
  countdown s = Some n -> 0 <= n ->
  run (repeat CountdownTimer (Z.to_nat n) ++ [CountdownZero]) s = step ClickCountdown s
  /\ step KeySpace s = step ClickCountdown s.
Proof.
  intros Hcd Hn. split.
  - remember (Z.to_nat n) as k eqn:Hk. revert s n Hcd Hn Hk.
    induction k as [|k IH]; intros s n Hcd Hn Hk.
    + assert (n = 0) by lia. subst n. cbn [repeat app]. unfold run. cbn [fold_left].
      unfold step, countdownZero. rewrite Hcd. reflexivity.
    + cbn [repeat app]. rewrite run_cons.
      assert (Hstep : step CountdownTimer s = setCountdown (Some (n - 1)) s).
      { unfold step, countdownTick. rewrite Hcd.
        replace (n >? 0) with true by (symmetry; lia). reflexivity. }
      rewrite Hstep. rewrite (IH _ (n - 1)); [reflexivity|reflexivity|lia|lia].
  - unfold step, keySpace. rewrite Hcd. reflexivity.
Qed.

Lemma countdown_wait_is_skip_witness :
  countdown countingDown = Some 3 /\ 0 <= 3
  /\ run (repeat CountdownTimer (Z.to_nat 3) ++ [CountdownZero]) countingDown
     = step ClickCountdown countingDown
  /\ step KeySpace countingDown = step ClickCountdown countingDown.
Proof.
  assert (H : countdown countingDown = Some 3) by reflexivity.
  split; [exact H|]. split; [lia|].
  apply (countdown_wait_is_skip countingDown 3 H). lia.
Defined.

Lemma set_index_same (s : state) : setCurrentIndex (currentIndex s) s = s.
Proof. destruct s. reflexivity. Qed.

Lemma wordTimer_advances (s : state) :
  isPlaying s = true -> 0 <= currentIndex s -> currentIndex s < len (words s) - 1 ->
  step WordTimer s = setCurrentIndex (currentIndex s + 1) s.
Proof.
  intros Hp H0 H1. unfold step, wordTimerFired, wordTimerArmed. rewrite Hp.
  replace (len (words s) >? 0) with true by (symmetry; lia).
  replace (currentIndex s <? len (words s)) with true by (symmetry; lia).
  replace (currentIndex s >=? len (words s) - 1) with false by (symmetry; lia).
  reflexivity.
Qed.

Lemma wordTimer_stops (s : state) :
  isPlaying s = true -> 0 <= currentIndex s -> currentIndex s = len (words s) - 1 ->
  step WordTimer s = setIsPlaying false s.
Proof.
  intros Hp H0 H1. unfold step, wordTimerFired, wordTimerArmed. rewrite Hp.
  replace (len (words s) >? 0) with true by (symmetry; lia).
  replace (currentIndex s <? len (words s)) with true by (symmetry; lia).
  replace (currentIndex s >=? len (words s) - 1) with true by (symmetry; lia).
  reflexivity.
Qed.

Lemma wordTimer_idle (s : state) : isPlaying s = false -> step WordTimer s = s.
Proof.
  intros Hp. unfold step, wordTimerFired, wordTimerArmed. rewrite Hp. reflexivity.
Qed.

Lemma wordTimers_idle (k : nat) (s : state) :
  isPlaying s = false -> run (repeat WordTimer k) s = s.
Proof.
  intros Hp. induction k as [|k IH]; [reflexivity|].
  cbn [repeat]. rewrite run_cons, wordTimer_idle by exact Hp. exact IH.
Qed.

(** X13: a playing session left to its per-word timer shows the units one
    after the other: after [k] firings it is [k] units further on, as long as
    that is within the sequence; the firing on the last unit stops playback
    there, and later firings change nothing. *)
Theorem playback_runs_to_the_end (s : state) (k : nat) :
  isPlaying s = true -> 0 <= currentIndex s < len (words s) ->
  run (repeat WordTimer k) s =
    if Z.of_nat k <=? len (words s) - 1 - currentIndex s
    then setCurrentIndex (currentIndex s + Z.of_nat k) s
    else setIsPlaying false (setCurrentIndex (len (words s) - 1) s).
Proof.
  revert s. induction k as [|k IH]; intros s Hp Hi.
  - cbn [repeat]. unfold run at 1. cbn [fold_left].
    replace (Z.of_nat 0 <=? len (words s) - 1 - currentIndex s) with true
      by (symmetry; apply Z.leb_le; lia).
    rewrite Z.add_0_r, set_index_same. reflexivity.
  - cbn [repeat]. rewrite run_cons.
    destruct (Z.eq_dec (currentIndex s) (len (words s) - 1)) as [Hlast|Hmore].
    + rewrite wordTimer_stops by (try assumption; lia).
      rewrite wordTimers_idle by reflexivity.
      replace (Z.of_nat (S k) <=? len (words s) - 1 - currentIndex s) with false
        by (symmetry; apply Z.leb_gt; lia).
      rewrite <- Hlast, set_index_same. reflexivity.
    + rewrite wordTimer_advances by (try assumption; lia).
      rewrite IH by (cbn [isPlaying currentIndex words setCurrentIndex];
                     unfold setCurrentIndex; cbn; try assumption; lia).
      unfold setCurrentIndex, setIsPlaying.
      cbn [inputText words currentIndex isPlaying speed countdown].
      destruct (Z.of_nat k <=? len (words s) - 1 - (currentIndex s + 1)) eqn:E1;
        destruct (Z.of_nat (S k) <=? len (words s) - 1 - currentIndex s) eqn:E2;
        first [apply Z.leb_le in E1 | apply Z.leb_gt in E1];
        first [apply Z.leb_le in E2 | apply Z.leb_gt in E2];
        try lia; try reflexivity.
      f_equal. lia.
Qed.

Lemma playback_runs_to_the_end_witness :
  isPlaying atFirstOfThree = true
  /\ 0 <= currentIndex atFirstOfThree < len (words atFirstOfThree)
  /\ run (repeat WordTimer 5) atFirstOfThree
     = if Z.of_nat 5 <=? len (words atFirstOfThree) - 1 - currentIndex atFirstOfThree
       then setCurrentIndex (currentIndex atFirstOfThree + Z.of_nat 5) atFirstOfThree
       else setIsPlaying false
              (setCurrentIndex (len (words atFirstOfThree) - 1) atFirstOfThree).
Proof.
  assert (Hp : isPlaying atFirstOfThree = true) by reflexivity.
  assert (Hi : 0 <= currentIndex atFirstOfThree < len (words atFirstOfThree))
    by (vm_compute; split; [discriminate|reflexivity]).
  split; [exact Hp|]. split; [exact Hi|].
  apply (playback_runs_to_the_end atFirstOfThree 5 Hp Hi).
Defined.



(** ** What the display shows *)

Lemma parseText_units (text : jsstring) : Forall isUnit (parseText text).
Proof.
  rewrite parseText_runs. unfold TokSpec.tokenize.
  apply (runs_words text []). reflexivity.
Qed.

Lemma reachable_words_units (s : state) : reachable s -> Forall isUnit (words s).
Proof.
  revert s. apply reachable_invariant; [constructor|].
  intros e s _ Inv.
  destruct e; unfold_handlers; split_tests; cbn [words];
    first [exact Inv | apply parseText_units | apply Forall_nil].
Qed.

Lemma splitWord_concat (w : jsstring) :
  before (splitWord w) ++ focal (splitWord w) ++ after (splitWord w) = w.
Proof.
  destruct (splitWord_shape w) as [[_ E]|[_ (p & c & _ & _ & E & _)]];
    rewrite E; apply cut_concat.
Qed.

Lemma splitWord_focal_length (w : jsstring) :
  w <> [] -> length (focal (splitWord w)) = 1%nat.
Proof.
  intros Hne.
  destruct (splitWord_shape w) as [[_ E]|[_ (p & c & _ & _ & E & Hc & _ & _)]];
    rewrite E; unfold SplitSpec.cut, SplitSpec.charAt; cbn [focal].
  - destruct (nth_error w (length w / 2)) eqn:Hn; [reflexivity|].
    apply nth_error_None in Hn.
    assert (0 < length w)%nat by (destruct w; [contradiction|simpl; lia]).
    pose proof (Nat.div_lt (length w) 2). lia.
  - rewrite Hc. reflexivity.
Qed.

(** X15: whenever a sequence is loaded, the display shows the unit at the
    current position: a unit of the sequence, not empty and free of whitespace
    and hyphens, split into three parts that concatenate to it, the focal part
    being exactly one character. *)
Theorem display_shows_current_unit (s : state) :
  reachable s -> words s <> [] ->
  exists w,
    index (words s) (currentIndex s) = Some w
    /\ isUnit w
    /\ currentWord s = w
    /\ wordParts s = splitWord w
    /\ before (wordParts s) ++ focal (wordParts s) ++ after (wordParts s) = w
    /\ length (focal (wordParts s)) = 1%nat.
Proof.
  intros Hs Hne.
  pose proof (reachable_positionInRange s Hs Hne) as Hi.
  pose proof (reachable_words_units s Hs) as Hu.
  destruct (nth_error (words s) (Z.to_nat (currentIndex s))) as [w|] eqn:Hn.
  2:{ apply nth_error_None in Hn. unfold len in Hi. lia. }
  exists w.
  assert (Hw : isUnit w).
  { rewrite Forall_forall in Hu. apply Hu. eapply nth_error_In, Hn. }
  assert (Hidx : index (words s) (currentIndex s) = Some w).
  { rewrite index_nth by lia. exact Hn. }
  assert (Ht : truthy w = true).
  { destruct Hw as [Hw _]. destruct w; [contradiction|reflexivity]. }
  assert (Hcur : currentWord s = w).
  { unfold currentWord. rewrite Hidx, Ht. reflexivity. }
  assert (Hparts : wordParts s = splitWord w).
  { unfold wordParts. rewrite Hcur, Ht. reflexivity. }
  repeat split; try assumption; try apply Hw.
  - rewrite Hparts. apply splitWord_concat.
  - rewrite Hparts. apply splitWord_focal_length, Hw.
Qed.

Lemma display_shows_current_unit_witness :
  reachable atSecondOfFour /\ words atSecondOfFour <> []
  /\ exists w,
       index (words atSecondOfFour) (currentIndex atSecondOfFour) = Some w
       /\ isUnit w
       /\ currentWord atSecondOfFour = w
       /\ wordParts atSecondOfFour = splitWord w
       /\ before (wordParts atSecondOfFour) ++ focal (wordParts atSecondOfFour)
            ++ after (wordParts atSecondOfFour) = w
       /\ length (focal (wordParts atSecondOfFour)) = 1%nat.
Proof.
  assert (Hne : words atSecondOfFour <> []) by (vm_compute; discriminate).
  split; [exact reachable_atSecondOfFour|]. split; [exact Hne|].
  apply (display_shows_current_unit atSecondOfFour reachable_atSecondOfFour Hne).
Defined.

(** ** The rate under the arrow keys *)

Lemma sliderValue_stop (v : Z) :
  sliderValue v = true <-> exists k, 0 <= k <= 18 /\ v = 100 + 50 * k.
Proof.
  unfold sliderValue. split.
  - intros H. apply andb_prop in H as [H Hm]. apply andb_prop in H as [Hlo Hhi].
    apply Z.eqb_eq in Hm. apply Z.leb_le in Hlo, Hhi.
    exists ((v - 100) / 50).
    pose proof (Z.div_mod (v - 100) 50 ltac:(lia)) as Hd. lia.
  - intros (k & Hk & ->).
    replace (100 + 50 * k - 100) with (k * 50) by lia.
    rewrite Z.mod_mul by lia.
    apply andb_true_intro; split; [apply andb_true_intro; split|];
      [apply Z.leb_le; lia|apply Z.leb_le; lia|reflexivity].
Qed.

Lemma reachableFromPage_reachable (s : state) : reachableFromPage s -> reachable s.
Proof.
  induction 1 as [|e s _ IH He]; [apply reach_initial|].
  apply reach_step; [exact IH|]. destruct e; try exact I. exact He.
Qed.

(** X16: with the arrow keys changing the rate by 50 and the sliders
    reporting their stops, the rate is always one of the nineteen stops
    100, 150, ..., 1000 of the sliders, so the sliders can show it. *)
Theorem rate_stays_on_slider_stops (s : state) :
  reachableFromPage s -> sliderValue (speed s) = true.
Proof.
  induction 1 as [|e s _ IH He]; [reflexivity|].
  destruct e; unfold_handlers; split_tests; cbn [speed]; try exact IH.
  - apply sliderValue_stop in IH as (k & Hk & E). rewrite E.
    apply sliderValue_stop. cbn [fromPage] in He.
    destruct He as [-> | ->].
    + exists (Z.max 0 (k - 1)). lia.
    + exists (Z.min 18 (k + 1)). lia.
  - exact He.
Qed.

Lemma rate_stays_on_slider_stops_witness :
  reachableFromPage rateMoved /\ sliderValue (speed rateMoved) = true.
Proof.
  assert (H : reachableFromPage rateMoved).
  { unfold rateMoved, run. cbn [fold_left].
    repeat (apply page_step; [|cbn [fromPage]; first [reflexivity | lia]]).
    apply page_initial. }
  split; [exact H|]. apply (rate_stays_on_slider_stops rateMoved H).
Defined.

Lemma speed_adjust (delta : Z) (s : state) :
  speed (step (AdjustSpeed delta) s) = Z.max 100 (Z.min 1000 (speed s + delta)).
Proof. reflexivity. Qed.

(** X17: from a rate of the range, [k] presses of the right arrow raise the
    rate by [50 * k] up to 1000 and no further, [k] presses of the left arrow
    lower it by [50 * k] down to 100 and no further; the presses change
    nothing else. *)
Theorem arrow_keys_saturate (s : state) (k : nat) :
  rateInRange s ->
  run (repeat (AdjustSpeed 50) k) s
    = setSpeed (Z.min 1000 (speed s + 50 * Z.of_nat k)) s
  /\ run (repeat (AdjustSpeed (-50)) k) s
    = setSpeed (Z.max 100 (speed s - 50 * Z.of_nat k)) s.
Proof.
  unfold rateInRange. revert s. induction k as [|k IH]; intros s Hr.
  - cbn [repeat]. unfold run. cbn [fold_left].
    replace (Z.min 1000 (speed s + 50 * Z.of_nat 0)) with (speed s) by lia.
    replace (Z.max 100 (speed s - 50 * Z.of_nat 0)) with (speed s) by lia.
    destruct s; split; reflexivity.
  - cbn [repeat]. rewrite !run_cons.
    destruct (IH (step (AdjustSpeed 50) s)) as [Hup _];
      [rewrite speed_adjust; lia|].
    destruct (IH (step (AdjustSpeed (-50)) s)) as [_ Hdown];
      [rewrite speed_adjust; lia|].
    rewrite Hup, Hdown, !speed_adjust.
    unfold step, adjustSpeed, setSpeed.
    cbn [inputText words currentIndex isPlaying speed countdown].
    split; f_equal; lia.
Qed.

Lemma arrow_keys_saturate_witness :
  rateInRange initial
  /\ run (repeat (AdjustSpeed 50) 20) initial
     = setSpeed (Z.min 1000 (speed initial + 50 * Z.of_nat 20)) initial
  /\ run (repeat (AdjustSpeed (-50)) 20) initial
     = setSpeed (Z.max 100 (speed initial - 50 * Z.of_nat 20)) initial.
Proof.
  assert (H : rateInRange initial) by (unfold rateInRange; cbn; lia).
  split; [exact H|]. apply (arrow_keys_saturate initial 20 H).
Defined.

(** ** A text without units *)

Lemma parseText_allDelim (text : jsstring) : allDelim text -> parseText text = [].
Proof.
  intros H. rewrite parseText_runs. unfold TokSpec.tokenize.
  apply runs_nil_iff. split; [reflexivity|exact H].
Qed.

(** X18: a text of hyphens (with or without whitespace around them) passes
    the test of "Start Reading", which looks at whitespace only, and yields no
    unit.  Once its countdown is over the component is playing an empty
    sequence: no reading display, "Start Reading" disabled, the per-word timer,
    the space key and a click on the display without effect; "Stop" ends
    it. *)
Theorem start_without_units (s : state) :
  truthy (Tok.trim (inputText s)) = true -> allDelim (inputText s) ->
  let s' := run [ClickStart; ClickCountdown] s in
  words s' = [] /\ isPlaying s' = true /\ countdown s' = None
  /\ hasStartedReading s' = false /\ startDisabled s' = true
  /\ step WordTimer s' = s' /\ step KeySpace s' = s' /\ step ClickDisplay s' = s'
  /\ isPlaying (step ClickStop s') = false.
Proof.
  intros Ht Hd s'.
  assert (E : s' = setIsPlaying true (setCountdown None
                (setCountdown (Some 3) (setIsPlaying false
                  (setCurrentIndex 0 (setWords [] s)))))).
  { unfold s', run. cbn [fold_left]. unfold step at 2, handleStart.
    rewrite Ht, (parseText_allDelim _ Hd). reflexivity. }
  rewrite E. repeat split.
Qed.

Lemma start_without_units_witness :
  truthy (Tok.trim (inputText hyphensTyped)) = true
  /\ allDelim (inputText hyphensTyped)
  /\ let s' := run [ClickStart; ClickCountdown] hyphensTyped in
     words s' = [] /\ isPlaying s' = true /\ countdown s' = None
     /\ hasStartedReading s' = false /\ startDisabled s' = true
     /\ step WordTimer s' = s' /\ step KeySpace s' = s' /\ step ClickDisplay s' = s'
     /\ isPlaying (step ClickStop s') = false.
Proof.
  assert (Ht : truthy (Tok.trim (inputText hyphensTyped)) = true) by reflexivity.
  assert (Hd : allDelim (inputText hyphensTyped)) by reflexivity.
  split; [exact Ht|]. split; [exact Hd|].
  apply (start_without_units hyphensTyped Ht Hd).
Defined.

(** ** The progress shown *)

Lemma rne_zero (D : Z) : 0 < D -> rne 0 D = 0.
Proof.
  intros HD. unfold rne. rewrite Z.mod_0_l, Z.div_0_l by lia.
  change (2 * 0) with 0.
  destruct (0 ?= D) eqn:E; try reflexivity.
  apply Z.compare_gt_iff in E. lia.
Qed.

Lemma G_zero (c : Z) : c <= -1074 -> S754_zero false = G 0 1 c /\ pre 0 1 c.
Proof.
  intros Hc.
  assert (Hp : pre 0 1 c).
  { unfold pre, expOf. rewrite Z.div_1_r. cbn [Zdigits2]. rewrite fexp_eq. lia. }
  split; [|exact Hp].
  rewrite G_char by exact Hp.
  pose proof (expOf_min 0 1 c) as Hmin.
  rewrite rne_zero by (apply Z.mul_pos_pos; [lia|apply Z.pow_pos_nonneg; lia]).
  rewrite out_small by lia. reflexivity.
Qed.

(** The number of an integer that is not negative, as a rounding. *)
Lemma ofZ_G (z c : Z) :
  0 <= z -> c <= -1074 ->
  Num.ofZ z = G (z * 2 ^ (- c)) 1 c /\ pre (z * 2 ^ (- c)) 1 c.
Proof.
  intros Hz Hc. destruct z as [|p|p]; try lia.
  - rewrite Z.mul_0_l. apply G_zero, Hc.
  - unfold Num.ofZ. cbn [binary_normalize].
    destruct (round_at p 0 c ltac:(lia) Hc) as [Hr Hp].
    rewrite Z.sub_0_l in Hr, Hp. split; assumption.
Qed.

Lemma ofZ_good (z : Z) : 0 <= z -> good (Num.ofZ z).
Proof.
  intros Hz. destruct (ofZ_G z (-1074) Hz ltac:(lia)) as [-> Hp].
  apply G_good, Hp.
Qed.

Lemma ofZ_mono (z z' : Z) :
  0 <= z <= z' -> SFleb (Num.ofZ z) (Num.ofZ z') = true.
Proof.
  intros Hz.
  destruct (ofZ_G z (-1074) ltac:(lia) ltac:(lia)) as [-> Hp].
  destruct (ofZ_G z' (-1074) ltac:(lia) ltac:(lia)) as [-> Hp'].
  apply G_mono; try assumption.
  apply Z.mul_le_mono_nonneg_r; [apply Z.pow_nonneg|]; lia.
Qed.

(** A count from 1 to 2^53 is a finite number of the format. *)
Lemma ofZ_finite (z : Z) :
  1 <= z <= 2 ^ 53 ->
  exists m e, Num.ofZ z = S754_finite false m e
              /\ bounded Num.prec Num.emax m e = true.
Proof.
  intros Hz.
  pose proof (ofZ_good z ltac:(lia)) as Hg.
  pose proof (ofZ_mono 1 z ltac:(lia)) as H1.
  pose proof (ofZ_mono z (2 ^ 53) ltac:(lia)) as H2.
  destruct (Num.ofZ z) as [[|]|[|]| |[|] m e]; cbn [good] in Hg; try easy.
  exists m, e. split; [reflexivity|apply Hg].
Qed.

(** [G] depends on the quotient only. *)
Lemma G_cancel (k N D e : Z) : 0 < k -> 0 < D -> G (k * N) (k * D) e = G N D e.
Proof.
  intros Hk HD. unfold G, locOf.
  rewrite Z.div_mul_cancel_l, Z.mul_mod_distr_l by lia.
  replace (k * (N mod D) =? 0) with (N mod D =? 0)
    by (destruct (Z.eqb_spec (N mod D) 0), (Z.eqb_spec (k * (N mod D)) 0); nia).
  replace (2 * (k * (N mod D))) with (k * (2 * (N mod D))) by ring.
  rewrite compare_scale by exact Hk. reflexivity.
Qed.

(** A number divided by itself is one. *)
Lemma div_self (m : positive) (e : Z) :
  Num.div (S754_finite false m e) (S754_finite false m e) = Num.ofZ 1.
Proof.
  destruct (div_G m m e e (-1074) ltac:(lia) ltac:(lia)) as [-> _].
  destruct (ofZ_G 1 (-1074) ltac:(lia) ltac:(lia)) as [-> _].
  replace (e - e - -1074) with (- -1074) by lia.
  rewrite <- (Z.mul_1_r (Z.pos m)) at 2.
  rewrite G_cancel by lia. rewrite Z.mul_1_l. reflexivity.
Qed.

(** The product with a number of 53 digits. *)
Lemma mul_G (mx my : positive) (ex ey c : Z) :
  Zpos (digits2_pos my) = 53 -> c <= ex + ey ->
  Num.mul (S754_finite false mx ex) (S754_finite false my ey)
  = G (2 ^ (ex + ey - c) * (Zpos mx * Zpos my)) 1 c
  /\ pre (2 ^ (ex + ey - c) * (Zpos mx * Zpos my)) 1 c.
Proof.
  intros Hd Hc. unfold Num.mul, SFmul. cbn [xorb].
  rewrite G_of_integer, Pos2Z.inj_mul.
  assert (Hp : pre (Zpos mx * Zpos my) 1 (ex + ey)).
  { unfold pre, expOf. rewrite Z.div_1_r, fexp_eq.
    assert (Zdigits2 (Zpos my) <= Zdigits2 (Zpos mx * Zpos my))
      by (apply Zdigits2_mono; nia).
    change (Zdigits2 (Zpos my)) with (Zpos (digits2_pos my)) in H. lia. }
  destruct (G_scale_pow _ 1 (ex + ey) (ex + ey - c) ltac:(lia) Hp) as [Hp' Hg].
  replace (ex + ey - (ex + ey - c)) with c in * by lia.
  split; [symmetry; exact Hg|exact Hp'].
Qed.

Lemma mul_good (x : spec_float) (my : positive) (ey : Z) :
  Zpos (digits2_pos my) = 53 ->
  good x -> good (Num.mul x (S754_finite false my ey)).
Proof.
  intros Hd.
  destruct x as [[|]|[|]| |[|] mx ex]; cbn [good]; intros Hx; try easy.
  destruct (mul_G mx my ex ey (ex + ey) Hd ltac:(lia)) as [-> Hp].
  apply G_good, Hp.
Qed.

Lemma mul_mono (x x' : spec_float) (my : positive) (ey : Z) :
  Zpos (digits2_pos my) = 53 ->
  good x -> good x' -> SFleb x x' = true ->
  SFleb (Num.mul x (S754_finite false my ey))
        (Num.mul x' (S754_finite false my ey)) = true.
Proof.
  intros Hd Hx Hx' Hle.
  pose proof (mul_good x my ey Hd Hx) as Gx.
  pose proof (mul_good x' my ey Hd Hx') as Gx'.
  destruct x as [[|]|[|]| |[|] mx ex]; cbn [good] in Hx; try easy.
  - apply leb_zero_good, Gx'.
  - destruct x' as [[|]|[|]| |[|] mx' ex']; cbn [good] in Hx'; try easy.
  - destruct x' as [[|]|[|]| |[|] mx' ex']; cbn [good] in Hx'; try easy.
    + apply leb_good_inf, Gx.
    + destruct Hx as [_ Hx], Hx' as [_ Hx'].
      set (c := Z.min (ex + ey) (ex' + ey)).
      destruct (mul_G mx my ex ey c Hd) as [-> Hp]; try (unfold c; lia).
      destruct (mul_G mx' my ex' ey c Hd) as [-> Hp']; try (unfold c; lia).
      apply G_mono; try assumption.
      pose proof (leb_value mx mx' ex ex' (c - ey) Hx Hx' ltac:(unfold c; lia)
                    ltac:(unfold c; lia) Hle) as Hv.
      replace (ex - (c - ey)) with (ex + ey - c) in Hv by lia.
      replace (ex' - (c - ey)) with (ex' + ey - c) in Hv by lia.
      nia.
Qed.

(** The integer of [Math.round] from the value at a common exponent. *)
Lemma roundInt_char (m : positive) (e c : Z) :
  c <= e -> c <= 0 ->
  roundInt m e = (2 * (Zpos m * 2 ^ (e - c)) + 2 ^ (- c)) / (2 * 2 ^ (- c)).
Proof.
  intros Hce Hc. unfold roundInt.
  pose proof (Z.pow_pos_nonneg 2 (- c) ltac:(lia) ltac:(lia)) as HP.
  destruct (Z.leb_spec 0 e) as [He|He].
  - replace (e - c) with (e + - c) by lia. rewrite Z.pow_add_r by lia.
    replace (2 * (Z.pos m * (2 ^ e * 2 ^ (- c))) + 2 ^ (- c))
      with ((2 * (Zpos m * 2 ^ e) + 1) * 2 ^ (- c)) by ring.
    rewrite Z.div_mul_cancel_r by lia.
    apply Z.div_unique with (r := 1); lia.
  - pose proof (Z.pow_pos_nonneg 2 (e - c) ltac:(lia) ltac:(lia)) as HQ.
    replace (- c) with (- e + (e - c)) by lia. rewrite Z.pow_add_r by lia.
    replace (2 * (Z.pos m * 2 ^ (e - c)) + 2 ^ (- e) * 2 ^ (e - c))
      with ((2 * Zpos m + 2 ^ (- e)) * 2 ^ (e - c)) by ring.
    replace (2 * (2 ^ (- e) * 2 ^ (e - c))) with (2 * 2 ^ (- e) * 2 ^ (e - c)) by ring.
    rewrite Z.div_mul_cancel_r; [reflexivity| |lia].
    pose proof (Z.pow_pos_nonneg 2 (- e) ltac:(lia) ltac:(lia)). lia.
Qed.

Lemma roundInt_nonneg (m : positive) (e : Z) : 0 <= roundInt m e.
Proof.
  unfold roundInt. destruct (Z.leb_spec 0 e) as [He|He].
  - apply Z.mul_nonneg_nonneg; [lia|apply Z.pow_nonneg; lia].
  - pose proof (Z.pow_pos_nonneg 2 (- e) ltac:(lia) ltac:(lia)).
    apply Z.div_pos; lia.
Qed.

Lemma roundInt_mono (m m' : positive) (e e' c : Z) :
  c <= e -> c <= e' -> c <= 0 ->
  Zpos m * 2 ^ (e - c) <= Zpos m' * 2 ^ (e' - c) ->
  roundInt m e <= roundInt m' e'.
Proof.
  intros Hce Hce' Hc Hv.
  rewrite (roundInt_char m e c), (roundInt_char m' e' c) by assumption.
  pose proof (Z.pow_pos_nonneg 2 (- c) ltac:(lia) ltac:(lia)).
  apply Z.div_le_mono; lia.
Qed.

(** [Math.round] of a number above zero is the number of its integer. *)
Lemma mathRound_ofZ (m : positive) (e : Z) :
  bounded Num.prec Num.emax m e = true ->
  mathRound (S754_finite false m e) = Num.ofZ (roundInt m e).
Proof.
  intros Hb. unfold mathRound, roundInt.
  destruct (Z.leb_spec 0 e) as [He|He]; [|reflexivity].
  destruct (finite_G m e (-1074) Hb ltac:(lia) ltac:(lia)) as [-> _].
  assert (Hz : 0 <= Zpos m * 2 ^ e)
    by (apply Z.mul_nonneg_nonneg; [lia|apply Z.pow_nonneg; lia]).
  destruct (ofZ_G (Zpos m * 2 ^ e) (-1074) Hz ltac:(lia)) as [-> _].
  replace (e - -1074) with (e + - -1074) by lia.
  rewrite Z.pow_add_r by lia. rewrite Z.mul_assoc. reflexivity.
Qed.

(** [Math.round] of a number from zero to a hundred. *)
Lemma mathRound_percent (x : spec_float) :
  good x -> SFleb x (Num.ofZ 100) = true ->
  mathRound x = Num.ofZ (percentInt x) /\ 0 <= percentInt x <= 100.
Proof.
  intros Hx Hx100.
  assert (H100 : Num.ofZ 100 = S754_finite false 7036874417766400 (-46)) by reflexivity.
  assert (B100 : bounded Num.prec Num.emax 7036874417766400 (-46) = true) by reflexivity.
  assert (R100 : roundInt 7036874417766400 (-46) = 100) by reflexivity.
  rewrite H100 in Hx100.
  destruct x as [[|]|[|]| |[|] mx ex]; cbn [good] in Hx; try easy;
    [split; [reflexivity|cbn [percentInt]; lia] .. |].
  destruct Hx as [_ Hx]. cbn [percentInt].
  split; [apply mathRound_ofZ, Hx|].
  set (c := Z.min ex (-46)).
  pose proof (leb_value mx _ ex (-46) c Hx B100
                ltac:(unfold c; lia) ltac:(unfold c; lia) Hx100) as Hv.
  pose proof (roundInt_mono mx _ ex (-46) c ltac:(unfold c; lia)
                ltac:(unfold c; lia) ltac:(unfold c; lia) Hv) as Hq.
  rewrite R100 in Hq. pose proof (roundInt_nonneg mx ex). lia.
Qed.

Lemma percentInt_mono (x y : spec_float) :
  good x -> good y -> SFleb x y = true -> SFleb y (Num.ofZ 100) = true ->
  percentInt x <= percentInt y.
Proof.
  intros Hx Hy Hxy Hy100.
  assert (H100 : Num.ofZ 100 = S754_finite false 7036874417766400 (-46)) by reflexivity.
  rewrite H100 in Hy100.
  destruct y as [[|]|[|]| |[|] my ey]; cbn [good] in Hy; try easy;
    destruct x as [[|]|[|]| |[|] mx ex]; cbn [good] in Hx; try easy;
    cbn [percentInt]; try apply roundInt_nonneg.
  destruct Hx as [_ Hx], Hy as [_ Hy].
  set (c := Z.min ex (Z.min ey 0)).
  pose proof (leb_value mx my ex ey c Hx Hy
                ltac:(unfold c; lia) ltac:(unfold c; lia) Hxy) as Hv.
  apply (roundInt_mono mx my ex ey c); try (unfold c; lia). exact Hv.
Qed.

(** The percentage before it is rounded: at most a hundred, a hundred on the
    last unit, and not smaller for a later unit. *)
Lemma percent_order (i j n : Z) :
  0 <= i <= j -> j < n -> n <= 2 ^ 53 ->
  let pct k := Num.mul (Num.div (Num.ofZ (k + 1)) (Num.ofZ n)) (Num.ofZ 100) in
  good (pct i) /\ good (pct j)
  /\ SFleb (pct i) (pct j) = true
  /\ SFleb (pct j) (Num.ofZ 100) = true
  /\ pct (n - 1) = Num.ofZ 100.
Proof.
  intros Hi Hj Hn pct.
  destruct (ofZ_finite n ltac:(lia)) as (mn & en & En & Bn).
  assert (H100 : Num.ofZ 100 = S754_finite false 7036874417766400 (-46)) by reflexivity.
  assert (D100 : Zpos (digits2_pos 7036874417766400) = 53) by reflexivity.
  assert (Hlast : pct (n - 1) = Num.ofZ 100).
  { unfold pct. replace (n - 1 + 1) with n by lia.
    rewrite En, div_self. reflexivity. }
  assert (Hgood : forall k, 0 <= k -> good (pct k)).
  { intros k Hk. unfold pct. rewrite En, H100.
    apply mul_good; [exact D100|]. apply div_good, ofZ_good. lia. }
  assert (Hmono : forall k k', 0 <= k <= k' -> SFleb (pct k) (pct k') = true).
  { intros k k' Hk. unfold pct. rewrite En, H100.
    apply mul_mono; [exact D100|apply div_good, ofZ_good; lia
                    |apply div_good, ofZ_good; lia|].
    apply div_mono; [apply ofZ_good; lia|apply ofZ_good; lia|].
    apply ofZ_mono. lia. }
  split; [apply Hgood; lia|]. split; [apply Hgood; lia|].
  split; [apply Hmono; lia|]. split; [|exact Hlast].
  rewrite <- Hlast. apply Hmono. lia.
Qed.

(** X19: with a sequence loaded (of fewer than 2^32 units, the most an array
    holds) the progress shown is a whole number of percent from 0 to 100, it
    is 100 on the last unit, and it is not smaller at any later position. *)
Theorem progress_percent (s : state) :
  reachable s -> words s <> [] -> len (words s) < 2 ^ 32 ->
  exists p,
    progressPercent s = Num.ofZ p /\ 0 <= p <= 100
    /\ (currentIndex s = len (words s) - 1 -> p = 100)
    /\ forall j, currentIndex s <= j < len (words s) ->
         exists q, progressPercent (setCurrentIndex j s) = Num.ofZ q
                   /\ p <= q <= 100.
Proof.
  intros Hs Hne Hlen.
  pose proof (reachable_positionInRange s Hs Hne) as Hi.
  set (n := len (words s)) in *. set (i := currentIndex s) in *.
  assert (Hn53 : n <= 2 ^ 53).
  { assert (2 ^ 32 <= 2 ^ 53) by (apply Z.pow_le_mono_r; lia). lia. }
  set (pct k := Num.mul (Num.div (Num.ofZ (k + 1)) (Num.ofZ n)) (Num.ofZ 100)).
  destruct (percent_order i i n ltac:(lia) ltac:(lia) Hn53)
    as (Gi & _ & _ & Hi100 & Hlast).
  change (good (pct i)) in Gi.
  change (SFleb (pct i) (Num.ofZ 100) = true) in Hi100.
  change (pct (n - 1) = Num.ofZ 100) in Hlast.
  destruct (mathRound_percent (pct i) Gi Hi100) as [Ep Hp].
  exists (percentInt (pct i)).
  split; [exact Ep|]. split; [exact Hp|]. split.
  - intros Elast. rewrite Elast, Hlast. reflexivity.
  - intros j Hj.
    destruct (percent_order i j n ltac:(lia) ltac:(lia) Hn53)
      as (_ & Gj & Hij & Hj100 & _).
    change (good (pct j)) in Gj.
    change (SFleb (pct i) (pct j) = true) in Hij.
    change (SFleb (pct j) (Num.ofZ 100) = true) in Hj100.
    destruct (mathRound_percent (pct j) Gj Hj100) as [Eq Hq].
    exists (percentInt (pct j)). split; [exact Eq|].
    split; [apply percentInt_mono; assumption|lia].
Qed.

Lemma progress_percent_witness :
  reachable atSecondOfFour /\ words atSecondOfFour <> []
  /\ len (words atSecondOfFour) < 2 ^ 32
  /\ exists p,
       progressPercent atSecondOfFour = Num.ofZ p /\ 0 <= p <= 100
       /\ (currentIndex atSecondOfFour = len (words atSecondOfFour) - 1 -> p = 100)
       /\ forall j, currentIndex atSecondOfFour <= j < len (words atSecondOfFour) ->
            exists q, progressPercent (setCurrentIndex j atSecondOfFour) = Num.ofZ q
                      /\ p <= q <= 100.
Proof.
  assert (Hne : words atSecondOfFour <> []) by (vm_compute; discriminate).
  assert (Hlen : len (words atSecondOfFour) < 2 ^ 32) by (vm_compute; reflexivity).
  split; [exact reachable_atSecondOfFour|]. split; [exact Hne|]. split; [exact Hlen|].
  apply (progress_percent atSecondOfFour reachable_atSecondOfFour Hne Hlen).
Defined.

(** Half the way through four units the progress shown is fifty percent. *)
Example progress_percent_half : progressPercent atSecondOfFour = Num.ofZ 50.
Proof. vm_compute. reflexivity. Qed.

(** ** The time left in minutes and seconds *)

(** An integer of at most 53 digits, scaled by a power of two, is a number
    of the format. *)
Lemma binary_round_exact (p : positive) (e0 : Z) :
  Zpos p < 2 ^ 53 -> -1000 <= e0 <= 900 ->
  exists m e,
    binary_round Num.prec Num.emax false p e0 = S754_finite false m e
    /\ bounded Num.prec Num.emax m e = true
    /\ e0 - 52 <= e <= e0 /\ Zpos m = Zpos p * 2 ^ (e0 - e).
Proof.
  intros Hp He0.
  set (d := Zdigits2 (Zpos p)).
  assert (Hd : 1 <= d <= 53).
  { pose proof (Zdigits2_pos (Zpos p) ltac:(lia)).
    pose proof (Zdigits2_le (Zpos p) 53 ltac:(lia) ltac:(lia) Hp). unfold d. lia. }
  set (e := e0 + d - 53).
  pose proof (Z.pow_pos_nonneg 2 (53 - d) ltac:(lia) ltac:(lia)) as Hpow.
  assert (HM : 0 < Zpos p * 2 ^ (53 - d)) by lia.
  destruct (Zpos p * 2 ^ (53 - d)) as [|m|m] eqn:EM; try lia.
  exists m, e.
  assert (Hdm : Zpos (digits2_pos m) = 53).
  { change (Zdigits2 (Zpos m) = 53). rewrite <- EM.
    rewrite Zdigits2_shift by lia. fold d. lia. }
  assert (Hb : bounded Num.prec Num.emax m e = true).
  { apply bounded_iff. rewrite Hdm, fexp_eq. unfold e. lia. }
  split; [|split; [exact Hb|split; [unfold e; lia|]]].
  - destruct (round_at p e0 (-1074) ltac:(lia) ltac:(lia)) as [-> _].
    destruct (finite_G m e (-1074) Hb ltac:(unfold e; lia) ltac:(lia)) as [-> _].
    f_equal. rewrite <- EM, <- Z.mul_assoc, <- Z.pow_add_r by (unfold e; lia).
    f_equal. f_equal. unfold e. lia.
  - rewrite <- EM. f_equal. f_equal. unfold e. lia.
Qed.

(** The number of an integer from 1 below 2^53, with its value. *)
Lemma ofZ_exact (z : Z) :
  0 < z < 2 ^ 53 ->
  exists m e,
    Num.ofZ z = S754_finite false m e
    /\ bounded Num.prec Num.emax m e = true
    /\ -52 <= e <= 0 /\ Zpos m = z * 2 ^ (- e).
Proof.
  intros Hz. destruct z as [|p|p]; try lia.
  destruct (binary_round_exact p 0 ltac:(lia) ltac:(lia)) as (m & e & E & Hb & He & Hm).
  exists m, e. rewrite Z.sub_0_l in Hm. repeat split; try assumption; lia.
Qed.

(** Sums of such integers are exact. *)
Lemma add_ofZ (a b : Z) :
  0 <= a -> 0 <= b -> a + b < 2 ^ 53 ->
  Num.add (Num.ofZ a) (Num.ofZ b) = Num.ofZ (a + b).
Proof.
  intros Ha Hb Hab.
  destruct (Z.eq_dec a 0) as [->|Na].
  { destruct (Z.eq_dec b 0) as [->|Nb]; [reflexivity|].
    rewrite Z.add_0_l.
    destruct (ofZ_exact b ltac:(lia)) as (mb & eb & -> & _). reflexivity. }
  destruct (ofZ_exact a ltac:(lia)) as (ma & ea & Ea & Ba & Hea & Hma).
  destruct (Z.eq_dec b 0) as [->|Nb].
  { rewrite Z.add_0_r, Ea. reflexivity. }
  destruct (ofZ_exact b ltac:(lia)) as (mb & eb & Eb & Bb & Heb & Hmb).
  apply bounded_iff in Ba as Ca. apply bounded_iff in Bb as Cb.
  rewrite fexp_eq in Ca, Cb.
  rewrite Ea, Eb.
  set (c := -1200).
  destruct (add_G ma mb ea eb c) as [-> _]; try (unfold c; lia).
  destruct (ofZ_G (a + b) c ltac:(lia) ltac:(unfold c; lia)) as [-> _].
  f_equal. rewrite Hma, Hmb, <- !Z.mul_assoc, <- !Z.pow_add_r by (unfold c; lia).
  replace (- ea + (ea - c)) with (- c) by lia.
  replace (- eb + (eb - c)) with (- c) by lia. ring.
Qed.

Lemma add_comm_good (x y : spec_float) :
  good x -> good y -> Num.add x y = Num.add y x.
Proof.
  destruct x as [[|]|[|]| |[|] mx ex], y as [[|]|[|]| |[|] my ey];
    cbn [good]; intros Hx Hy; try easy.
  set (c := Z.min ex (Z.min ey (-1074))).
  destruct (add_G mx my ex ey c) as [-> _]; try (unfold c; lia).
  destruct (add_G my mx ey ex c) as [-> _]; try (unfold c; lia).
  f_equal. apply Z.add_comm.
Qed.

Lemma add_mono_r (x y y' : spec_float) :
  good x -> good y -> good y' ->
  SFleb y y' = true -> SFleb (Num.add x y) (Num.add x y') = true.
Proof.
  intros Hx Hy Hy' Hle.
  rewrite (add_comm_good x y), (add_comm_good x y') by assumption.
  apply add_mono; assumption.
Qed.

(** A sum of [k] numbers of at most a thousand each is at most [1000 * k]. *)
Lemma total_upper (ds : list spec_float) :
  Forall (fun d => good d /\ SFleb d (Num.ofZ 1000) = true) ds ->
  forall a A, good a -> 0 <= A -> A + 1000 * Z.of_nat (length ds) < 2 ^ 53 ->
    SFleb a (Num.ofZ A) = true ->
    good (fold_left Num.add ds a)
    /\ SFleb (fold_left Num.add ds a)
             (Num.ofZ (A + 1000 * Z.of_nat (length ds))) = true.
Proof.
  induction 1 as [|d ds [Gd Hd] _ IH]; intros a A Ga HA Hb Ha; cbn [fold_left length].
  - rewrite Z.mul_0_r, Z.add_0_r. split; assumption.
  - cbn [length] in Hb. rewrite Nat2Z.inj_succ in *.
    assert (GA : good (Num.ofZ A)) by (apply ofZ_good; lia).
    assert (G1000 : good (Num.ofZ 1000)) by (apply ofZ_good; lia).
    assert (Hstep : SFleb (Num.add a d) (Num.ofZ (A + 1000)) = true).
    { rewrite <- (add_ofZ A 1000) by lia.
      apply (leb_trans_good _ (Num.add (Num.ofZ A) d));
        try (apply add_good; assumption).
      - apply add_mono; assumption.
      - apply add_mono_r; assumption. }
    destruct (IH (Num.add a d) (A + 1000) (add_good a d Ga Gd) ltac:(lia)
                ltac:(lia) Hstep) as [G1 L1].
    split; [exact G1|].
    replace (A + 1000 * Z.succ (Z.of_nat (length ds)))
      with (A + 1000 + 1000 * Z.of_nat (length ds)) by lia.
    exact L1.
Qed.

(** The quotient of a multiple by its divisor is exact. *)
Lemma div_ofZ_exact (k d : Z) :
  0 <= k -> 0 < d -> d < 2 ^ 53 -> k * d < 2 ^ 53 ->
  Num.div (Num.ofZ (k * d)) (Num.ofZ d) = Num.ofZ k.
Proof.
  intros Hk Hd Hd53 Hkd.
  destruct (ofZ_exact d ltac:(lia)) as (md & ed & Ed & Bd & Hed & Hmd).
  rewrite Ed.
  destruct (Z.eq_dec k 0) as [->|Nk]; [reflexivity|].
  destruct (ofZ_exact (k * d) ltac:(nia)) as (m & e & E & B & He & Hm).
  rewrite E.
  apply bounded_iff in B as C. apply bounded_iff in Bd as Cd.
  rewrite fexp_eq in C, Cd.
  set (c := -1200).
  destruct (div_G m md e ed c) as [-> _]; try (unfold c; lia).
  destruct (ofZ_G k c ltac:(lia) ltac:(unfold c; lia)) as [-> _].
  replace (Z.pos m * 2 ^ (e - ed - c)) with (Zpos md * (k * 2 ^ (- c))).
  - rewrite <- (Z.mul_1_r (Zpos md)) at 2. apply G_cancel; lia.
  - rewrite Hm, Hmd.
    assert (P1 : 2 ^ (- ed) * 2 ^ (- c) = 2 ^ (- ed - c))
      by (rewrite <- Z.pow_add_r by (unfold c; lia); f_equal; lia).
    assert (P2 : 2 ^ (- e) * 2 ^ (e - ed - c) = 2 ^ (- ed - c))
      by (rewrite <- Z.pow_add_r by (unfold c; lia); f_equal; lia).
    replace (d * 2 ^ (- ed) * (k * 2 ^ (- c)))
      with (k * d * (2 ^ (- ed) * 2 ^ (- c))) by ring.
    replace (k * d * 2 ^ (- e) * 2 ^ (e - ed - c))
      with (k * d * (2 ^ (- e) * 2 ^ (e - ed - c))) by ring.
    rewrite P1, P2. reflexivity.
Qed.

(** [Math.ceil] of a number above zero is the number of its integer. *)
Lemma ceil_ofZ (m : positive) (e : Z) :
  bounded Num.prec Num.emax m e = true ->
  Num.ceil (S754_finite false m e) = Num.ofZ (ceilInt m e).
Proof.
  intros Hb. set (c := Z.min e (-1074)).
  destruct (ceil_G m e c Hb ltac:(unfold c; lia) ltac:(unfold c; lia)) as [-> _].
  pose proof (ceilInt_pos m e).
  destruct (ofZ_G (ceilInt m e) c ltac:(lia) ltac:(unfold c; lia)) as [-> _].
  reflexivity.
Qed.

(** A number of the format that is at most the number of an integer has at
    most its value. *)
Lemma leb_ofZ_value (m : positive) (e z c : Z) :
  bounded Num.prec Num.emax m e = true -> 0 <= z < 2 ^ 53 ->
  SFleb (S754_finite false m e) (Num.ofZ z) = true ->
  c <= e -> c <= -53 ->
  Zpos m * 2 ^ (e - c) <= z * 2 ^ (- c).
Proof.
  intros Hb Hz Hle Hce Hc.
  destruct (Z.eq_dec z 0) as [->|Nz]; [discriminate Hle|].
  destruct (ofZ_exact z ltac:(lia)) as (mz & ez & Ez & Bz & Hez & Hmz).
  rewrite Ez in Hle.
  pose proof (leb_value m mz e ez c Hb Bz Hce ltac:(lia) Hle) as Hv.
  rewrite Hmz in Hv.
  rewrite <- Z.mul_assoc, <- Z.pow_add_r in Hv by lia.
  replace (- ez + (ez - c)) with (- c) in Hv by lia. exact Hv.
Qed.

(** The whole seconds of a sum of milliseconds: an integer, at most the
    number of the terms when none exceeds a thousand. *)
Lemma seconds_of_total (ds : list spec_float) :
  Forall (fun d => good d /\ SFleb d (Num.ofZ 1000) = true) ds ->
  Z.of_nat (length ds) < 2 ^ 32 ->
  exists r, 0 <= r <= Z.of_nat (length ds)
            /\ Num.ceil (Num.div (fold_left Num.add ds (Num.ofZ 0)) (Num.ofZ 1000))
               = Num.ofZ r.
Proof.
  intros Hds Hlen.
  set (k := Z.of_nat (length ds)) in *.
  assert (H32 : 2 ^ 32 * 1000 < 2 ^ 53) by reflexivity.
  destruct (total_upper ds Hds (Num.ofZ 0) 0 eq_refl ltac:(lia) ltac:(fold k; lia) eq_refl)
    as [Gt Ht].
  fold k in Ht. rewrite Z.add_0_l in Ht.
  set (t := fold_left Num.add ds (Num.ofZ 0)) in *.
  assert (H1000 : Num.ofZ 1000 = S754_finite false 8796093022208000 (-43)) by reflexivity.
  assert (Hx : SFleb (Num.div t (Num.ofZ 1000)) (Num.ofZ k) = true).
  { rewrite <- (div_ofZ_exact k 1000) by lia.
    rewrite Z.mul_comm, H1000.
    apply div_mono; [exact Gt|apply ofZ_good; lia|exact Ht]. }
  assert (Gx : good (Num.div t (Num.ofZ 1000))) by (rewrite H1000; apply div_good, Gt).
  destruct (Num.div t (Num.ofZ 1000)) as [[|]|[|]| |[|] m e]; cbn [good] in Gx; try easy.
  - exists 0. split; [lia|reflexivity].
  - exfalso. destruct (Z.eq_dec k 0) as [E|E]; [rewrite E in Hx; discriminate Hx|].
    destruct (ofZ_exact k ltac:(lia)) as (mk & ek & Ek & _). rewrite Ek in Hx.
    discriminate Hx.
  - destruct Gx as [_ Hb]. exists (ceilInt m e).
    split; [|apply ceil_ofZ, Hb].
    pose proof (ceilInt_pos m e). split; [lia|].
    set (c := Z.min e (-53)).
    apply (ceilInt_least m e c); try (unfold c; lia).
    apply leb_ofZ_value; try assumption; unfold c; lia.
Qed.

(** The integer of [Math.floor] from the value at a common exponent. *)
Lemma floorInt_char (m : positive) (e c : Z) :
  c <= e -> c <= 0 ->
  floorInt m e = (Zpos m * 2 ^ (e - c)) / 2 ^ (- c).
Proof.
  intros Hce Hc. unfold floorInt.
  pose proof (Z.pow_pos_nonneg 2 (- c) ltac:(lia) ltac:(lia)) as HP.
  destruct (Z.leb_spec 0 e) as [He|He].
  - replace (e - c) with (e + - c) by lia. rewrite Z.pow_add_r by lia.
    rewrite Z.mul_assoc, Z.div_mul by lia. reflexivity.
  - pose proof (Z.pow_pos_nonneg 2 (e - c) ltac:(lia) ltac:(lia)) as HQ.
    pose proof (Z.pow_pos_nonneg 2 (- e) ltac:(lia) ltac:(lia)) as HR.
    replace (- c) with (- e + (e - c)) by lia. rewrite Z.pow_add_r by lia.
    rewrite Z.div_mul_cancel_r by lia. reflexivity.
Qed.

(** [Math.floor] of a number above zero is the number of its integer. *)
Lemma mathFloor_ofZ (m : positive) (e : Z) :
  bounded Num.prec Num.emax m e = true ->
  mathFloor (S754_finite false m e) = Num.ofZ (floorInt m e).
Proof.
  intros Hb. unfold mathFloor, floorInt.
  destruct (Z.leb_spec 0 e) as [He|He]; [|reflexivity].
  destruct (finite_G m e (-1074) Hb ltac:(lia) ltac:(lia)) as [-> _].
  assert (Hz : 0 <= Zpos m * 2 ^ e)
    by (apply Z.mul_nonneg_nonneg; [lia|apply Z.pow_nonneg; lia]).
  destruct (ofZ_G (Zpos m * 2 ^ e) (-1074) Hz ltac:(lia)) as [-> _].
  replace (e - -1074) with (e + - -1074) by lia.
  rewrite Z.pow_add_r by lia. rewrite Z.mul_assoc. reflexivity.
Qed.

Lemma pre_scale (k N c : Z) : 0 < k -> pre N 1 c -> pre (k * N) k c.
Proof.
  intros Hk (P1 & P2 & P3). unfold pre, expOf in *.
  rewrite Z.div_1_r in P3.
  rewrite (Z.mul_comm k N), Z.div_mul by lia.
  repeat split; try assumption; nia.
Qed.

(** The whole minutes of a number of seconds. *)
Lemma floor_div_60 (r : Z) :
  0 <= r < 2 ^ 32 ->
  mathFloor (Num.div (Num.ofZ r) (Num.ofZ 60)) = Num.ofZ (r / 60).
Proof.
  intros Hr.
  assert (H60 : Num.ofZ 60 = S754_finite false 8444249301319680 (-47)) by reflexivity.
  assert (M60 : 8444249301319680 = 60 * 2 ^ 47) by reflexivity.
  destruct (Z.eq_dec r 0) as [->|Nr]; [reflexivity|].
  set (k := r / 60).
  pose proof (Z.div_mod r 60 ltac:(lia)) as Hdm.
  pose proof (Z.mod_pos_bound r 60 ltac:(lia)) as Hmod. fold k in Hdm.
  assert (Hk : 0 <= k) by (apply Z.div_pos; lia).
  assert (Hk32 : k < 2 ^ 32) by lia.
  destruct (ofZ_exact r ltac:(lia)) as (mr & er & Er & Br & Her & Hmr).
  rewrite Er, H60.
  pose proof (div_good _ 8444249301319680 (-47) (proj2 (conj I (ofZ_good r ltac:(lia)))))
    as Gx.
  rewrite Er in Gx.
  set (c := -1200).
  destruct (div_G mr 8444249301319680 er (-47) c ltac:(unfold c; lia) ltac:(unfold c; lia))
    as [Ex Px].
  assert (HN : Zpos mr * 2 ^ (er - -47 - c) = r * 2 ^ (47 - c)).
  { rewrite Hmr, <- Z.mul_assoc, <- Z.pow_add_r by (unfold c; lia).
    f_equal. f_equal. lia. }
  rewrite HN in Ex, Px.
  (* the number just below [k + 1] *)
  destruct (binary_round_exact (Z.to_pos (64 * k + 63)) (-6)) as (mF & eF & EF & BF & HeF & HmF);
    [rewrite Z2Pos.id by lia; lia|lia|].
  rewrite Z2Pos.id in HmF by lia.
  destruct (round_at (Z.to_pos (64 * k + 63)) (-6) c ltac:(unfold c; lia)
              ltac:(unfold c; lia)) as [EG PG].
  rewrite Z2Pos.id in EG, PG by lia. rewrite EF in EG.
  assert (Hup : SFleb (Num.div (S754_finite false mr er)
                         (S754_finite false 8444249301319680 (-47)))
                      (S754_finite false mF eF) = true).
  { rewrite Ex, EG.
    rewrite <- (G_cancel 8444249301319680 ((64 * k + 63) * 2 ^ (-6 - c)) 1 c) by lia.
    rewrite Z.mul_1_r.
    apply G_mono; try assumption.
    - apply pre_scale; [lia|exact PG].
    - rewrite M60.
      replace (47 - c) with (6 + 47 + (-6 - c)) by lia.
      rewrite !Z.pow_add_r by (unfold c; lia).
      pose proof (Z.pow_pos_nonneg 2 (-6 - c) ltac:(lia) ltac:(unfold c; lia)).
      change (2 ^ 6) with 64. nia. }
  assert (Hlow : 0 < k ->
                 SFleb (Num.ofZ k)
                       (Num.div (S754_finite false mr er)
                          (S754_finite false 8444249301319680 (-47))) = true).
  { intros Hk0. rewrite Ex.
    destruct (ofZ_G k c ltac:(lia) ltac:(unfold c; lia)) as [-> Pk].
    rewrite <- (G_cancel 8444249301319680 (k * 2 ^ (- c)) 1 c) by lia.
    rewrite Z.mul_1_r.
    apply G_mono; try assumption.
    - apply pre_scale; [lia|exact Pk].
    - rewrite M60.
      replace (47 - c) with (47 + - c) by lia.
      rewrite !Z.pow_add_r by (unfold c; lia).
      pose proof (Z.pow_pos_nonneg 2 (- c) ltac:(lia) ltac:(unfold c; lia)).
      nia. }
  destruct (Num.div (S754_finite false mr er) (S754_finite false 8444249301319680 (-47)))
    as [[|]|[|]| |[|] m e]; cbn [good] in Gx; try easy.
  - (* zero *)
    destruct (Z.eq_dec k 0) as [->|Nk]; [reflexivity|].
    exfalso. specialize (Hlow ltac:(lia)).
    destruct (ofZ_exact k ltac:(lia)) as (mk & ek & Ek & _). rewrite Ek in Hlow.
    discriminate Hlow.
  - destruct Gx as [_ Bx]. rewrite mathFloor_ofZ by exact Bx. f_equal.
    set (c' := Z.min e (Z.min eF (-60))).
    rewrite (floorInt_char m e c') by (unfold c'; lia).
    pose proof (leb_value m mF e eF c' Bx BF ltac:(unfold c'; lia)
                  ltac:(unfold c'; lia) Hup) as Hv.
    rewrite HmF in Hv.
    rewrite <- Z.mul_assoc, <- Z.pow_add_r in Hv by (unfold c'; lia).
    replace (-6 - eF + (eF - c')) with (-6 - c') in Hv by lia.
    assert (HP : 2 ^ (- c') = 64 * 2 ^ (-6 - c')).
    { replace (- c') with (6 + (-6 - c')) by lia.
      rewrite Z.pow_add_r by (unfold c'; lia). reflexivity. }
    pose proof (Z.pow_pos_nonneg 2 (-6 - c') ltac:(lia) ltac:(unfold c'; lia)) as HQ.
    assert (Hlo : k * 2 ^ (- c') <= Z.pos m * 2 ^ (e - c')).
    { destruct (Z.eq_dec k 0) as [->|Nk].
      - rewrite Z.mul_0_l. apply Z.mul_nonneg_nonneg; [lia|apply Z.pow_nonneg; lia].
      - specialize (Hlow ltac:(lia)).
        destruct (ofZ_exact k ltac:(lia)) as (mk & ek & Ek & Bk & Hek & Hmk).
        rewrite Ek in Hlow.
        pose proof (leb_value mk m ek e c' Bk Bx ltac:(unfold c'; lia)
                      ltac:(unfold c'; lia) Hlow) as Hv'.
        rewrite Hmk in Hv'.
        rewrite <- Z.mul_assoc, <- Z.pow_add_r in Hv' by (unfold c'; lia).
        replace (- ek + (ek - c')) with (- c') in Hv' by lia. exact Hv'. }
    symmetry. apply Z.div_unique with (r := Z.pos m * 2 ^ (e - c') - k * 2 ^ (- c')).
    + left. rewrite HP in *. lia.
    + lia.
Qed.

(** The seconds beyond the whole minutes. *)
Lemma remainder_60 (r : Z) :
  0 <= r < 2 ^ 53 ->
  remainder (Num.ofZ r) (Num.ofZ 60) = Num.ofZ (r mod 60).
Proof.
  intros Hr.
  assert (H60 : Num.ofZ 60 = S754_finite false 8444249301319680 (-47)) by reflexivity.
  assert (M60 : 8444249301319680 = 60 * 2 ^ 47) by reflexivity.
  destruct (Z.eq_dec r 0) as [->|Nr]; [reflexivity|].
  destruct (ofZ_exact r ltac:(lia)) as (mr & er & Er & Br & Her & Hmr).
  rewrite Er, H60. unfold remainder.
  set (c := Z.min er (-47)).
  assert (HX : Zpos mr * 2 ^ (er - c) = r * 2 ^ (- c)).
  { rewrite Hmr, <- Z.mul_assoc, <- Z.pow_add_r by (unfold c; lia).
    f_equal. f_equal. lia. }
  assert (HY : 8444249301319680 * 2 ^ (-47 - c) = 60 * 2 ^ (- c)).
  { rewrite M60, <- Z.mul_assoc, <- Z.pow_add_r by (unfold c; lia).
    f_equal. f_equal. lia. }
  rewrite HX, HY.
  pose proof (Z.pow_pos_nonneg 2 (- c) ltac:(lia) ltac:(unfold c; lia)) as HP.
  rewrite Z.mul_mod_distr_r by lia.
  pose proof (Z.mod_pos_bound r 60 ltac:(lia)) as Hmod.
  destruct (r mod 60) as [|q|q] eqn:Eq; try lia; [reflexivity|].
  destruct (Z.pos q * 2 ^ (- c)) as [|p|p] eqn:Ep; try lia.
  cbn [binary_normalize].
  destruct (round_at p c (-1200) ltac:(unfold c; lia) ltac:(lia)) as [-> _].
  destruct (ofZ_G (Zpos q) (-1200) ltac:(lia) ltac:(lia)) as [-> _].
  f_equal. rewrite <- Ep, <- Z.mul_assoc, <- Z.pow_add_r by (unfold c; lia).
  f_equal. f_equal. lia.
Qed.

Lemma delay_at_most_1000 (rate : Z) (w : jsstring) :
  100 <= rate <= 1000 ->
  good (getWordDelay rate w) /\ SFleb (getWordDelay rate w) (Num.ofZ 1000) = true.
Proof.
  intros Hr. split; [apply delay_good, Hr|].
  destruct (delay_table_entry rate w Hr) as ((_ & H900 & _) & _).
  apply (leb_trans_good _ (Num.ofZ 900));
    [apply delay_good, Hr|apply ofZ_good; lia|apply ofZ_good; lia|exact H900|reflexivity].
Qed.

(** X20: in every reachable state (of a sequence of fewer than 2^32 units)
    the time left is a whole number r of seconds, at most the number of units
    after the current one; the minutes shown are r div 60 and the seconds shown
    r mod 60, so that together they show r exactly. *)
Theorem time_left_minutes_seconds (s : state) :
  reachable s -> len (words s) < 2 ^ 32 ->
  exists r,
    0 <= r <= Z.max 0 (len (words s) - 1 - currentIndex s)
    /\ remainingSeconds s = Num.ofZ r
    /\ remainingMinutes s = Num.ofZ (r / 60)
    /\ remainingSecs s = Num.ofZ (r mod 60).
Proof.
  intros Hs Hlen.
  pose proof (reachable_rateInRange s Hs) as Hrate.
  assert (Hi : 0 <= currentIndex s).
  { destruct (list_eq_dec (list_eq_dec Z.eq_dec) (words s) []) as [E|E].
    - rewrite (no_words_position s Hs E). lia.
    - apply (reachable_positionInRange s Hs E). }
  set (later := sliceFrom (words s) (currentIndex s + 1)).
  assert (Hlater : Z.of_nat (length later)
                   = Z.max 0 (len (words s) - 1 - currentIndex s)).
  { unfold later, len. rewrite sliceFrom_suffix by lia. rewrite length_skipn. lia. }
  assert (Hds : Forall (fun d => good d /\ SFleb d (Num.ofZ 1000) = true)
                  (map (fun u => PaceSpec.delay u (speed s)) later)).
  { apply Forall_forall. intros d Hd. apply in_map_iff in Hd as (u & <- & _).
    rewrite <- getWordDelay_delay. apply delay_at_most_1000, Hrate. }
  destruct (seconds_of_total _ Hds) as (r & Hr & Er).
  { rewrite length_map, Hlater. unfold len in *. lia. }
  rewrite length_map, Hlater in Hr.
  assert (Esec : remainingSeconds s = Num.ofZ r).
  { unfold remainingSeconds. rewrite calculateRemainingTime_total by exact Hi.
    fold later. unfold totalMs. rewrite fold_delays. exact Er. }
  exists r. split; [exact Hr|]. split; [exact Esec|].
  unfold remainingMinutes, remainingSecs. rewrite Esec.
  assert (Hr32 : 0 <= r < 2 ^ 32) by (unfold len in *; lia).
  split; [apply floor_div_60, Hr32|].
  apply remainder_60.
  assert (2 ^ 32 <= 2 ^ 53) by (apply Z.pow_le_mono_r; lia). lia.
Qed.

Lemma time_left_minutes_seconds_witness :
  reachable atSecondOfFour /\ len (words atSecondOfFour) < 2 ^ 32
  /\ exists r,
       0 <= r <= Z.max 0 (len (words atSecondOfFour) - 1 - currentIndex atSecondOfFour)
       /\ remainingSeconds atSecondOfFour = Num.ofZ r
       /\ remainingMinutes atSecondOfFour = Num.ofZ (r / 60)
       /\ remainingSecs atSecondOfFour = Num.ofZ (r mod 60).
Proof.
  assert (Hlen : len (words atSecondOfFour) < 2 ^ 32) by (vm_compute; reflexivity).
  split; [exact reachable_atSecondOfFour|]. split; [exact Hlen|].
  apply (time_left_minutes_seconds atSecondOfFour reachable_atSecondOfFour Hlen).
Defined.
